(** * Export pipeline of the build platform: noarch reconciliation,
      signature verification and ownership handling

    A shallow embedding of [scripts/packages_exporter.py].  Python values
    are modelled by the Rocq data closest to them: [str] by [string],
    lists by [list], the three violation sets by [gset string], the
    [known_subkeys] by [gmap string _] (it is only searched), and the
    dictionaries of repositories, which are gone through in the order
    of insertion, by [pydict].

    Strings are sequences of 8-bit characters.  The character classes
    below ([str.isspace], [\s], [\w], [str.lower]) are those of Python on
    ASCII text, which is what [rpm -qip] prints; characters above 127 are
    neither whitespace nor word characters here. *)

From Stdlib Require Import ZArith Ascii String List Bool Lia.
From stdpp Require Import base decidable list strings gmap.

Set Warnings "-clear-no-such-hyp".

Local Open Scope string_scope.
Local Open Scope list_scope.

(** ** Python string operations *)

Module PyStr.

(** [c.isspace()] for one character: TAB, LF, VT, FF, CR, the four
    separators 0x1c-0x1f and the space. *)
Definition isspace (c : ascii) : bool :=
  let n := nat_of_ascii c in
  ((9 <=? n) && (n <=? 13) || (28 <=? n) && (n <=? 32))%nat.

Definition isupper (c : ascii) : bool :=
  let n := nat_of_ascii c in ((65 <=? n) && (n <=? 90))%nat.

Definition isalnum (c : ascii) : bool :=
  let n := nat_of_ascii c in
  ((48 <=? n) && (n <=? 57) || (65 <=? n) && (n <=? 90)
   || (97 <=? n) && (n <=? 122))%nat.

Definition lower_char (c : ascii) : ascii :=
  if isupper c then ascii_of_nat (nat_of_ascii c + 32) else c.

(** [s.lower()] *)
Fixpoint lower (s : string) : string :=
  match s with
  | EmptyString => EmptyString
  | String c s' => String (lower_char c) (lower s')
  end.

(** [s.startswith(p)] *)
Definition startswith (s p : string) : bool := String.prefix p s.

(** [s.endswith(p)] *)
Definition endswith (s p : string) : bool :=
  let n := String.length s in
  let m := String.length p in
  (m <=? n)%nat && String.eqb (String.substring (n - m) m s) p.

(** [needle in hay] on strings *)
Fixpoint contains (needle hay : string) : bool :=
  if String.prefix needle hay then true
  else match hay with
       | EmptyString => false
       | String _ hay' => contains needle hay'
       end.

(** [s.split(sep)] for a one-character separator *)
Fixpoint split (sep : ascii) (s : string) : list string :=
  match s with
  | EmptyString => [EmptyString]
  | String c s' =>
      if Ascii.eqb c sep then EmptyString :: split sep s'
      else match split sep s' with
           | h :: t => String c h :: t
           | [] => [String c EmptyString]
           end
  end.

Fixpoint lstrip (s : string) : string :=
  match s with
  | EmptyString => EmptyString
  | String c s' => if isspace c then lstrip s' else s
  end.

Fixpoint rstrip (s : string) : string :=
  match s with
  | EmptyString => EmptyString
  | String c s' =>
      let r := rstrip s' in
      if isspace c && String.eqb r EmptyString then EmptyString
      else String c r
  end.

(** [s.strip()] *)
Definition strip (s : string) : string := rstrip (lstrip s).

(** ["\n".join(lines)] *)
Fixpoint join (sep : string) (l : list string) : string :=
  match l with
  | [] => EmptyString
  | [x] => x
  | x :: l' => x +:+ sep +:+ join sep l'
  end.

(** [os.path.join(a, b)] of [posixpath] *)
Definition path_join (a b : string) : string :=
  if startswith b "/" then b
  else if String.eqb a EmptyString || endswith a "/" then a +:+ b
  else a +:+ "/" +:+ b.

End PyStr.

(** ** Python dictionaries keyed by strings

    A [dict] keeps its items in the order in which their keys were
    first entered: [d[k] = v] on a key that is there changes the value
    and not the place. *)
Record pydict (V : Type) : Type := PyDict { items : list (string * V) }.
Arguments PyDict {V} _.
Arguments items {V} _.

Fixpoint items_set {V} (k : string) (v : V) (l : list (string * V))
    : list (string * V) :=
  match l with
  | [] => [(k, v)]
  | (k', v') :: l' =>
      if String.eqb k' k then (k, v) :: l' else (k', v') :: items_set k v l'
  end.

Fixpoint items_get {V} (k : string) (l : list (string * V)) : option V :=
  match l with
  | [] => None
  | (k', v') :: l' => if String.eqb k' k then Some v' else items_get k l'
  end.

#[export] Instance pydict_empty {V} : Empty (pydict V) := PyDict [].

#[export] Instance pydict_insert {V} : Insert string V (pydict V) :=
  fun k v d => PyDict (items_set k v (items d)).

#[export] Instance pydict_lookup {V} : Lookup string V (pydict V) :=
  fun k d => items_get k (items d).

(** ** The fragment of Python's [re] the exporter uses

    A backtracking matcher in continuation-passing style: alternatives
    are tried in order, repetition is greedy, and the first complete
    match wins, as in [re].  The only group the exporter reads is the
    named group [key_id]; the numbered groups of the pattern are
    therefore plain sub-expressions here. *)

Module Re.

Inductive regex : Type :=
| Eps
| Chr (p : ascii -> bool)
| Seq (a b : regex)
| Alt (a b : regex)
| Star (a : regex)
| Named (a : regex).

Definition Opt (a : regex) : regex := Alt a Eps.
Definition Plus (a : regex) : regex := Seq a (Star a).

(** a literal under [re.IGNORECASE] *)
Fixpoint Lit (s : string) : regex :=
  match s with
  | EmptyString => Eps
  | String c s' =>
      Seq (Chr (fun x => Ascii.eqb (PyStr.lower_char x) (PyStr.lower_char c)))
          (Lit s')
  end.

(** [.] without [re.DOTALL] *)
Definition dot : regex := Chr (fun c => negb (Ascii.eqb c "010"%char)).
(** [\w] *)
Definition word_char (c : ascii) : bool :=
  PyStr.isalnum c || Ascii.eqb c "_"%char.

Section Match.
Context {R : Type}.

(** [rmatch r s g k]: match [r] at the head of [s]; [g] is what the
    named group has captured so far; [k] receives the rest of the
    input and the capture, and may refuse, which makes the matcher
    backtrack. *)
Fixpoint rmatch (r : regex) (s : list ascii) (g : option (list ascii))
    (k : list ascii -> option (list ascii) -> option R) : option R :=
  match r with
  | Eps => k s g
  | Chr p =>
      match s with
      | c :: s' => if p c then k s' g else None
      | [] => None
      end
  | Seq a b => rmatch a s g (fun s' g' => rmatch b s' g' k)
  | Alt a b =>
      match rmatch a s g k with
      | Some x => Some x
      | None => rmatch b s g k
      end
  | Star a =>
      (fix loop (n : nat) (s : list ascii) (g : option (list ascii))
         : option R :=
         match n with
         | O => k s g
         | S n' =>
             match rmatch a s g
                     (fun s' g' =>
                        if (length s' <? length s)%nat
                        then loop n' s' g' else None) with
             | Some x => Some x
             | None => k s g
             end
         end) (length s) s g
  | Named a =>
      rmatch a s g
        (fun s' g' => k s' (Some (take (length s - length s') s)))
  end.
End Match.

(** [pattern.search(s)]: the leftmost match; the result is the capture
    of the named group. *)
Fixpoint search_from (r : regex) (s : list ascii)
    : option (option (list ascii)) :=
  match rmatch r s None (fun _ g => Some g) with
  | Some g => Some g
  | None =>
      match s with
      | [] => None
      | _ :: s' => search_from r s'
      end
  end.

Definition search (r : regex) (s : string) : option (option string) :=
  match search_from r (list_ascii_of_string s) with
  | Some g => Some (string_of_list_ascii <$> g)
  | None => None
  end.

End Re.

Definition nl : string := String "010"%char EmptyString.

Definition ws_or_colon (c : ascii) : bool :=
  PyStr.isspace c || Ascii.eqb c ":"%char.

Definition key_id_regex : Re.regex :=
  Re.Seq (Re.Opt (Re.Chr (Ascii.eqb "("%char)))
    (Re.Seq (Re.Plus (Re.Chr Re.word_char))
            (Re.Opt (Re.Chr (Ascii.eqb ")"%char)))).

(** [(Signature[\s:]+)(.*Key ID )?(?P<key_id>(\()?\w+(\))?)] with
    [re.IGNORECASE] *)
Definition signature_regex : Re.regex :=
  Re.Seq (Re.Seq (Re.Lit "Signature") (Re.Plus (Re.Chr ws_or_colon)))
    (Re.Seq (Re.Opt (Re.Seq (Re.Star Re.dot) (Re.Lit "Key ID ")))
            (Re.Named key_id_regex)).

(** ** Data model *)

(** A sign key: a row of [models.SignKey] or an entry of the sign
    server's [sign-keys/] answer. *)
Record SignKey : Type := {
  keyid : string;
  sk_platform_id : Z;
}.

(** [models.Repository], the attributes the exporter reads *)
Record Repository : Type := {
  repo_id : Z;
  repo_name : string;
  repo_arch : string;
  repo_debug : bool;
  repo_production : bool;
  repo_export_path : string;
  repo_pulp_href : string;
}.

(** [models.Platform] with its [repos] and [sign_keys] loaded *)
Record Platform : Type := {
  platform_id : Z;
  platform_repos : list Repository;
  platform_sign_keys : list SignKey;
}.

(** One entry of a package listing of Pulp, with the five fields
    [retrieve_all_packages_from_pulp] asks for. *)
Record package_dict : Type := {
  pkg_name : string;
  pkg_version : string;
  pkg_release : string;
  pkg_sha256 : string;
  pkg_pulp_href : string;
}.

#[export] Instance package_dict_eq_dec : EqDecision package_dict.
Proof. solve_decision. Defined.

(** Messages of [self.logger], one constructor per call site. *)
Inductive log_entry : Type :=
| LogSkippingNonRpm (package_path : string)
| LogCannotGetInformation (package_path out err : string)
| LogNoSignatureInformation (package_path : string)
| LogCannotDetectSignature (package_path : string)
| LogNotSigned (package_path : string)
| LogWrongKey (package_path : string) (expected : list string) (got : string)
| LogAdd (only_check : bool) (full_name source dest : string)
| LogReplace (only_check : bool) (full_name dest source : string)
| LogSkipCopying
| LogStartChecking
| LogMissingKey (repodata : string)
| LogPathDoesNotExist (repo_path : string)
| LogAllExported (paths : list string).

(** Calls that leave the process and may raise: requests of the Pulp
    client, external commands run through [plumbum], and the helpers of
    [main] seen as one step each. *)
Inductive event : Type :=
| PulpGetRepoLatestVersion (repo_href : string)
| PulpRequestPackages (repository_version : string)
| PulpRequestNext
| PulpModifyRepository (repo_href : string) (add remove : list string)
| PulpCreateRpmPublication (repo_href : string)
| Chown (owner path : string)
| FindRmSnippets (path : string)
| OsListdir (path : string)
| RegenerateRepoMetadata (repo_path : string)
| UpdatePpc64leErrata (repodata : string)
| RepomdSigner (repodata key_id : string)
| PulpCreateFilesystemExporter (exporter_name export_path : string)
| PulpExportToFilesystem (exporter_href repository_version : string).

#[export] Instance event_eq_dec : EqDecision event.
Proof. solve_decision. Defined.

(** The [Exporter] object. *)
Record Exporter : Type := {
  copy_noarch_packages : bool;
  only_check_noarch : bool;
  show_differ_packages : bool;
  pulp_system_user : string;
  current_user : string;
  known_subkeys : gmap string (list string);
}.

(** What the exporter reads from outside and does not decide: directory
    listings, the answers of [rpm -qip] (exit code, stdout, stderr),
    which paths exist, which external calls fail (given the calls made so
    far), the answers of Pulp (latest version of a repository; the pages
    of a package listing, the first one and those reached through
    [next]; the href of an exporter it creates), the repositories the
    query of [create_filesystem_exporters] finds for a list of ids, in
    its order, the export path it computes for a repository
    ([str(Path(settings.pulp_export_path, repo.export_path,
    'Packages'))]), [Path.parent], and the event loop: which of the
    tasks run together goes on next (given the calls made so far), and
    whether, once one of them has raised, the loop hands over before
    another call of the others. *)
Record Env : Type := {
  listdir : string -> list string;
  rpm_qip : string -> Z * string * string;
  path_exists : string -> bool;
  fails : list event -> event -> bool;
  pulp_latest_version : string -> string;
  pulp_packages : string -> list package_dict * list (list package_dict);
  pulp_exporter_href : string -> string -> string;
  db_repositories : list Z -> list Repository;
  export_path_of : Repository -> string;
  path_parent : string -> string;
  schedule : list event -> nat;
  stops : list event -> bool;
}.

(** The state the exporter changes: owner of each path [chown] was run
    on, the external calls made, the log, and the content of
    [~/export.err] ([None]: no such file). *)
Record world : Type := {
  owner : gmap string string;
  trace : list event;
  logs : list log_entry;
  export_error_file : option string;
}.

(** ** Computations that may raise *)

Inductive result (A : Type) : Type :=
| Ok (a : A)
| Raised.
Arguments Ok {A} a.
Arguments Raised {A}.

Definition M (A : Type) : Type := world -> result A * world.

#[export] Instance M_ret : MRet M := fun A a w => (Ok a, w).

#[export] Instance M_bind : MBind M := fun A B f m w =>
  match m w with
  | (Ok a, w') => f a w'
  | (Raised, w') => (Raised, w')
  end.

(** An exception that no call made: an attribute read on [None], a
    missing key and the like. *)
Definition raise {A} : M A := fun w => (Raised, w).

(** [try: body finally: fin] *)
Definition try_finally {A} (body : M A) (fin : M unit) : M A :=
  fun w =>
    let '(r, w1) := body w in
    match fin w1 with
    | (Ok _, w2) => (r, w2)
    | (Raised, w2) => (Raised, w2)
    end.

(** [for x in l: body x] *)
Fixpoint for_each {A} (l : list A) (body : A -> M unit) : M unit :=
  match l with
  | [] => mret tt
  | x :: l' => body x ;; for_each l' body
  end.

Definition log (e : log_entry) : M unit :=
  fun w =>
    (Ok tt, {| owner := owner w; trace := trace w; logs := logs w ++ [e];
               export_error_file := export_error_file w |}).

(** What a call that succeeded changes. *)
Definition effect (e : event) (o : gmap string string) : gmap string string :=
  match e with
  | Chown u path => <[path := u]> o
  | _ => o
  end.

(** One external call: recorded, then it raises or takes effect. *)
Definition exec (env : Env) (e : event) : M unit :=
  fun w =>
    if fails env (trace w) e
    then (Raised, {| owner := owner w; trace := trace w ++ [e];
                     logs := logs w;
                     export_error_file := export_error_file w |})
    else (Ok tt, {| owner := effect e (owner w); trace := trace w ++ [e];
                    logs := logs w;
                    export_error_file := export_error_file w |}).

(** ** Signature verification: [Exporter.check_rpms_signature] *)

(** The three sets of the function, and what it logged. *)
Record report : Type := {
  errored_packages : gset string;
  no_signature_packages : gset string;
  wrong_signature_packages : gset string;
  report_log : list log_entry;
}.

Definition empty_report : report :=
  {| errored_packages := ∅; no_signature_packages := ∅;
     wrong_signature_packages := ∅; report_log := [] |}.

Definition add_errored (x : string) (e : log_entry) (r : report) : report :=
  {| errored_packages := errored_packages r ∪ {[x]};
     no_signature_packages := no_signature_packages r;
     wrong_signature_packages := wrong_signature_packages r;
     report_log := report_log r ++ [e] |}.

Definition add_no_signature (x : string) (e : log_entry) (r : report)
    : report :=
  {| errored_packages := errored_packages r;
     no_signature_packages := no_signature_packages r ∪ {[x]};
     wrong_signature_packages := wrong_signature_packages r;
     report_log := report_log r ++ [e] |}.

Definition add_wrong_signature (x : string) (es : list log_entry)
    (r : report) : report :=
  {| errored_packages := errored_packages r;
     no_signature_packages := no_signature_packages r;
     wrong_signature_packages := wrong_signature_packages r ∪ {[x]};
     report_log := report_log r ++ es |}.

Definition add_log (e : log_entry) (r : report) : report :=
  {| errored_packages := errored_packages r;
     no_signature_packages := no_signature_packages r;
     wrong_signature_packages := wrong_signature_packages r;
     report_log := report_log r ++ [e] |}.

(** The inner loop over [out.split('\n')]: the first stripped line that
    starts with [Signature]. *)
Definition find_signature_line (out : string) : option string :=
  List.find (fun line => PyStr.startswith line "Signature")
    (PyStr.strip <$> PyStr.split "010"%char out).

(** The loop over [self.known_subkeys.items()] *)
Definition signed_with_subkey (subkeys_of : gmap string (list string))
    (pkg_key_id : string) : bool :=
  existsb (fun kv : string * list string =>
             bool_decide (pkg_key_id ∈ kv.2))
    (map_to_list subkeys_of).

(** [f'{package_path} {pkg_key_id}'] *)
Definition wrong_entry (package_path pkg_key_id : string) : string :=
  package_path +:+ " " +:+ pkg_key_id.

(** The body of the loop over [os.listdir(repository_path)]. *)
Definition scan_package (self : Exporter) (env : Env)
    (repository_path : string) (key_ids_lower : list string)
    (r : report) (package : string) : report :=
  let package_path := PyStr.path_join repository_path package in
  if negb (PyStr.endswith package_path ".rpm")
  then add_log (LogSkippingNonRpm package_path) r
  else
    let '(exit_code, out, err) := rpm_qip env package_path in
    if negb (exit_code =? 0)%Z
    then add_errored package_path
           (LogCannotGetInformation package_path out err) r
    else
      match find_signature_line out with
      | None => add_log (LogNoSignatureInformation package_path) r
      | Some signature_line =>
          if String.eqb signature_line ""
          then add_log (LogNoSignatureInformation package_path) r
          else
            match Re.search signature_regex signature_line with
            | None =>
                add_errored package_path
                  (LogCannotDetectSignature package_path) r
            | Some key_id =>
                let pkg_key_id := PyStr.lower (default "" key_id) in
                if PyStr.contains "none" pkg_key_id
                then add_no_signature package_path
                       (LogNotSigned package_path) r
                else if negb (bool_decide (pkg_key_id ∈ key_ids_lower))
                then
                  add_wrong_signature (wrong_entry package_path pkg_key_id)
                    (if negb (signed_with_subkey (known_subkeys self)
                                pkg_key_id)
                     then [LogWrongKey package_path key_ids_lower
                             pkg_key_id]
                     else [])
                    r
                else r
            end
      end.

(** The whole loop. *)
Definition scan_packages (self : Exporter) (env : Env)
    (repository_path : string) (sign_keys : list SignKey) : report :=
  let key_ids_lower := (fun i => PyStr.lower (keyid i)) <$> sign_keys in
  fold_left (scan_package self env repository_path key_ids_lower)
    (listdir env repository_path) empty_report.

Definition nonempty (X : gset string) : bool := negb (bool_decide (X = ∅)).

(** The text built after the loop; the order in which a set lists its
    members is not specified, in Python as for [elements]. *)
Definition report_lines (r : report) : list string :=
  (if nonempty (errored_packages r)
   then "Packages that we cannot get information about:"
          :: elements (errored_packages r)
   else [])
  ++ (if nonempty (no_signature_packages r)
      then "Packages without signature:"
             :: elements (no_signature_packages r)
      else [])
  ++ (if nonempty (wrong_signature_packages r)
      then "Packages with wrong signature:"
             :: elements (wrong_signature_packages r)
      else []).

(** The end of the function: nothing is written for a clean report;
    otherwise the file is created (mode [wt]) or appended to ([at]). *)
Definition write_report (r : report) (file : option string) : option string :=
  if nonempty (errored_packages r) || nonempty (no_signature_packages r)
     || nonempty (wrong_signature_packages r)
  then
    let text := PyStr.join nl (report_lines r) in
    match file with
    | None => Some text
    | Some old => Some (old +:+ text)
    end
  else file.

(** Logging and reporting a finished scan. *)
Definition record_scan (r : report) : M unit :=
  fun w =>
    (Ok tt, {| owner := owner w; trace := trace w;
               logs := logs w ++ report_log r;
               export_error_file :=
                 write_report r (export_error_file w) |}).

(** [check_rpms_signature] as a step of the export: listing the
    directory may raise; otherwise the scan is logged and reported.
    The inspections cannot raise on a failing [rpm] ([retcode=None]);
    their answers are read from the environment. *)
Definition check_rpms_signature (self : Exporter) (env : Env)
    (repository_path : string) (sign_keys : list SignKey) : M unit :=
  exec env (OsListdir repository_path) ;;
  record_scan (scan_packages self env repository_path sign_keys).

(** [Exporter.__init__]: the flags are stored, an error file left by an
    earlier run is removed, the subkeys are read when their file exists
    ([subkeys_config]: its parsed content). *)
Definition Exporter_init (copy_noarch only_check show_differ : bool)
    (login : string) (subkeys_config : option (gmap string (list string)))
    : M Exporter :=
  fun w =>
    (Ok {| copy_noarch_packages := copy_noarch;
           only_check_noarch := only_check;
           show_differ_packages := show_differ;
           pulp_system_user := "pulp";
           current_user := login;
           known_subkeys := default ∅ subkeys_config |},
     {| owner := owner w; trace := trace w; logs := logs w;
        export_error_file :=
          match export_error_file w with
          | Some _ => None
          | None => None
          end |}).

(** ** Noarch reconciliation:
       [Exporter.copy_noarch_packages_from_x86_64_repo] *)

Definition get_repo_latest_version (env : Env) (repo_href : string)
    : M string :=
  exec env (PulpGetRepoLatestVersion repo_href) ;;
  mret (pulp_latest_version env repo_href).

(** The [while response.get('next')] loop: [pages] are the answers still
    to be fetched. *)
Fixpoint follow_next (env : Env) (pages : list (list package_dict))
    (packages : list package_dict) : M (list package_dict) :=
  match pages with
  | [] => mret packages
  | results :: pages' =>
      exec env PulpRequestNext ;;
      follow_next env pages' (packages ++ results)
  end.

Definition retrieve_all_packages_from_pulp (env : Env)
    (latest_repo_version : string) : M (list package_dict) :=
  exec env (PulpRequestPackages latest_repo_version) ;;
  follow_next env (pulp_packages env latest_repo_version).2
    (pulp_packages env latest_repo_version).1.

(** The local lists of the function. *)
Record comparison : Type := {
  packages_to_add : list string;
  packages_to_remove : list string;
  comparison_log : list log_entry;
}.

Definition same_nvr (a b : package_dict) : bool :=
  String.eqb (pkg_name a) (pkg_name b)
  && String.eqb (pkg_version a) (pkg_version b)
  && String.eqb (pkg_release a) (pkg_release b).

(** [next((pkg for pkg in destination_repo_packages if all(...)), None)] *)
Definition compared_pkg (destination_repo_packages : list package_dict)
    (p : package_dict) : option package_dict :=
  List.find (fun pkg => same_nvr pkg p) destination_repo_packages.

Definition is_modular (p : package_dict) : bool :=
  PyStr.contains ".module_el" (pkg_release p).

Definition full_name (p : package_dict) : string :=
  pkg_name p +:+ "-" +:+ pkg_version p +:+ "-" +:+ pkg_release p
  +:+ ".noarch.rpm".

(** The body of the loop over [source_repo_packages]. *)
Definition compare_package (self : Exporter)
    (source_repo_name destination_repo_name : string)
    (destination_repo_packages : list package_dict)
    (c : comparison) (p : package_dict) : comparison :=
  match compared_pkg destination_repo_packages p with
  | None =>
      if is_modular p || show_differ_packages self then c
      else
        {| packages_to_add := packages_to_add c ++ [pkg_pulp_href p];
           packages_to_remove := packages_to_remove c;
           comparison_log :=
             comparison_log c
             ++ [LogAdd (only_check_noarch self) (full_name p)
                   source_repo_name destination_repo_name] |}
  | Some q =>
      if negb (String.eqb (pkg_sha256 p) (pkg_sha256 q))
      then
        {| packages_to_add := packages_to_add c ++ [pkg_pulp_href p];
           packages_to_remove := packages_to_remove c ++ [pkg_pulp_href q];
           comparison_log :=
             comparison_log c
             ++ [LogReplace (only_check_noarch self) (full_name p)
                   destination_repo_name source_repo_name] |}
      else c
  end.

Definition compare_packages (self : Exporter)
    (source_repo_name destination_repo_name : string)
    (source_repo_packages destination_repo_packages : list package_dict)
    : comparison :=
  fold_left
    (compare_package self source_repo_name destination_repo_name
       destination_repo_packages)
    source_repo_packages
    {| packages_to_add := []; packages_to_remove := [];
       comparison_log := [] |}.

Definition is_nonempty {A} (l : list A) : bool :=
  match l with [] => false | _ :: _ => true end.

Definition copy_noarch_packages_from_x86_64_repo (self : Exporter)
    (env : Env) (source_repo_name : string)
    (source_repo_packages : list package_dict)
    (destination_repo_name destination_repo_href : string) : M unit :=
  version ← get_repo_latest_version env destination_repo_href;
  destination_repo_packages ← retrieve_all_packages_from_pulp env version;
  let c := compare_packages self source_repo_name destination_repo_name
             source_repo_packages destination_repo_packages in
  for_each (comparison_log c) log ;;
  if is_nonempty (packages_to_add c) && negb (only_check_noarch self)
  then
    exec env (PulpModifyRepository destination_repo_href
                (packages_to_add c) (packages_to_remove c)) ;;
    exec env (PulpCreateRpmPublication destination_repo_href)
  else mret tt.

(** ** Pairing of repositories:
       [Exporter.prepare_and_execute_async_tasks] *)

(** The arguments of one pending call of
    [copy_noarch_packages_from_x86_64_repo]. *)
Record task : Type := {
  source_repo_name : string;
  source_repo_packages : list package_dict;
  destination_repo_name : string;
  destination_repo_href : string;
}.

(** The inner loop over [destination_repo_dict.items()] *)
Definition tasks_of_source (source_name : string)
    (source_is_debug : bool) (packages : list package_dict)
    (dests : list (string * (string * bool))) : list task :=
  omap (fun d : string * (string * bool) =>
          if negb (Bool.eqb source_is_debug d.2.2) then None
          else Some {| source_repo_name := source_name;
                       source_repo_packages := packages;
                       destination_repo_name := d.1;
                       destination_repo_href := d.2.1 |})
    dests.

(** The outer loop over [source_repo_dict.items()] *)
Fixpoint build_tasks (env : Env) (sources dests : list (string * (string * bool)))
    : M (list task) :=
  match sources with
  | [] => mret []
  | s :: sources' =>
      version ← get_repo_latest_version env s.2.1;
      packages ← retrieve_all_packages_from_pulp env version;
      rest ← build_tasks env sources' dests;
      mret (tasks_of_source s.1 s.2.2 packages dests ++ rest)
  end.

(** One pending call, run by itself. *)
Definition run_task (self : Exporter) (env : Env) (t : task) : M unit :=
  copy_noarch_packages_from_x86_64_repo self env
    (source_repo_name t) (source_repo_packages t)
    (destination_repo_name t) (destination_repo_href t).

(** *** Tasks run together: [asyncio.gather]

    The pending calls are coroutines that the event loop runs
    together: each goes on until its next request to Pulp, and while
    it waits another one may go on.  A coroutine is therefore cut at
    its external calls. *)
Inductive prog : Type :=
| PRet
| PExec (e : event) (k : prog)
| PLog (l : log_entry) (k : prog).

(** A coroutine run by itself. *)
Fixpoint run_prog (env : Env) (p : prog) : M unit :=
  match p with
  | PRet => mret tt
  | PExec e k => exec env e ;; run_prog env k
  | PLog l k => log l ;; run_prog env k
  end.

Fixpoint prog_events (p : prog) : list event :=
  match p with
  | PRet => []
  | PExec e k => e :: prog_events k
  | PLog _ k => prog_events k
  end.

Fixpoint prog_size (p : prog) : nat :=
  match p with
  | PRet => 0
  | PExec _ k | PLog _ k => S (prog_size k)
  end.

Fixpoint next_prog (pages : list (list package_dict)) (k : prog) : prog :=
  match pages with
  | [] => k
  | _ :: pages' => PExec PulpRequestNext (next_prog pages' k)
  end.

Fixpoint log_prog (entries : list log_entry) (k : prog) : prog :=
  match entries with
  | [] => k
  | l :: entries' => PLog l (log_prog entries' k)
  end.

(** [copy_noarch_packages_from_x86_64_repo] cut at its calls: run by
    itself it is that function (lemma [run_copy_prog]). *)
Definition copy_prog (self : Exporter) (env : Env)
    (source_repo_name : string) (source_repo_packages : list package_dict)
    (destination_repo_name destination_repo_href : string) : prog :=
  let version := pulp_latest_version env destination_repo_href in
  let destination_repo_packages :=
    (pulp_packages env version).1 ++ concat (pulp_packages env version).2 in
  let c := compare_packages self source_repo_name destination_repo_name
             source_repo_packages destination_repo_packages in
  PExec (PulpGetRepoLatestVersion destination_repo_href)
    (PExec (PulpRequestPackages version)
       (next_prog (pulp_packages env version).2
          (log_prog (comparison_log c)
             (if is_nonempty (packages_to_add c)
                 && negb (only_check_noarch self)
              then
                PExec (PulpModifyRepository destination_repo_href
                         (packages_to_add c) (packages_to_remove c))
                  (PExec (PulpCreateRpmPublication destination_repo_href)
                     PRet)
              else PRet)))).

Definition task_prog (self : Exporter) (env : Env) (t : task) : prog :=
  copy_prog self env (source_repo_name t) (source_repo_packages t)
    (destination_repo_name t) (destination_repo_href t).

(** The event loop over the coroutines still running.  At each turn
    the one [schedule] designates goes on by one step: a coroutine at
    its end leaves; a call that raises ends its coroutine, and from
    then on [gather] has raised: the others are not cancelled and go
    on until the loop hands over ([stops]), at the latest when all
    have ended.  [fuel] bounds the number of turns; the steps of the
    coroutines plus their number suffice. *)
Fixpoint gather_loop (env : Env) (fuel : nat) (running : list prog)
    (raised : bool) : M unit :=
  match fuel with
  | O => if raised then raise else mret tt
  | S fuel' =>
      fun w =>
        match running with
        | [] => (if raised then Raised else Ok tt, w)
        | _ :: _ =>
            if raised && stops env (trace w) then (Raised, w)
            else
              let i := (schedule env (trace w) mod length running)%nat in
              match running !! i with
              | None => (Raised, w)
              | Some PRet => gather_loop env fuel' (delete i running) raised w
              | Some (PLog l k) =>
                  (log l ;;
                   gather_loop env fuel' (<[i := k]> running) raised) w
              | Some (PExec e k) =>
                  match exec env e w with
                  | (Ok _, w') =>
                      gather_loop env fuel' (<[i := k]> running) raised w'
                  | (Raised, w') =>
                      gather_loop env fuel' (delete i running) true w'
                  end
              end
        end
  end.

Definition gather_fuel (progs : list prog) : nat :=
  fold_right (fun p n => S (prog_size p + n)) 0%nat progs.

(** The [await] on [asyncio.gather] of the pending calls. *)
Definition gather (env : Env) (progs : list prog) : M unit :=
  gather_loop env (gather_fuel progs) progs false.

Definition prepare_and_execute_async_tasks (self : Exporter) (env : Env)
    (source_repo_dict destination_repo_dict : pydict (string * bool))
    : M unit :=
  if negb (copy_noarch_packages self) then log LogSkipCopying
  else
    tasks ← build_tasks env (items source_repo_dict)
               (items destination_repo_dict);
    log LogStartChecking ;;
    gather env (task_prog self env <$> tasks).

Definition get_full_repo_name (repo : Repository) : string :=
  repo_name repo +:+ "-"
  +:+ (if repo_debug repo then "debuginfo-" else "") +:+ repo_arch repo.

(** The two dictionaries of [check_noarch_in_user_distribution_repos]. *)
Definition distribution_dicts (repositories : list Repository)
    : pydict (string * bool) * pydict (string * bool) :=
  fold_left
    (fun (d : pydict (string * bool) * pydict (string * bool))
         (repo : Repository) =>
       if String.eqb (repo_arch repo) "src" then d
       else if String.eqb (repo_arch repo) "x86_64"
       then (<[repo_name repo := (repo_pulp_href repo, repo_debug repo)]> d.1,
             d.2)
       else (d.1,
             <[repo_name repo := (repo_pulp_href repo, repo_debug repo)]> d.2))
    repositories (∅, ∅).

(** [db_distr]: the distribution found in the database, as its
    repositories; [None] when there is none, and
    [db_distr.repositories] raises. *)
Definition check_noarch_in_user_distribution_repos (self : Exporter)
    (env : Env) (db_distr : option (list Repository)) : M unit :=
  match db_distr with
  | None => raise
  | Some repositories =>
      prepare_and_execute_async_tasks self env
        (distribution_dicts repositories).1
        (distribution_dicts repositories).2
  end.

(** ** Export to the filesystem: [Exporter.create_filesystem_exporters]
       and [Exporter.export_repositories] *)

(** [f'{repo.name}-{repo.arch}-debug' if repo.debug
     else f'{repo.name}-{repo.arch}'] *)
Definition exporter_name (repo : Repository) : string :=
  if repo_debug repo
  then repo_name repo +:+ "-" +:+ repo_arch repo +:+ "-debug"
  else repo_name repo +:+ "-" +:+ repo_arch repo.

(** The dictionary built for a repository. *)
Record repo_exporter_dict : Type := {
  exporter_repo_id : Z;
  exporter_repo_latest_version : string;
  exporter_exporter_name : string;
  exporter_export_path : string;
  exporter_href : string;
}.

(** The loop over the repositories found, as [export_repositories]
    calls the function (without publications). *)
Fixpoint create_exporters (env : Env) (repositories : list Repository)
    (export_data : list repo_exporter_dict) : M (list repo_exporter_dict) :=
  match repositories with
  | [] => mret export_data
  | repo :: rest =>
      let export_path := export_path_of env repo in
      exec env (PulpCreateFilesystemExporter (exporter_name repo)
                  export_path) ;;
      repo_latest_version ← get_repo_latest_version env (repo_pulp_href repo);
      create_exporters env rest
        (export_data
         ++ [ {| exporter_repo_id := repo_id repo;
                 exporter_repo_latest_version := repo_latest_version;
                 exporter_exporter_name := exporter_name repo;
                 exporter_export_path := export_path;
                 exporter_href :=
                   pulp_exporter_href env (exporter_name repo) export_path |} ])
  end.

Definition create_filesystem_exporters (env : Env) (repository_ids : list Z)
    : M (list repo_exporter_dict) :=
  create_exporters env (db_repositories env repository_ids) [].

Fixpoint export_exporters (env : Env) (exporters : list repo_exporter_dict)
    (exported_paths : list string) : M (list string) :=
  match exporters with
  | [] => mret exported_paths
  | exporter :: rest =>
      exec env (PulpExportToFilesystem (exporter_href exporter)
                  (exporter_repo_latest_version exporter)) ;;
      export_exporters env rest
        (exported_paths ++ [exporter_export_path exporter])
  end.

(** The message logged before each export is not among the recorded
    ones. *)
Definition export_repositories (env : Env) (repo_ids : list Z)
    : M (list string) :=
  exporters ← create_filesystem_exporters env repo_ids;
  export_exporters env exporters [].

(** The paths [export_repositories] returns when no call raises. *)
Definition exported_paths (env : Env) (repo_ids : list Z) : list string :=
  export_path_of env <$> db_repositories env repo_ids.

(** The calls [export_repositories] makes when none raises: for each
    repository found an exporter is created and the latest version
    asked for, then each is exported. *)
Definition export_calls (env : Env) (repo_ids : list Z) : list event :=
  concat ((fun repo =>
             [PulpCreateFilesystemExporter (exporter_name repo)
                (export_path_of env repo);
              PulpGetRepoLatestVersion (repo_pulp_href repo)])
          <$> db_repositories env repo_ids)
  ++ ((fun repo =>
         PulpExportToFilesystem
           (pulp_exporter_href env (exporter_name repo)
              (export_path_of env repo))
           (pulp_latest_version env (repo_pulp_href repo)))
      <$> db_repositories env repo_ids).

(** ** Export of platforms: [Exporter.export_repos_from_pulp] *)

(** What the loop over [db_platform.repos] accumulates:
    the two dictionaries (shared by all platforms), the export paths of
    the platform ([platforms_dict[db_platform.id]]) and the ids to
    export. *)
Record selection : Type := {
  repos_x86_64 : pydict (string * bool);
  repos_ppc64le : pydict (string * bool);
  platform_paths : list string;
  repo_ids_to_export : list Z;
}.

(** The condition of the [continue] at the head of the loop body. *)
Definition skipped (repo_ids : option (list Z)) (repo : Repository) : bool :=
  match repo_ids with
  | Some ids => negb (bool_decide (repo_id repo ∈ ids))
  | None => false
  end
  || negb (repo_production repo).

Definition select_repo (repo_ids : option (list Z))
    (arches : option (list string)) (s : selection) (repo : Repository)
    : selection :=
  if skipped repo_ids repo then s
  else
    let repo_name := get_full_repo_name repo in
    let entry := (repo_pulp_href repo, repo_debug repo) in
    let exported :=
      match arches with
      | Some a => bool_decide (repo_arch repo ∈ a)
      | None => true
      end in
    {| repos_x86_64 :=
         if String.eqb (repo_arch repo) "x86_64"
         then <[repo_name := entry]> (repos_x86_64 s) else repos_x86_64 s;
       repos_ppc64le :=
         if String.eqb (repo_arch repo) "ppc64le"
         then <[repo_name := entry]> (repos_ppc64le s) else repos_ppc64le s;
       platform_paths :=
         if exported then platform_paths s ++ [repo_export_path repo]
         else platform_paths s;
       repo_ids_to_export :=
         if exported then repo_ids_to_export s ++ [repo_id repo]
         else repo_ids_to_export s |}.

(** The [try ... finally] of the loop over [exported_paths]. *)
Definition harden_exported_path (self : Exporter) (env : Env)
    (sign_keys : list SignKey) (repo_path : string) : M unit :=
  if negb (path_exists env repo_path)
  then log (LogPathDoesNotExist repo_path)
  else
    try_finally
      (exec env (Chown (current_user self) repo_path) ;;
       exec env (FindRmSnippets repo_path) ;;
       check_rpms_signature self env repo_path sign_keys)
      (exec env (Chown (pulp_system_user self) repo_path)).

(** [d[k] = v] on a dictionary kept in insertion order *)
Fixpoint dict_set {V} (k : Z) (v : V) (d : list (Z * V)) : list (Z * V) :=
  match d with
  | [] => [(k, v)]
  | (k', v') :: d' =>
      if (k' =? k)%Z then (k, v) :: d' else (k', v') :: dict_set k v d'
  end.

(** What the loop over [db_platforms] carries from one platform to the
    next. *)
Record export_state : Type := {
  all_x86_64 : pydict (string * bool);
  all_ppc64le : pydict (string * bool);
  final_export_paths : list string;
  platforms_dict : list (Z * list string);
}.

Definition initial_export_state : export_state :=
  {| all_x86_64 := ∅; all_ppc64le := ∅;
     final_export_paths := []; platforms_dict := [] |}.

(** One iteration of the loop over [db_platforms]. *)
Definition export_platform (self : Exporter) (env : Env)
    (repo_ids : option (list Z)) (arches : option (list string))
    (st : export_state) (db_platform : Platform) : M export_state :=
  let s := fold_left (select_repo repo_ids arches)
             (platform_repos db_platform)
             {| repos_x86_64 := all_x86_64 st;
                repos_ppc64le := all_ppc64le st;
                platform_paths := []; repo_ids_to_export := [] |} in
  exported_paths ←
    export_repositories env
      (elements (list_to_set (repo_ids_to_export s) : gset Z));
  for_each exported_paths
    (harden_exported_path self env (platform_sign_keys db_platform)) ;;
  log (LogAllExported exported_paths) ;;
  mret {| all_x86_64 := repos_x86_64 s;
          all_ppc64le := repos_ppc64le s;
          final_export_paths := final_export_paths st ++ exported_paths;
          platforms_dict :=
            dict_set (platform_id db_platform) (platform_paths s)
              (platforms_dict st) |}.

Fixpoint export_platforms (self : Exporter) (env : Env)
    (repo_ids : option (list Z)) (arches : option (list string))
    (db_platforms : list Platform) (st : export_state) : M export_state :=
  match db_platforms with
  | [] => mret st
  | p :: ps =>
      st' ← export_platform self env repo_ids arches st p;
      export_platforms self env repo_ids arches ps st'
  end.

(** [db_platforms]: the platforms the query returned. *)
Definition export_repos_from_pulp (self : Exporter) (env : Env)
    (db_platforms : list Platform) (repo_ids : option (list Z))
    (arches : option (list string))
    : M (list string * list (Z * list string)) :=
  st ← export_platforms self env repo_ids arches db_platforms
         initial_export_state;
  prepare_and_execute_async_tasks self env (all_x86_64 st) (all_ppc64le st) ;;
  mret (final_export_paths st, platforms_dict st).

(** ** The last loop of [main] *)

(** [next((k['keyid'] for k in db_sign_keys
          if k['platform_id'] == platform_id), None)] *)
Definition key_of_platform (db_sign_keys : list SignKey) (platform : Z)
    : option string :=
  keyid <$> List.find (fun k => (sk_platform_id k =? platform)%Z) db_sign_keys.

(** The two nested loops over [platforms_dict] that choose the key. *)
Definition choose_key_id (db_sign_keys : list SignKey)
    (key_id_by_platform : option string)
    (platforms : list (Z * list string)) (string_exp_path : string)
    : option string :=
  fold_left
    (fun (key_id : option string) (p : Z * list string) =>
       if existsb (fun repo_export_path =>
                     PyStr.contains repo_export_path string_exp_path) p.2
       then key_of_platform db_sign_keys p.1
       else key_id)
    platforms
    (match key_id_by_platform with
     | Some k => if String.eqb k "" then None else Some k
     | None => None
     end).

(** The [try ... finally] of the loop over [exported_paths] in [main];
    [regenerate_repo_metadata], [update_ppc64le_errata] and, when there
    is a key, [repomd_signer] are one call each. *)
Definition finalize_exported_path (self : Exporter) (env : Env)
    (db_sign_keys : list SignKey) (key_id_by_platform : option string)
    (platforms : list (Z * list string)) (exp_path : string) : M unit :=
  let repo_path := path_parent env exp_path in
  let repodata := PyStr.path_join repo_path "repodata" in
  if negb (path_exists env repo_path) then mret tt
  else
    try_finally
      (exec env (Chown (current_user self) repo_path) ;;
       exec env (RegenerateRepoMetadata repo_path) ;;
       (if PyStr.contains "ppc64le" exp_path
        then exec env (UpdatePpc64leErrata repodata) else mret tt) ;;
       match choose_key_id db_sign_keys key_id_by_platform platforms
               exp_path with
       | None => log (LogMissingKey repodata)
       | Some key_id => exec env (RepomdSigner repodata key_id)
       end)
      (exec env (Chown (pulp_system_user self) repo_path)).

(** A run of [main] that exports by platform names or repository ids:
    the exporter is built, the platforms are exported, the exported
    paths are finished.  [db_sign_keys] is the answer of
    [get_sign_keys]; the removal of the exporters left in Pulp, which
    comes first, touches nothing that is modelled here. *)
Definition main_export (env : Env) (copy_noarch only_check show_differ : bool)
    (login : string) (subkeys_config : option (gmap string (list string)))
    (db_sign_keys : list SignKey) (db_platforms : list Platform)
    (repo_ids : option (list Z)) (arches : option (list string)) : M unit :=
  exporter ← Exporter_init copy_noarch only_check show_differ login
               subkeys_config;
  res ← export_repos_from_pulp exporter env db_platforms repo_ids arches;
  for_each res.1
    (finalize_exported_path exporter env db_sign_keys None res.2).

(** ** Notions used in the statements *)

(** A string without a space: what the pattern can capture as a key
    id, and so the entries of the wrong-signature set that start with a
    given path and end with such a token are those of that path. *)
Definition no_space (s : string) : Prop :=
  " "%char ∉ list_ascii_of_string s.

(** The characters the named group can hold. *)
Definition key_char (c : ascii) : bool :=
  Re.word_char c || Ascii.eqb c "("%char || Ascii.eqb c ")"%char.

(** Every character class of [r] lies within [P]. *)
Fixpoint chars_in (P : ascii -> Prop) (r : Re.regex) : Prop :=
  match r with
  | Re.Eps => True
  | Re.Chr p => ∀ c, p c = true → P c
  | Re.Seq a b | Re.Alt a b => chars_in P a ∧ chars_in P b
  | Re.Star a | Re.Named a => chars_in P a
  end.

(** No external call fails. *)
Definition never_fails (env : Env) : Prop :=
  ∀ t e, fails env t e = false.

(** All the pages of a package listing, in order. *)
Definition listing (env : Env) (version : string) : list package_dict :=
  (pulp_packages env version).1 ++ concat (pulp_packages env version).2.

(** ** Concrete inputs for the examples *)

(** The repository found for whatever ids are exported in the
    examples. *)
Definition exported_repo : Repository :=
  {| repo_id := 1; repo_name := "BaseOS"; repo_arch := "x86_64";
     repo_debug := false; repo_production := true;
     repo_export_path := "almalinux/8/BaseOS/x86_64/os";
     repo_pulp_href := "/pulp/api/v3/repositories/rpm/rpm/1/" |}.

(** A directory [/r] holding [files], inspected by [inspect]; nothing
    fails, Pulp has no packages, and [/r/Packages] is what gets
    exported. *)
Definition env_of (files : list string)
    (inspect : string -> Z * string * string) : Env :=
  {| listdir := fun _ => files;
     rpm_qip := inspect;
     path_exists := fun _ => true;
     fails := fun _ _ => false;
     pulp_latest_version := fun href => href +:+ "versions/1/";
     pulp_packages := fun _ => ([], []);
     pulp_exporter_href := fun name _ => "/exporters/" +:+ name +:+ "/";
     db_repositories := fun _ => [exported_repo];
     export_path_of := fun _ => "/r/Packages";
     path_parent := fun _ => "/r";
     schedule := fun _ => 0%nat;
     stops := fun _ => false |}.

Definition exporter_of (subkeys : gmap string (list string)) : Exporter :=
  {| copy_noarch_packages := true; only_check_noarch := false;
     show_differ_packages := false; pulp_system_user := "pulp";
     current_user := "operator"; known_subkeys := subkeys |}.

Definition key_11112222 : SignKey :=
  {| keyid := "11112222"; sk_platform_id := 1 |}.

(** [rpm -qip] answers for a package signed with key [abcd1234], for an
    unsigned one, and an answer without a signature line. *)
Definition out_signed : string :=
  "Name        : a" +:+ nl
  +:+ "Signature   : RSA/SHA256, Tue 01 Jun 2021 10:00:00 AM UTC, Key ID abcd1234".

Definition out_unsigned : string :=
  "Name        : c" +:+ nl +:+ "Signature   : (none)".

Definition out_no_line : string :=
  "Name        : d" +:+ nl +:+ "Version     : 1.0".

(** A directory with one package of each kind: the four outcomes. *)
Definition four_files_env : Env :=
  env_of ["a.rpm"; "c.rpm"; "e.rpm"; "ok.rpm"; "notes.txt"]
    (fun p =>
       if String.eqb p "/r/a.rpm" then (0%Z, out_signed, "")
       else if String.eqb p "/r/c.rpm" then (0%Z, out_unsigned, "")
       else if String.eqb p "/r/ok.rpm"
       then (0%Z, "Signature   : RSA/SHA256, Key ID 11112222", "")
       else (1%Z, "", "error: open failed")).

(** One package signed with a subkey of the authorized key. *)
Definition subkey_env : Env :=
  env_of ["a.rpm"] (fun _ => (0%Z, out_signed, "")).

Definition subkey_exporter : Exporter :=
  exporter_of {[ "11112222" := ["abcd1234"] ]}.

(** One package whose inspection succeeds and prints no signature
    line. *)
Definition no_line_env : Env :=
  env_of ["d.rpm"] (fun _ => (0%Z, out_no_line, "")).

(** One unsigned package. *)
Definition unsigned_env (file : string) : Env :=
  env_of [file] (fun _ => (0%Z, out_unsigned, "")).

(** A platform with one production repository and one sign key. *)
Definition one_repo_platform : Platform :=
  {| platform_id := 1;
     platform_repos :=
       [ {| repo_id := 1; repo_name := "BaseOS"; repo_arch := "x86_64";
            repo_debug := false; repo_production := true;
            repo_export_path := "almalinux/8/BaseOS/x86_64/os";
            repo_pulp_href := "/pulp/api/v3/repositories/rpm/rpm/1/" |} ];
     platform_sign_keys := [key_11112222] |}.

(** A run of [main] over that platform, where the exported directory
    holds the one unsigned package [file]. *)
Definition run_with_unsigned (file : string) : M unit :=
  main_export (unsigned_env file) true false false "operator" None
    [key_11112222] [one_repo_platform] None None.

Definition empty_world : world :=
  {| owner := ∅; trace := []; logs := []; export_error_file := None |}.

(** A computation emits the external calls [t], with result [r], such
    that [P t r], from whatever world it starts in. *)
Definition emits {A} (m : M A) (P : list event → result A → Prop) : Prop :=
  ∀ w, ∃ t, trace (m w).2 = trace w ++ t ∧ P t (m w).1.

Definition is_modify (e : event) : bool :=
  match e with
  | PulpModifyRepository _ _ _ => true
  | _ => false
  end.

(** The content modifications among the calls [t]. *)
Definition modifications (t : list event) : list event :=
  List.filter is_modify t.

(** Without failures, a computation returns [a], from whatever world it
    starts in. *)
Definition returns {A} (m : M A) (a : A) : Prop :=
  ∀ w, ∃ w', m w = (Ok a, w').

(** Packages of the scenarios: [A-1.0-1] with checksum [c1] in the
    source, the same package with checksum [c2], a second build of it
    under another epoch, and a modular package. *)
Definition pkg_A_src : package_dict :=
  {| pkg_name := "A"; pkg_version := "1.0"; pkg_release := "1";
     pkg_sha256 := "c1"; pkg_pulp_href := "/content/src-A/" |}.

Definition pkg_A_dst_same : package_dict :=
  {| pkg_name := "A"; pkg_version := "1.0"; pkg_release := "1";
     pkg_sha256 := "c1"; pkg_pulp_href := "/content/dst-A/" |}.

Definition pkg_A_dst_other : package_dict :=
  {| pkg_name := "A"; pkg_version := "1.0"; pkg_release := "1";
     pkg_sha256 := "c2"; pkg_pulp_href := "/content/dst-A2/" |}.

Definition pkg_M_src : package_dict :=
  {| pkg_name := "M"; pkg_version := "2.0";
     pkg_release := "3.module_el8.5.0+12+abcdef";
     pkg_sha256 := "c3"; pkg_pulp_href := "/content/src-M/" |}.

Definition show_differ_exporter : Exporter :=
  {| copy_noarch_packages := true; only_check_noarch := false;
     show_differ_packages := true; pulp_system_user := "pulp";
     current_user := "operator"; known_subkeys := ∅ |}.

(** An environment in which the removal of the stray files fails, and
    one in which the regeneration of the metadata fails. *)
Definition find_fails_env : Env :=
  {| listdir := fun _ => [];
     rpm_qip := fun _ => (0%Z, "", "");
     path_exists := fun _ => true;
     fails := fun _ e =>
       match e with FindRmSnippets _ => true | _ => false end;
     pulp_latest_version := fun href => href;
     pulp_packages := fun _ => ([], []);
     pulp_exporter_href := fun name _ => "/exporters/" +:+ name +:+ "/";
     db_repositories := fun _ => [exported_repo];
     export_path_of := fun _ => "/r/Packages";
     path_parent := fun _ => "/r";
     schedule := fun _ => 0%nat;
     stops := fun _ => false |}.

Definition createrepo_fails_env : Env :=
  {| listdir := fun _ => [];
     rpm_qip := fun _ => (0%Z, "", "");
     path_exists := fun _ => true;
     fails := fun _ e =>
       match e with RegenerateRepoMetadata _ => true | _ => false end;
     pulp_latest_version := fun href => href;
     pulp_packages := fun _ => ([], []);
     pulp_exporter_href := fun name _ => "/exporters/" +:+ name +:+ "/";
     db_repositories := fun _ => [exported_repo];
     export_path_of := fun _ => "/r/Packages";
     path_parent := fun _ => "/r";
     schedule := fun _ => 0%nat;
     stops := fun _ => false |}.

(** A repository that passes the [continue] at the head of the loop
    of [export_repos_from_pulp]. *)
Definition selected (repo_ids : option (list Z)) (repo : Repository) : Prop :=
  skipped repo_ids repo = false.

(** The condition under which the loop enters [r] in the dictionary of
    the architecture [arch]. *)
Definition enters (repo_ids : option (list Z)) (arch : string)
    (r : Repository) : bool :=
  negb (skipped repo_ids r) && String.eqb (repo_arch r) arch.

(** All the repositories of the platforms, in the order of the loops. *)
Definition all_repos (db_platforms : list Platform) : list Repository :=
  concat (platform_repos <$> db_platforms).

(** The two dictionaries [export_repos_from_pulp] ends with. *)
Definition pulp_dicts (repo_ids : option (list Z))
    (arches : option (list string)) (db_platforms : list Platform)
    : pydict (string * bool) * pydict (string * bool) :=
  let s := fold_left (select_repo repo_ids arches) (all_repos db_platforms)
             {| repos_x86_64 := ∅; repos_ppc64le := ∅;
                platform_paths := []; repo_ids_to_export := [] |} in
  (repos_x86_64 s, repos_ppc64le s).

(** The name of [r] stands for [r] alone among the selected
    repositories of its architecture: a dictionary keyed by the names
    keeps the last repository entered under a name. *)
Definition unambiguous (repo_ids : option (list Z))
    (repos : list Repository) (r : Repository) : Prop :=
  ∀ r', r' ∈ repos → selected repo_ids r' → repo_arch r' = repo_arch r →
        get_full_repo_name r' = get_full_repo_name r →
        repo_pulp_href r' = repo_pulp_href r ∧ repo_debug r' = repo_debug r.

(** The tasks [build_tasks] returns when no call fails. *)
Definition tasks_of (env : Env) (sources dests : list (string * (string * bool)))
    : list task :=
  flat_map
    (fun s : string * (string * bool) =>
       tasks_of_source s.1 s.2.2
         (listing env (pulp_latest_version env s.2.1)) dests)
    sources.

(** The task [t] reconciles the source [r] with the destination [d]. *)
Definition pairs (env : Env) (t : task) (r d : Repository) : Prop :=
  source_repo_name t = get_full_repo_name r
  ∧ source_repo_packages t
    = listing env (pulp_latest_version env (repo_pulp_href r))
  ∧ destination_repo_name t = get_full_repo_name d
  ∧ destination_repo_href t = repo_pulp_href d.

(** A platform with an [x86_64], a [ppc64le] and an [aarch64]
    repository, none of them a debug repository. *)
Definition repo_of (n : Z) (arch : string) : Repository :=
  {| repo_id := n; repo_name := "almalinux-8-baseos"; repo_arch := arch;
     repo_debug := false; repo_production := true;
     repo_export_path := "almalinux/8/BaseOS/" +:+ arch +:+ "/os";
     repo_pulp_href := "/pulp/api/v3/repositories/rpm/rpm/" +:+ arch +:+ "/" |}.

Definition three_arch_platform : Platform :=
  {| platform_id := 1;
     platform_repos :=
       [repo_of 1 "x86_64"; repo_of 2 "ppc64le"; repo_of 3 "aarch64"];
     platform_sign_keys := [key_11112222] |}.

Definition quiet_env : Env := env_of [] (fun _ => (0%Z, "", "")).

(** The owner the last [chown] among the calls [t] gave to [path], if
    any. *)
Definition last_owner (path : string) (t : list event) : option string :=
  fold_left
    (fun (o : option string) (e : event) =>
       match e with
       | Chown u p => if String.eqb p path then Some u else o
       | _ => o
       end)
    t None.

(** Every path on which [chown] was called among [t] was last given
    back to the system user of the service. *)
Definition ownership_returned (self : Exporter) (t : list event) : Prop :=
  ∀ path, last_owner path t = None
          ∨ last_owner path t = Some (pulp_system_user self).

(** * Further definitions *)

(** The scenario of an authorized key printed in upper case. *)
Definition upper_key_env : Env :=
  env_of ["p.rpm"]
    (fun _ => (0%Z, "Signature   : RSA/SHA256, Key ID ABCDEF12", "")).

Definition key_ABCDEF12 : SignKey :=
  {| keyid := "ABCDEF12"; sk_platform_id := 1 |}.

(** Greedy repetition of one character class, by recursion on the
    input: what [Re.rmatch (Re.Star (Re.Chr p))] computes. *)
Fixpoint star_chr {R} (p : ascii -> bool) (s : list ascii)
    (g : option (list ascii))
    (k : list ascii -> option (list ascii) -> option R) : option R :=
  match s with
  | [] => k [] g
  | c :: s' =>
      if p c
      then match star_chr p s' g k with
           | Some x => Some x
           | None => k s g
           end
      else k s g
  end.

(** Every character of [s] satisfies [p]. *)
Definition all_chars (p : ascii -> bool) (s : string) : Prop :=
  Forall (fun c => p c = true) (list_ascii_of_string s).

(** The comparison of [p] with the destination asks for nothing: [p]
    has a match with its checksum, or has no match and is modular or
    the exporter only shows differing packages. *)
Definition settled (self : Exporter) (dst : list package_dict)
    (p : package_dict) : bool :=
  match compared_pkg dst p with
  | Some q => String.eqb (pkg_sha256 p) (pkg_sha256 q)
  | None => is_modular p || show_differ_packages self
  end.

(** A Pulp whose listing of version [v1] comes in three pages. *)
Definition paged_env : Env :=
  {| listdir := fun _ => [];
     rpm_qip := fun _ => (0%Z, "", "");
     path_exists := fun _ => true;
     fails := fun _ _ => false;
     pulp_latest_version := fun _ => "v1";
     pulp_packages := fun _ =>
       ([pkg_A_dst_same], [[pkg_A_dst_other]; [pkg_M_src]]);
     pulp_exporter_href := fun name _ => "/exporters/" +:+ name +:+ "/";
     db_repositories := fun _ => [];
     export_path_of := fun _ => "/r/Packages";
     path_parent := fun p => p;
     schedule := fun _ => 0%nat;
     stops := fun _ => false |}.

(** The condition under which the loop of [export_repos_from_pulp]
    exports [r]: not skipped, and of one of the architectures asked
    for, if any. *)
Definition exported (repo_ids : option (list Z))
    (arches : option (list string)) (r : Repository) : bool :=
  negb (skipped repo_ids r)
  && match arches with
     | Some a => bool_decide (repo_arch r ∈ a)
     | None => true
     end.

(** What [export_repositories] is asked and answers for a platform. *)
Definition platform_exported_paths (env : Env) (repo_ids : option (list Z))
    (arches : option (list string)) (pl : Platform) : list string :=
  exported_paths env
    (elements (list_to_set
                 (repo_id <$> List.filter (exported repo_ids arches)
                                (platform_repos pl)) : gset Z)).

(** The entry of a platform in [platforms_dict]. *)
Definition platform_entry (repo_ids : option (list Z))
    (arches : option (list string)) (pl : Platform) : Z * list string :=
  (platform_id pl,
   repo_export_path <$> List.filter (exported repo_ids arches)
                          (platform_repos pl)).

(** Two platforms with sign keys, and a platform without one. *)
Definition key_of (k : string) (n : Z) : SignKey :=
  {| keyid := k; sk_platform_id := n |}.

Definition two_platform_dict : list (Z * list string) :=
  [(1%Z, ["almalinux/8/BaseOS"]); (2%Z, ["almalinux/8"]); (3%Z, ["vault/9"])].

(** An export path of the platform entry [p] occurs in [exp_path]. *)
Definition platform_matches (exp_path : string) (p : Z * list string) : bool :=
  existsb (fun repo_export_path => PyStr.contains repo_export_path exp_path)
    p.2.

(** The state an iteration of the loop over the platforms ends with,
    when nothing raises. *)
Definition export_state_after (env : Env) (repo_ids : option (list Z))
    (arches : option (list string)) (st : export_state)
    (db_platform : Platform) : export_state :=
  let s := fold_left (select_repo repo_ids arches)
             (platform_repos db_platform)
             {| repos_x86_64 := all_x86_64 st;
                repos_ppc64le := all_ppc64le st;
                platform_paths := []; repo_ids_to_export := [] |} in
  {| all_x86_64 := repos_x86_64 s;
     all_ppc64le := repos_ppc64le s;
     final_export_paths :=
       final_export_paths st
       ++ exported_paths env
            (elements (list_to_set (repo_ids_to_export s) : gset Z));
     platforms_dict :=
       dict_set (platform_id db_platform) (platform_paths s)
         (platforms_dict st) |}.

(** Two platforms, the second with a repository out of production. *)
Definition second_platform : Platform :=
  {| platform_id := 2;
     platform_repos :=
       [ {| repo_id := 7; repo_name := "almalinux-9-appstream";
            repo_arch := "x86_64"; repo_debug := false;
            repo_production := false;
            repo_export_path := "almalinux/9/AppStream/x86_64/os";
            repo_pulp_href := "/pulp/api/v3/repositories/rpm/rpm/7/" |} ];
     platform_sign_keys := [] |}.

(** No [chown] among the calls [t]. *)
Definition no_chown (t : list event) : Prop :=
  Forall (fun e => match e with Chown _ _ => False | _ => True end) t.

(** The repositories of a distribution: one per architecture, under
    distinct names, and a source repository. *)
Definition distr_repo (name arch : string) (n : Z) : Repository :=
  {| repo_id := n; repo_name := name; repo_arch := arch;
     repo_debug := false; repo_production := true;
     repo_export_path := "distr/" +:+ name;
     repo_pulp_href := "/pulp/api/v3/repositories/rpm/rpm/" +:+ name +:+ "/" |}.

Definition distr_repositories : list Repository :=
  [distr_repo "d-x86_64" "x86_64" 1; distr_repo "d-aarch64" "aarch64" 2;
   distr_repo "d-src" "src" 3].

(** ** Export of a release: [Exporter.export_repos_from_release] *)

(** The repositories the second query returns: those of the plan that
    are in production. *)
Definition release_db_repos (repo_ids : list Z)
    (repositories : list Repository) : list Repository :=
  List.filter (fun r => bool_decide (repo_id r ∈ repo_ids)
                        && repo_production r)
    repositories.

(** The two dictionaries filled by the loop over them. *)
Definition release_dicts (db_repos : list Repository)
    : pydict (string * bool) * pydict (string * bool) :=
  fold_left
    (fun (d : pydict (string * bool) * pydict (string * bool))
         (db_repo : Repository) =>
       let repo_name := get_full_repo_name db_repo in
       let entry := (repo_pulp_href db_repo, repo_debug db_repo) in
       (if String.eqb (repo_arch db_repo) "x86_64"
        then <[repo_name := entry]> d.1 else d.1,
        if String.eqb (repo_arch db_repo) "ppc64le"
        then <[repo_name := entry]> d.2 else d.2))
    db_repos (∅, ∅).

(** [db_release]: the release found in the database, if any, as the
    repository ids its plan names (what [jmespath.search] returns) and
    its platform id; [repositories]: the table the second query
    selects from.  The opening information message is not among the
    recorded ones. *)
Definition export_repos_from_release (self : Exporter) (env : Env)
    (db_release : option (list Z * Z)) (repositories : list Repository)
    : M (list string * Z) :=
  match db_release with
  | None => raise
  | Some (plan_ids, release_platform_id) =>
      let repo_ids := elements (list_to_set plan_ids : gset Z) in
      let db_repos := release_db_repos repo_ids repositories in
      prepare_and_execute_async_tasks self env
        (release_dicts db_repos).1 (release_dicts db_repos).2 ;;
      exported_paths ← export_repositories env repo_ids;
      mret (exported_paths, release_platform_id)
  end.

(** A computation leaves the error file as it is. *)
Definition keeps_error_file {A} (m : M A) : Prop :=
  ∀ w, export_error_file (m w).2 = export_error_file w.

(** A call that is a request to Pulp and, when it changes a
    repository (a modification or a publication), changes one whose
    href satisfies [W]. *)
Definition touches_only (W : string → Prop) (e : event) : Prop :=
  match e with
  | PulpGetRepoLatestVersion _ | PulpRequestPackages _ | PulpRequestNext
  | PulpCreateFilesystemExporter _ _ | PulpExportToFilesystem _ _ => True
  | PulpModifyRepository href _ _ | PulpCreateRpmPublication href => W href
  | _ => False
  end.

(** An environment that tells the exported ids apart. *)
Definition id_env : Env :=
  {| listdir := fun _ => [];
     rpm_qip := fun _ => (0%Z, "", "");
     path_exists := fun _ => true;
     fails := fun _ _ => false;
     pulp_latest_version := fun href => href;
     pulp_packages := fun _ => ([], []);
     pulp_exporter_href := fun name _ => "/exporters/" +:+ name +:+ "/";
     db_repositories := fun ids =>
       List.filter (fun r => bool_decide (repo_id r ∈ ids))
         (platform_repos three_arch_platform
          ++ platform_repos second_platform);
     export_path_of := fun r =>
       "/exports/" +:+ repo_export_path r +:+ "/Packages";
     path_parent := fun p => p;
     schedule := fun _ => 0%nat;
     stops := fun _ => false |}.

(** A run of [main] that exports a release: the exporter is built, the
    release is exported, the key of its platform is looked up among
    [db_sign_keys] and the exported paths are finished, with
    [platforms_dict] left empty.  As in [main_export], the removal of
    the exporters left in Pulp touches nothing that is modelled
    here. *)
Definition main_release (env : Env) (copy_noarch only_check show_differ : bool)
    (login : string) (subkeys_config : option (gmap string (list string)))
    (db_sign_keys : list SignKey) (db_release : option (list Z * Z))
    (repositories : list Repository) : M unit :=
  exporter ← Exporter_init copy_noarch only_check show_differ login
               subkeys_config;
  res ← export_repos_from_release exporter env db_release repositories;
  let key_id_by_platform := key_of_platform db_sign_keys res.2 in
  for_each res.1
    (finalize_exported_path exporter env db_sign_keys key_id_by_platform []).

(** A call that is no part of a verification of signatures and, when
    it asks for a signature of [repomd.xml], asks for one by [key]. *)
Definition release_call (key : option string) (e : event) : Prop :=
  match e with
  | RepomdSigner _ k => key = Some k ∧ k ≠ ""
  | OsListdir _ | FindRmSnippets _ => False
  | _ => True
  end.

(** A call that, when it changes a repository (a modification or a
    publication), changes one whose href satisfies [W]. *)
Definition changes_only (W : string → Prop) (e : event) : Prop :=
  match e with
  | PulpModifyRepository href _ _ | PulpCreateRpmPublication href => W href
  | _ => True
  end.

(** ** Signing of [repomd.xml]: [Exporter.repomd_signer] *)

Module Signer.

(** A Python [str]: its code points.  The content of a file: bytes. *)
Definition text : Type := list N.

(** The JSON object the sign service answers with, as far as the
    function reads it: [result.get('asc_content')], [None] when the
    key is absent or its value is [null], a string otherwise, as the
    service gives it; and [result['error']], [None] when the key is
    absent, otherwise the text it is logged as. *)
Record answer : Type := {
  asc_content : option text;
  error : option string;
}.

Inductive message : Type :=
| MissingKey (repodata_path : string)
| FailedToSign (repodata_path error : string)
| Signed (repodata_path : string).

(** Files opened in text mode, in the preferred encoding of the
    process: the text the bytes of a file decode to, [None] when the
    decoding raises; the bytes that writing a text character by
    character leaves in the file, and whether that writing raises (a
    character that cannot be encoded). *)
Record TextIO : Type := {
  decode : string → option text;
  written_bytes : text → string;
  raises_on_write : text → bool;
}.

(** The translation of line ends on reading ([newline=None]): [CR LF]
    and [CR] alone become [LF]. *)
Fixpoint universal_newlines (s : text) : text :=
  match s with
  | [] => []
  | c :: s' =>
      if (c =? 13)%N
      then match s' with
           | c' :: s'' =>
               if (c' =? 10)%N then 10%N :: universal_newlines s''
               else 10%N :: universal_newlines s'
           | [] => [10%N]
           end
      else c :: universal_newlines s'
  end.

(** The files by path, the calls of the sign service made (content
    and key id) and the messages logged. *)
Record state : Type := {
  files : gmap string string;
  requests : list (text * string);
  messages : list message;
}.

Definition say (m : message) (s : state) : state :=
  {| files := files s; requests := requests s;
     messages := messages s ++ [m] |}.

Definition sent (content : text) (key_id : string) (s : state) : state :=
  {| files := files s; requests := requests s ++ [(content, key_id)];
     messages := messages s |}.

Definition written (path content : string) (s : state) : state :=
  {| files := <[path := content]> (files s); requests := requests s;
     messages := messages s |}.

(** [sign_repomd_xml]: the answer of the service to a content and a
    key id, [None] when the request raises ([raise_for_status], an
    answer that is no JSON object).  Opening a file that exists, for
    reading or for writing, is taken to succeed; opening for writing
    empties the file. *)
Definition repomd_signer (io : TextIO)
    (sign_repomd_xml : text → string → option answer)
    (repodata_path : string) (key_id : option string) (s : state)
    : result unit * state :=
  match key_id with
  | None => (Ok tt, say (MissingKey repodata_path) s)
  | Some key_id =>
      match files s !! PyStr.path_join repodata_path "repomd.xml" with
      | None => (Raised, s)
      | Some stored =>
          match decode io stored with
          | None => (Raised, s)
          | Some decoded =>
              let file_content := universal_newlines decoded in
              let s := sent file_content key_id s in
              match sign_repomd_xml file_content key_id with
              | None => (Raised, s)
              | Some result =>
                  match asc_content result with
                  | None =>
                      match error result with
                      | None => (Raised, s)
                      | Some e =>
                          (Ok tt, say (FailedToSign repodata_path e) s)
                      end
                  | Some result_data =>
                      let s :=
                        written
                          (PyStr.path_join repodata_path "repomd.xml.asc")
                          (written_bytes io result_data) s in
                      if raises_on_write io result_data then (Raised, s)
                      else (Ok tt, say (Signed repodata_path) s)
                  end
              end
          end
      end
  end.

(** The characters of a text before the first one that is no ASCII. *)
Fixpoint ascii_prefix (t : text) : text :=
  match t with
  | [] => []
  | n :: t' => if (n <? 128)%N then n :: ascii_prefix t' else []
  end.

(** Bytes below 128 read and written as they are; other bytes do not
    decode, other characters are not written. *)
Definition ascii_io : TextIO :=
  {| decode := fun stored =>
       let codes := (fun c => N.of_nat (nat_of_ascii c))
                    <$> list_ascii_of_string stored in
       if forallb (fun n => (n <? 128)%N) codes then Some codes else None;
     written_bytes := fun t =>
       string_of_list_ascii
         ((fun n => ascii_of_nat (N.to_nat n))
          <$> ascii_prefix t);
     raises_on_write := fun t => negb (forallb (fun n => (n <? 128)%N) t) |}.

(** A service that signs with the key [ABCDEF12] only; the signature
    is the text [ok]. *)
Definition one_key_service (content : text) (key_id : string)
    : option answer :=
  if String.eqb key_id "ABCDEF12"
  then Some {| asc_content := Some [111; 107]%N; error := None |}
  else Some {| asc_content := None; error := Some "unknown key" |}.

(** A repository whose metadata was signed before it was regenerated. *)
Definition stale_state : state :=
  {| files := {[ "/r/repodata/repomd.xml" := "new";
                 "/r/repodata/repomd.xml.asc" := "signed:old" ]};
     requests := []; messages := [] |}.

End Signer.

(** ** Exporters in Pulp: [Exporter.create_filesystem_exporters],
       [Exporter.export_repositories],
       [Exporter.delete_existing_exporters_from_pulp] *)

Module Provision.

(** The requests of the Pulp client these functions make. *)
Inductive call : Type :=
| ListFilesystemExporters
| DeleteFilesystemExporter (exporter_href : string)
| CreateFilesystemExporter (exporter_name export_path : string)
| GetRepoLatestVersion (repo_href : string)
| ExportToFilesystem (exporter_href repository_version : string).

Inductive message : Type :=
| Exporting (export_path : string)
| Deleted (names : list string).

(** What Pulp answers, and which requests raise after which. *)
Record Pulp : Type := {
  existing_exporters : list (string * string);
  created_href : string → string → string;
  latest_version : string → string;
  fails : list call → call → bool;
}.

Record state : Type := {
  calls : list call;
  messages : list message;
}.

Definition P (A : Type) : Type := state → result A * state.

Definition P_ret {A} (a : A) : P A := fun s => (Ok a, s).

Definition P_bind {A B} (f : A → P B) (m : P A) : P B :=
  fun s =>
    match m s with
    | (Ok a, s') => f a s'
    | (Raised, s') => (Raised, s')
    end.

#[global] Instance P_mret : MRet P := @P_ret.
#[global] Instance P_mbind : MBind P := @P_bind.

Definition request (pulp : Pulp) (c : call) : P unit :=
  fun s =>
    (if fails pulp (calls s) c then Raised else Ok tt,
     {| calls := calls s ++ [c]; messages := messages s |}).

Definition info (m : message) : P unit :=
  fun s => (Ok tt, {| calls := calls s; messages := messages s ++ [m] |}).

(** The dictionary built for a repository. *)
Record exporter_dict : Type := {
  ed_repo_id : Z;
  ed_repo_latest_version : string;
  ed_exporter_name : string;
  ed_export_path : string;
  ed_exporter_href : string;
}.

Definition exporter_name (repo : Repository) : string :=
  if repo_debug repo
  then repo_name repo +:+ "-" +:+ repo_arch repo +:+ "-debug"
  else repo_name repo +:+ "-" +:+ repo_arch repo.

Section Exporters.

(** [str(Path(settings.pulp_export_path, repo.export_path, 'Packages'))] *)
Variable export_path_of : Repository → string.
Variable pulp : Pulp.

Definition exporter_of_repo (repo : Repository) : exporter_dict :=
  {| ed_repo_id := repo_id repo;
     ed_repo_latest_version := latest_version pulp (repo_pulp_href repo);
     ed_exporter_name := exporter_name repo;
     ed_export_path := export_path_of repo;
     ed_exporter_href :=
       created_href pulp (exporter_name repo) (export_path_of repo) |}.

(** The loop over [repositories], as [export_repositories] calls the
    function (without publications). *)
Fixpoint create_loop (repositories : list Repository)
    (export_data : list exporter_dict) : P (list exporter_dict) :=
  match repositories with
  | [] => mret export_data
  | repo :: rest =>
      request pulp
        (CreateFilesystemExporter (exporter_name repo)
           (export_path_of repo)) ;;
      request pulp (GetRepoLatestVersion (repo_pulp_href repo)) ;;
      create_loop rest (export_data ++ [exporter_of_repo repo])
  end.

(** [table]: the repositories in the database, in the order the query
    lists them. *)
Definition create_filesystem_exporters (table : list Repository)
    (repository_ids : list Z) : P (list exporter_dict) :=
  create_loop
    (List.filter (fun r => bool_decide (repo_id r ∈ repository_ids)) table)
    [].

Fixpoint export_loop (exporters : list exporter_dict)
    (exported_paths : list string) : P (list string) :=
  match exporters with
  | [] => mret exported_paths
  | exporter :: rest =>
      info (Exporting (ed_export_path exporter)) ;;
      request pulp
        (ExportToFilesystem (ed_exporter_href exporter)
           (ed_repo_latest_version exporter)) ;;
      export_loop rest (exported_paths ++ [ed_export_path exporter])
  end.

Definition export_repositories (table : list Repository)
    (repo_ids : list Z) : P (list string) :=
  exporters ← create_filesystem_exporters table repo_ids;
  export_loop exporters [].

Fixpoint delete_loop (existing : list (string * string))
    (deleted_exporters : list string) : P (list string) :=
  match existing with
  | [] => mret deleted_exporters
  | exporter :: rest =>
      request pulp (DeleteFilesystemExporter exporter.1) ;;
      delete_loop rest (deleted_exporters ++ [exporter.2])
  end.

Definition delete_existing_exporters_from_pulp : P unit :=
  request pulp ListFilesystemExporters ;;
  deleted_exporters ← delete_loop (existing_exporters pulp) [];
  match deleted_exporters with
  | [] => mret tt
  | _ :: _ => info (Deleted deleted_exporters)
  end.

(** The requests of a provisioning and of an export that nothing
    interrupts. *)
Definition provision_calls (repositories : list Repository) : list call :=
  flat_map
    (fun repo =>
       [CreateFilesystemExporter (exporter_name repo) (export_path_of repo);
        GetRepoLatestVersion (repo_pulp_href repo)])
    repositories.

Definition export_calls (repositories : list Repository) : list call :=
  (fun repo =>
     ExportToFilesystem
       (created_href pulp (exporter_name repo) (export_path_of repo))
       (latest_version pulp (repo_pulp_href repo)))
  <$> repositories.

End Exporters.

(** No request raises. *)
Definition reliable (pulp : Pulp) : Prop :=
  ∀ t c, fails pulp t c = false.

(** What a loop of requests that logs nothing leaves: the requests
    made are the first ones of [whole], all of them when the loop ends,
    with the result [a]. *)
Definition runs_through (pulp : Pulp) {A} (m : P A) (whole : list call)
    (a : A) : Prop :=
  ∀ s, messages (m s).2 = messages s
       ∧ ∃ t, calls (m s).2 = calls s ++ t
              ∧ t `prefix_of` whole
              ∧ (∀ r, (m s).1 = Ok r → t = whole ∧ r = a)
              ∧ (reliable pulp → (m s).1 = Ok a).

Definition start : state := {| calls := []; messages := [] |}.

(** A Pulp that answers every request, with two exporters left from an
    earlier run. *)
Definition quiet_pulp : Pulp :=
  {| existing_exporters := [("/exporters/1/", "old-x86_64");
                            ("/exporters/2/", "old-ppc64le")];
     created_href := fun name _ => "/exporters/" +:+ name +:+ "/";
     latest_version := fun href => href +:+ "versions/1/";
     fails := fun _ _ => false |}.

End Provision.

(** ** The steps on an exported path *)

(** The calls of the body of the [try] in the loop of
    [export_repos_from_pulp], when none raises. *)
Definition harden_steps (self : Exporter) (repo_path : string) : list event :=
  [Chown (current_user self) repo_path; FindRmSnippets repo_path;
   OsListdir repo_path].

(** The same for the loop of [main]. *)
Definition finalize_steps (self : Exporter) (env : Env)
    (db_sign_keys : list SignKey) (key_id_by_platform : option string)
    (platforms : list (Z * list string)) (exp_path : string) : list event :=
  let repo_path := path_parent env exp_path in
  let repodata := PyStr.path_join repo_path "repodata" in
  [Chown (current_user self) repo_path; RegenerateRepoMetadata repo_path]
  ++ (if PyStr.contains "ppc64le" exp_path
      then [UpdatePpc64leErrata repodata] else [])
  ++ match choose_key_id db_sign_keys key_id_by_platform platforms
             exp_path with
     | Some key_id => [RepomdSigner repodata key_id]
     | None => []
     end.

(** The calls made of [steps], after the calls [t]: those up to and
    including the first that raises, if any; and whether one raised. *)
Fixpoint attempted (env : Env) (t : list event) (steps : list event)
    : list event * bool :=
  match steps with
  | [] => ([], false)
  | e :: steps' =>
      if fails env t e then ([e], true)
      else (e :: (attempted env (t ++ [e]) steps').1,
            (attempted env (t ++ [e]) steps').2)
  end.

(** From the world [w], the computation [m] makes the calls of [steps]
    up to the first that raises and then the call [last], and returns
    exactly when none of these calls raises. *)
Definition interrupted (env : Env) (steps : list event) (last : event)
    (m : M unit) (w : world) : Prop :=
  let made := (attempted env (trace w) steps).1 in
  let raised := (attempted env (trace w) steps).2 in
  trace (m w).2 = trace w ++ made ++ [last]
  ∧ ((m w).1 = Ok tt
     ↔ raised = false ∧ fails env (trace w ++ made) last = false).

(** An environment where the errata of [ppc64le] cannot be updated. *)
Definition errata_fails_env : Env :=
  {| listdir := fun _ => [];
     rpm_qip := fun _ => (0%Z, "", "");
     path_exists := fun _ => true;
     fails := fun _ e =>
       match e with UpdatePpc64leErrata _ => true | _ => false end;
     pulp_latest_version := fun href => href;
     pulp_packages := fun _ => ([], []);
     pulp_exporter_href := fun name _ => "/exporters/" +:+ name +:+ "/";
     db_repositories := fun _ => [exported_repo];
     export_path_of := fun _ => "/r/ppc64le/Packages";
     path_parent := fun _ => "/r/ppc64le";
     schedule := fun _ => 0%nat;
     stops := fun _ => false |}.

(** ** The text of the error file *)

(** A report that makes [check_rpms_signature] write to the file. *)
Definition has_findings (r : report) : Prop :=
  errored_packages r ≠ ∅ ∨ no_signature_packages r ≠ ∅
  ∨ wrong_signature_packages r ≠ ∅.

Definition headings : list string :=
  ["Packages that we cannot get information about:";
   "Packages without signature:"; "Packages with wrong signature:"].

(** The lines of two texts written one after the other: the last line
    of the first and the first line of the second make one line. *)
Definition glued (lines1 lines2 : list string) : list string :=
  List.removelast lines1
  ++ [List.last lines1 "" +:+ List.hd "" lines2] ++ List.tl lines2.

(** ** The calls of the reconciliation *)

(** The calls a computation makes when it is run by itself. *)
Definition calls_alone (m : M unit) : list event := trace (m empty_world).2.

(** A Pulp where the [x86_64] repository of [three_arch_platform]
    holds a noarch package that the other two lack; the query finds
    the repositories of the platform by their ids. *)
Definition three_arch_env : Env :=
  {| listdir := fun _ => [];
     rpm_qip := fun _ => (0%Z, "", "");
     path_exists := fun _ => true;
     fails := fun _ _ => false;
     pulp_latest_version := fun href => href +:+ "versions/1/";
     pulp_packages := fun version =>
       if String.eqb version
            (repo_pulp_href (repo_of 1 "x86_64") +:+ "versions/1/")
       then ([pkg_A_src], []) else ([], []);
     pulp_exporter_href := fun name _ => "/exporters/" +:+ name +:+ "/";
     db_repositories := fun ids =>
       List.filter (fun r => bool_decide (repo_id r ∈ ids))
         (platform_repos three_arch_platform);
     export_path_of := fun r =>
       "/exports/" +:+ repo_export_path r +:+ "/Packages";
     path_parent := fun p => p;
     schedule := fun _ => 0%nat;
     stops := fun _ => false |}.

(** * Properties *)

(** Closed decidable facts, by evaluation. *)
Ltac by_compute := apply (bool_decide_unpack _); vm_compute; exact I.

(** ** Strings *)

(** Sample lines, with the answers of Python's [re] on them. *)
Example signature_regex_samples :
  Re.search signature_regex "Signature   : (none)" = Some (Some "(none)")
  /\ Re.search signature_regex
       "Signature   : RSA/SHA256, Tue 01 Jun 2021 10:00:00 AM UTC, Key ID 15af5dac6d745a60"
     = Some (Some "15af5dac6d745a60")
  /\ Re.search signature_regex
       "Signature   : RSA/SHA256, Key ID 15af5dac6d745a60 (Key ID foo)"
     = Some (Some "foo)")
  /\ Re.search signature_regex "Signature" = None
  /\ Re.search signature_regex "Signature: DSA" = Some (Some "DSA")
  /\ Re.search signature_regex "Signaturex signature :: KEY id (ABC)z"
     = Some (Some "(ABC)")
  /\ Re.search signature_regex "Signature : Key ID (" = Some (Some "Key")
  /\ Re.search signature_regex "Signature :: ((a)" = None
  /\ Re.search signature_regex "Signature  key id Key ID Key ID )"
     = Some (Some "Key").
Proof. repeat split; vm_compute; reflexivity. Qed.

Example pystr_samples :
  PyStr.strip "  a b  " = "a b"
  /\ PyStr.split "010"%char ("a" +:+ nl +:+ nl +:+ "b") = ["a"; ""; "b"]
  /\ PyStr.split "010"%char "" = [""]
  /\ PyStr.endswith "/r/a.rpm" ".rpm" = true
  /\ PyStr.endswith "rpm" ".rpm" = false
  /\ PyStr.contains "none" "(none)" = true
  /\ PyStr.contains ".module_el" "1.el8" = false
  /\ PyStr.path_join "/r" "a.rpm" = "/r/a.rpm"
  /\ PyStr.path_join "/r/" "a.rpm" = "/r/a.rpm"
  /\ PyStr.lower "AbC1_z" = "abc1_z".
Proof. repeat split; vm_compute; reflexivity. Qed.

Lemma list_ascii_app (a b : string) :
  list_ascii_of_string (a +:+ b)
  = list_ascii_of_string a ++ list_ascii_of_string b.
Proof. induction a as [|c a IH]; simpl; [done | by rewrite IH]. Qed.

Lemma split_at_last (sp : ascii) (l l' k k' : list ascii) :
  sp ∉ k → sp ∉ k' → l ++ sp :: k = l' ++ sp :: k' → l = l' ∧ k = k'.
Proof.
  revert l'. induction l as [|c l IH]; intros l' Hk Hk' E;
    destruct l' as [|c' l']; simpl in E.
  - by inversion E.
  - inversion E; subst. exfalso. apply Hk.
    apply elem_of_app. right. apply list_elem_of_here.
  - inversion E; subst. exfalso. apply Hk'.
    apply elem_of_app. right. apply list_elem_of_here.
  - inversion E; subst. destruct (IH l' Hk Hk' H1) as [E1 E2]. by subst.
Qed.

Lemma list_ascii_inj (a b : string) :
  list_ascii_of_string a = list_ascii_of_string b → a = b.
Proof.
  intros E. rewrite <- (string_of_list_ascii_of_string a).
  rewrite <- (string_of_list_ascii_of_string b). by rewrite E.
Qed.

(** An entry of the wrong-signature set determines its path and key id
    when the key id has no space. *)
Lemma wrong_entry_inj (p p' k k' : string) :
  no_space k → no_space k' →
  wrong_entry p k = wrong_entry p' k' → p = p' ∧ k = k'.
Proof.
  unfold no_space, wrong_entry. intros Hk Hk' E.
  apply (f_equal list_ascii_of_string) in E.
  rewrite !list_ascii_app in E. simpl in E.
  destruct (split_at_last _ _ _ _ _ Hk Hk' E) as [E1 E2].
  split; by apply list_ascii_inj.
Qed.

Lemma lower_char_not_space (c : ascii) :
  key_char c = true → PyStr.lower_char c ≠ " "%char.
Proof.
  destruct c as [[] [] [] [] [] [] [] []]; vm_compute; congruence.
Qed.

Lemma list_ascii_lower (s : string) :
  list_ascii_of_string (PyStr.lower s)
  = PyStr.lower_char <$> list_ascii_of_string s.
Proof. induction s as [|c s IH]; simpl; [done | by rewrite IH]. Qed.

Lemma lower_no_space (w : list ascii) :
  Forall (fun c => key_char c = true) w →
  no_space (PyStr.lower (string_of_list_ascii w)).
Proof.
  intros H. unfold no_space.
  rewrite list_ascii_lower, list_ascii_of_string_of_list_ascii.
  induction H as [|c w Hc Hw IH]; simpl.
  - set_solver.
  - intros Hin. apply elem_of_cons in Hin as [E | Hin]; [|done].
    by apply (lower_char_not_space c).
Qed.

(** ** The matcher *)

(** A successful match consumes a prefix made of characters of the
    classes of the pattern, and hands the rest to the continuation. *)
Lemma rmatch_sound {R} (P : ascii -> Prop) (r : Re.regex) :
  chars_in P r →
  ∀ (s : list ascii) g (k : list ascii → option (list ascii) → option R) x,
    Re.rmatch r s g k = Some x →
    ∃ w s' g', s = w ++ s' ∧ Forall P w ∧ k s' g' = Some x.
Proof.
  induction r as [|p|a IHa b IHb|a IHa b IHb|a IHa|a IHa];
    simpl; intros HP s g k x H.
  - exists [], s, g. by repeat split.
  - destruct s as [|c s']; [done|].
    destruct (p c) eqn:E; [|done].
    exists [c], s', g. repeat split; [|done]. constructor; auto.
  - destruct HP as [Ha Hb].
    destruct (IHa Ha _ _ _ _ H) as (w1 & s1 & g1 & -> & F1 & H1).
    destruct (IHb Hb _ _ _ _ H1) as (w2 & s2 & g2 & -> & F2 & H2).
    exists (w1 ++ w2), s2, g2. repeat split; [by rewrite <- app_assoc | | done].
    by apply Forall_app.
  - destruct HP as [Ha Hb].
    destruct (Re.rmatch a s g k) eqn:E.
    + inversion H; subst. by apply (IHa Ha _ _ _ _ E).
    + by apply (IHb Hb _ _ _ _ H).
  - revert H. generalize (length s) at 1. intros n. revert s g.
    induction n as [|n IHn]; intros s g H.
    + exists [], s, g. by repeat split.
    + match type of H with
      | match ?m with _ => _ end = _ => destruct m eqn:E
      end.
      * inversion H; subst.
        destruct (IHa HP _ _ _ _ E) as (w1 & s1 & g1 & -> & F1 & H1).
        destruct (_ <? _)%nat; [|done].
        destruct (IHn _ _ H1) as (w2 & s2 & g2 & -> & F2 & H2).
        exists (w1 ++ w2), s2, g2.
        repeat split; [by rewrite <- app_assoc | | done].
        by apply Forall_app.
      * exists [], s, g. by repeat split.
  - destruct (IHa HP _ _ _ _ H) as (w & s' & g' & -> & F & H').
    exists w, s', (Some (take (length (w ++ s') - length s') (w ++ s'))).
    by repeat split.
Qed.

Lemma chars_in_any (r : Re.regex) : chars_in (fun _ => True) r.
Proof. induction r; simpl; auto. Qed.

(** What the named group holds after a match of a pattern that ends
    with it. *)
Lemma rmatch_named_last (P : ascii -> Prop) (a b : Re.regex) :
  chars_in P b →
  ∀ s g x,
    Re.rmatch (Re.Seq a (Re.Named b)) s g (fun _ g' => Some g') = Some x →
    ∃ w, x = Some w ∧ Forall P w.
Proof.
  intros Hb s g x H. simpl in H.
  destruct (rmatch_sound (fun _ => True) a (chars_in_any a) _ _ _ _ H)
    as (w1 & s1 & g1 & -> & _ & H1).
  destruct (rmatch_sound P b Hb _ _ _ _ H1) as (w & s2 & g2 & -> & F & H2).
  inversion H2; subst. exists w. split; [|done].
  f_equal. rewrite length_app.
  replace (length w + length s2 - length s2)%nat with (length w) by lia.
  by rewrite take_app_length.
Qed.

Lemma key_id_regex_chars :
  chars_in (fun c => key_char c = true) key_id_regex.
Proof.
  unfold key_char, key_id_regex, Re.Opt, Re.Plus. cbn [chars_in].
  repeat split; try done; intros c Hc.
  - apply Ascii.eqb_eq in Hc as <-. done.
  - rewrite Hc. done.
  - rewrite Hc. done.
  - apply Ascii.eqb_eq in Hc as <-. done.
Qed.

Lemma search_from_signature (s : list ascii) g :
  Re.search_from signature_regex s = Some g →
  ∃ w, g = Some w ∧ Forall (fun c => key_char c = true) w.
Proof.
  induction s as [|c s IH]; intros H.
  - vm_compute in H. done.
  - cbn [Re.search_from] in H.
    destruct (Re.rmatch signature_regex (c :: s) None _) eqn:E.
    + inversion H; subst.
      apply (rmatch_named_last _
               (Re.Seq (Re.Seq (Re.Lit "Signature")
                          (Re.Plus (Re.Chr ws_or_colon)))
                  (Re.Opt (Re.Seq (Re.Star Re.dot) (Re.Lit "Key ID "))))
               key_id_regex key_id_regex_chars (c :: s) None).
      exact E.
    + by apply IH.
Qed.

(** The pattern always fills its named group, with a token that has no
    space, also once lower-cased. *)
Lemma search_signature_key (line : string) (g : option string) :
  Re.search signature_regex line = Some g →
  ∃ k, g = Some k ∧ no_space (PyStr.lower k).
Proof.
  unfold Re.search. intros H.
  destruct (Re.search_from _ _) as [g'|] eqn:E; [|done].
  inversion H; subst.
  destruct (search_from_signature _ _ E) as (w & -> & F).
  exists (string_of_list_ascii w). split; [done|]. by apply lower_no_space.
Qed.

(** ** Signature verification *)

Section Scan.
Variables (self : Exporter) (env : Env) (repository_path : string)
          (key_ids_lower : list string).

Abbreviation step := (scan_package self env repository_path key_ids_lower).
Abbreviation path_of n := (PyStr.path_join repository_path n).

(** One iteration only adds to the sets. *)
Lemma scan_package_sets (r : report) (n : string) :
  errored_packages (step r n)
  = errored_packages r ∪ errored_packages (step empty_report n)
  ∧ no_signature_packages (step r n)
    = no_signature_packages r ∪ no_signature_packages (step empty_report n)
  ∧ wrong_signature_packages (step r n)
    = wrong_signature_packages r
      ∪ wrong_signature_packages (step empty_report n).
Proof.
  unfold scan_package.
  destruct (negb (PyStr.endswith _ _)); [simpl; set_solver|].
  destruct (rpm_qip env _) as [[exit_code out] err].
  destruct (negb _); [simpl; set_solver|].
  destruct (find_signature_line out) as [line|]; [|simpl; set_solver].
  destruct (String.eqb line ""); [simpl; set_solver|].
  destruct (Re.search _ _) as [key|]; [|simpl; set_solver].
  destruct (PyStr.contains _ _); [simpl; set_solver|].
  destruct (negb (bool_decide _)); simpl; set_solver.
Qed.

(** The sets after the loop are the union of what each iteration adds
    on its own. *)
Lemma fold_sets (proj : report → gset string) :
  (∀ r n, proj (step r n) = proj r ∪ proj (step empty_report n)) →
  ∀ (l : list string) (r : report) (x : string),
    x ∈ proj (fold_left step l r)
    ↔ x ∈ proj r ∨ ∃ n, n ∈ l ∧ x ∈ proj (step empty_report n).
Proof.
  intros Hstep l. induction l as [|n l IH]; intros r x; simpl.
  - split; [auto|]. intros [H | (n & Hn & _)]; [done|].
    by apply elem_of_nil in Hn.
  - rewrite IH, Hstep, elem_of_union. split.
    + intros [[H | H] | (m & Hm & H)]; [by left | |].
      * right. exists n. split; [apply list_elem_of_here | done].
      * right. exists m. split; [by apply list_elem_of_further | done].
    + intros [H | (m & Hm & H)]; [by left; left|].
      apply elem_of_cons in Hm as [-> | Hm]; [by left; right|].
      right. by exists m.
Qed.

(** What one file contributes: nothing, or its path to one of the
    first two sets, or its entry to the third. *)
Lemma alone_shape (n : string) :
  let a := step empty_report n in
  (errored_packages a = ∅ ∧ no_signature_packages a = ∅
   ∧ wrong_signature_packages a = ∅)
  ∨ (errored_packages a = {[path_of n]} ∧ no_signature_packages a = ∅
     ∧ wrong_signature_packages a = ∅)
  ∨ (errored_packages a = ∅ ∧ no_signature_packages a = {[path_of n]}
     ∧ wrong_signature_packages a = ∅)
  ∨ (∃ k, no_space k ∧ errored_packages a = ∅
          ∧ no_signature_packages a = ∅
          ∧ wrong_signature_packages a = {[wrong_entry (path_of n) k]}).
Proof.
  unfold scan_package.
  destruct (negb (PyStr.endswith _ _)); [by left|].
  destruct (rpm_qip env _) as [[exit_code out] err].
  destruct (negb _).
  { right; left. simpl. by rewrite (left_id_L ∅ (∪)). }
  destruct (find_signature_line out) as [line|]; [|by left].
  destruct (String.eqb line ""); [by left|].
  destruct (Re.search _ _) as [key|] eqn:E.
  2:{ right; left. simpl. by rewrite (left_id_L ∅ (∪)). }
  destruct (search_signature_key _ _ E) as (k & -> & Hk).
  destruct (PyStr.contains _ _).
  { right; right; left. simpl. by rewrite (left_id_L ∅ (∪)). }
  destruct (negb (bool_decide _)); [|by left].
  right; right; right. exists (PyStr.lower k). simpl.
  by rewrite (left_id_L ∅ (∪)).
Qed.

Lemma alone_same_path (r : report) (n n' : string) :
  path_of n = path_of n' → step r n = step r n'.
Proof. unfold scan_package. by intros ->. Qed.

(** What the loop records for a file of the directory is what the
    scan of that file alone records. *)
Lemma batch_is_alone (l : list string) (n : string) :
  n ∈ l →
  let R := fold_left step l empty_report in
  let a := step empty_report n in
  (path_of n ∈ errored_packages R ↔ path_of n ∈ errored_packages a)
  ∧ (path_of n ∈ no_signature_packages R
     ↔ path_of n ∈ no_signature_packages a)
  ∧ (∀ k, no_space k →
       (wrong_entry (path_of n) k ∈ wrong_signature_packages R
        ↔ wrong_entry (path_of n) k ∈ wrong_signature_packages a)).
Proof.
  intros Hn R a. subst R a.
  split; [|split; [|intros k Hk]].
  - rewrite (fold_sets errored_packages
               (fun r m => proj1 (scan_package_sets r m))).
    split; [|intros H; right; by exists n].
    intros [H | (m & Hm & H)]; [by apply elem_of_empty in H|].
    destruct (alone_shape m)
      as [(E & _) | [(E & _) | [(E & _) | (k & _ & E & _)]]];
      rewrite E in H; try by apply elem_of_empty in H.
    apply elem_of_singleton in H.
    rewrite (alone_same_path empty_report n m H), E.
    by apply elem_of_singleton.
  - rewrite (fold_sets no_signature_packages
               (fun r m => proj1 (proj2 (scan_package_sets r m)))).
    split; [|intros H; right; by exists n].
    intros [H | (m & Hm & H)]; [by apply elem_of_empty in H|].
    destruct (alone_shape m)
      as [(_ & E & _) | [(_ & E & _) | [(_ & E & _) | (k & _ & _ & E & _)]]];
      rewrite E in H; try by apply elem_of_empty in H.
    apply elem_of_singleton in H.
    rewrite (alone_same_path empty_report n m H), E.
    by apply elem_of_singleton.
  - rewrite (fold_sets wrong_signature_packages
               (fun r m => proj2 (proj2 (scan_package_sets r m)))).
    split; [|intros H; right; by exists n].
    intros [H | (m & Hm & H)]; [by apply elem_of_empty in H|].
    destruct (alone_shape m)
      as [(_ & _ & E) | [(_ & _ & E) | [(_ & _ & E) | (k' & Hk' & _ & _ & E)]]];
      rewrite E in H; try by apply elem_of_empty in H.
    pose proof H as H'.
    apply elem_of_singleton in H'.
    destruct (wrong_entry_inj _ _ _ _ Hk Hk' H') as [Hp _].
    by rewrite (alone_same_path empty_report n m Hp), E.
Qed.

End Scan.

Lemma find_signature_line_nonempty (out line : string) :
  find_signature_line out = Some line → String.eqb line "" = false.
Proof.
  unfold find_signature_line. intros H.
  apply find_some in H as [_ H]. by destruct line.
Qed.

(** C7. Every file of the scanned directory is evaluated, and lands in
    at most one of the three sets of the report: the loop records for a
    file exactly what the scan of that file alone records (whatever
    came before it in the directory); the file is never both
    inspection-failed and unsigned; and when some entry of the
    wrong-signature set belongs to the file (its path followed by a key
    token), the file is in neither of the other sets and that entry is
    its only one.  So each file is in exactly one of the four outcomes,
    accepted being the absence from all three sets. *)
Theorem classification_complete (self : Exporter) (env : Env)
    (repository_path : string) (sign_keys : list SignKey)
    (package : string) :
  package ∈ listdir env repository_path →
  let package_path := PyStr.path_join repository_path package in
  let R := scan_packages self env repository_path sign_keys in
  let alone :=
    scan_package self env repository_path
      ((fun i => PyStr.lower (keyid i)) <$> sign_keys) empty_report package in
  ((package_path ∈ errored_packages R
    ↔ package_path ∈ errored_packages alone)
   ∧ (package_path ∈ no_signature_packages R
      ↔ package_path ∈ no_signature_packages alone)
   ∧ (∀ k, no_space k →
        (wrong_entry package_path k ∈ wrong_signature_packages R
         ↔ wrong_entry package_path k ∈ wrong_signature_packages alone)))
  ∧ ¬ (package_path ∈ errored_packages R
       ∧ package_path ∈ no_signature_packages R)
  ∧ (∀ k, no_space k →
       wrong_entry package_path k ∈ wrong_signature_packages R →
       (package_path ∉ errored_packages R)
       ∧ (package_path ∉ no_signature_packages R)
       ∧ (∀ k', no_space k' →
            wrong_entry package_path k' ∈ wrong_signature_packages R →
            k' = k)).
Proof.
  intros Hin package_path R alone.
  destruct (batch_is_alone self env repository_path
              ((fun i => PyStr.lower (keyid i)) <$> sign_keys)
              _ _ Hin) as (He & Hn & Hw).
  fold package_path in He, Hn, Hw. fold alone in He, Hn, Hw.
  change (fold_left _ _ _) with R in He, Hn, Hw.
  split; [exact (conj He (conj Hn Hw))|].
  pose proof (alone_shape self env repository_path
                ((fun i => PyStr.lower (keyid i)) <$> sign_keys) package)
    as Hshape.
  cbv zeta in Hshape. fold alone package_path in Hshape.
  split.
  - rewrite He, Hn.
    destruct Hshape
      as [(E1 & E2 & _) | [(E1 & E2 & _) | [(E1 & E2 & _) | (k & _ & E1 & E2 & _)]]];
      rewrite E1, E2; set_solver.
  - intros k Hk. rewrite (Hw k Hk), He, Hn. intros H.
    destruct Hshape
      as [(E1 & E2 & E3) | [(E1 & E2 & E3) | [(E1 & E2 & E3) | (k0 & Hk0 & E1 & E2 & E3)]]];
      rewrite E3 in H; try by apply elem_of_empty in H.
    rewrite E1, E2. split; [set_solver|]. split; [set_solver|].
    intros k' Hk'. rewrite (Hw k' Hk'), E3. intros H'.
    apply elem_of_singleton in H, H'.
    destruct (wrong_entry_inj _ _ _ _ Hk Hk0 H) as [_ ->].
    by destruct (wrong_entry_inj _ _ _ _ Hk' Hk0 H') as [_ ->].
Qed.

Lemma classification_complete_witness :
  let R := scan_packages (exporter_of ∅) four_files_env "/r" [key_11112222] in
  "c.rpm" ∈ listdir four_files_env "/r"
  ∧ "/r/c.rpm" ∈ no_signature_packages R
  ∧ ¬ ("/r/c.rpm" ∈ errored_packages R
       ∧ "/r/c.rpm" ∈ no_signature_packages R).
Proof.
  intros R.
  assert (Hin : "c.rpm" ∈ listdir four_files_env "/r").
  { by_compute. }
  split; [exact Hin|].
  split; [by_compute|].
  exact (proj1 (proj2
    (classification_complete (exporter_of ∅) four_files_env "/r"
       [key_11112222] "c.rpm" Hin))).
Defined.

(** A file recorded as unsigned by the loop is recorded so by its own
    scan, and the wrong-signature set has no entry of it. *)
Lemma unsigned_alone (self : Exporter) (env : Env)
    (repository_path : string) (sign_keys : list SignKey)
    (package : string) :
  package ∈ listdir env repository_path →
  let package_path := PyStr.path_join repository_path package in
  let R := scan_packages self env repository_path sign_keys in
  let alone :=
    scan_package self env repository_path
      ((fun i => PyStr.lower (keyid i)) <$> sign_keys) empty_report package in
  (package_path ∈ no_signature_packages R
   ↔ package_path ∈ no_signature_packages alone)
  ∧ (package_path ∈ no_signature_packages R →
     ∀ k, no_space k →
       wrong_entry package_path k ∉ wrong_signature_packages R).
Proof.
  intros Hin package_path R alone.
  destruct (batch_is_alone self env repository_path
              ((fun i => PyStr.lower (keyid i)) <$> sign_keys)
              _ _ Hin) as (_ & Hn & Hw).
  fold package_path in Hn, Hw. fold alone in Hn, Hw.
  change (fold_left _ _ _) with R in Hn, Hw.
  split; [exact Hn|].
  intros H k Hk. rewrite (Hw k Hk). rewrite Hn in H.
  pose proof (alone_shape self env repository_path
                ((fun i => PyStr.lower (keyid i)) <$> sign_keys) package)
    as Hshape.
  cbv zeta in Hshape. fold alone package_path in Hshape.
  destruct Hshape
    as [(_ & E2 & E3) | [(_ & E2 & E3) | [(_ & E2 & E3) | (k0 & _ & _ & E2 & E3)]]];
    rewrite E2 in H; rewrite E3; set_solver.
Qed.

(** C6, as amended. A scanned package file is in the unsigned set
    exactly when the inspection succeeded, a signature line was found,
    the pattern matched it and the lower-cased key id contains [none]
    (rpm prints [(none)], parentheses included); such a file has no
    entry in the wrong-signature set. *)
Theorem unsigned_iff_key_contains_none (self : Exporter) (env : Env)
    (repository_path : string) (sign_keys : list SignKey)
    (package : string) :
  package ∈ listdir env repository_path →
  let package_path := PyStr.path_join repository_path package in
  PyStr.endswith package_path ".rpm" = true →
  let R := scan_packages self env repository_path sign_keys in
  (package_path ∈ no_signature_packages R
   ↔ ∃ out err line k,
       rpm_qip env package_path = (0%Z, out, err)
       ∧ find_signature_line out = Some line
       ∧ Re.search signature_regex line = Some (Some k)
       ∧ PyStr.contains "none" (PyStr.lower k) = true)
  ∧ (package_path ∈ no_signature_packages R →
     ∀ k, no_space k →
       wrong_entry package_path k ∉ wrong_signature_packages R).
Proof.
  intros Hin package_path Hrpm R.
  destruct (unsigned_alone self env repository_path sign_keys
              package Hin) as (Hn & Hw).
  fold package_path R in Hn, Hw.
  split; [|exact Hw].
  rewrite Hn. clear Hn Hw. unfold scan_package. fold package_path.
  rewrite Hrpm. cbn [negb].
  destruct (rpm_qip env package_path) as [[exit_code out] err].
  destruct (exit_code =? 0)%Z eqn:Hex; cbn [negb].
  2:{ simpl. split; [set_solver|].
      intros (out' & err' & line & k & E & _). inversion E; subst. done. }
  apply Z.eqb_eq in Hex as ->.
  destruct (find_signature_line out) as [line|] eqn:Hline.
  2:{ simpl. split; [set_solver|].
      intros (out' & err' & line & k & E & E' & _). inversion E; subst.
      congruence. }
  rewrite (find_signature_line_nonempty _ _ Hline).
  destruct (Re.search signature_regex line) as [key|] eqn:Hkey.
  2:{ simpl. split; [set_solver|].
      intros (out' & err' & line' & k & E & E' & E'' & _).
      inversion E; subst. congruence. }
  destruct (search_signature_key _ _ Hkey) as (k & -> & _).
  change (default "" (Some k)) with k.
  destruct (PyStr.contains "none" (PyStr.lower k)) eqn:Hnone.
  - cbn [add_no_signature no_signature_packages empty_report]. split.
    + intros _. by exists out, err, line, k.
    + intros _. apply elem_of_union. right. by apply elem_of_singleton.
  - split.
    + destruct (negb (bool_decide _));
        cbn [add_wrong_signature no_signature_packages empty_report];
        intros H; by apply elem_of_empty in H.
    + intros (out' & err' & line' & k' & E & E' & E'' & Hc).
      inversion E; subst. congruence.
Qed.

Lemma unsigned_iff_key_contains_none_witness :
  "/r/c.rpm" ∈ no_signature_packages
                 (scan_packages (exporter_of ∅) (unsigned_env "c.rpm") "/r"
                    [key_11112222])
  ∧ (wrong_entry "/r/c.rpm" "(none)"
     ∉ wrong_signature_packages
         (scan_packages (exporter_of ∅) (unsigned_env "c.rpm") "/r"
            [key_11112222])).
Proof.
  assert (Hin : "c.rpm" ∈ listdir (unsigned_env "c.rpm") "/r") by by_compute.
  assert (Hrpm : PyStr.endswith (PyStr.path_join "/r" "c.rpm") ".rpm" = true)
    by reflexivity.
  pose proof (unsigned_iff_key_contains_none (exporter_of ∅)
                (unsigned_env "c.rpm") "/r" [key_11112222] "c.rpm" Hin Hrpm)
    as [H1 H2].
  assert (H : "/r/c.rpm" ∈ no_signature_packages
                 (scan_packages (exporter_of ∅) (unsigned_env "c.rpm") "/r"
                    [key_11112222])).
  { apply H1. exists out_unsigned, "", "Signature   : (none)", "(none)".
    repeat split; vm_compute; reflexivity. }
  split; [exact H|]. apply (H2 H). by_compute.
Defined.

(** C6, as stated, fails: rpm reports an unsigned package as [(none)];
    the lower-cased key id is then [(none)], which is not the token
    [none], and the file is recorded as unsigned all the same. *)
Lemma unsigned_key_is_not_none :
  let R := scan_packages (exporter_of ∅) (unsigned_env "c.rpm") "/r"
             [key_11112222] in
  rpm_qip (unsigned_env "c.rpm") "/r/c.rpm" = (0%Z, out_unsigned, "")
  ∧ find_signature_line out_unsigned = Some "Signature   : (none)"
  ∧ Re.search signature_regex "Signature   : (none)" = Some (Some "(none)")
  ∧ PyStr.lower "(none)" ≠ "none"
  ∧ "/r/c.rpm" ∈ no_signature_packages R.
Proof.
  repeat split; try (vm_compute; reflexivity); by_compute.
Qed.

(** Whatever the known subkeys are, a package whose key id is neither
    [none] nor an authorized key is recorded in the wrong-signature
    set. *)
Lemma wrong_key_whatever_the_subkeys (self : Exporter) (env : Env)
    (repository_path : string) (sign_keys : list SignKey)
    (package out err line k : string) :
  package ∈ listdir env repository_path →
  let package_path := PyStr.path_join repository_path package in
  PyStr.endswith package_path ".rpm" = true →
  rpm_qip env package_path = (0%Z, out, err) →
  find_signature_line out = Some line →
  Re.search signature_regex line = Some (Some k) →
  PyStr.contains "none" (PyStr.lower k) = false →
  PyStr.lower k ∉ (fun i => PyStr.lower (keyid i)) <$> sign_keys →
  wrong_entry package_path (PyStr.lower k)
  ∈ wrong_signature_packages
      (scan_packages self env repository_path sign_keys).
Proof.
  intros Hin package_path Hrpm Hq Hline Hkey Hnone Hauth.
  destruct (search_signature_key _ _ Hkey) as (k' & E & Hk).
  inversion E; subst k'.
  destruct (batch_is_alone self env repository_path
              ((fun i => PyStr.lower (keyid i)) <$> sign_keys)
              _ _ Hin) as (_ & _ & Hw).
  apply (Hw _ Hk). fold package_path.
  unfold scan_package. fold package_path.
  rewrite Hrpm, Hq, Hline, (find_signature_line_nonempty _ _ Hline), Hkey.
  change (default "" (Some k)) with k.
  rewrite Hnone, (bool_decide_eq_false_2 _ Hauth).
  cbn [negb Z.eqb add_wrong_signature wrong_signature_packages empty_report].
  apply elem_of_union. right. by apply elem_of_singleton.
Qed.

(** A package whose inspection succeeds without a signature line is in
    none of the sets. *)
Lemma no_signature_line_in_no_set (self : Exporter) (env : Env)
    (repository_path : string) (sign_keys : list SignKey)
    (package out err : string) :
  package ∈ listdir env repository_path →
  let package_path := PyStr.path_join repository_path package in
  let R := scan_packages self env repository_path sign_keys in
  PyStr.endswith package_path ".rpm" = true →
  rpm_qip env package_path = (0%Z, out, err) →
  find_signature_line out = None →
  (package_path ∉ errored_packages R)
  ∧ (package_path ∉ no_signature_packages R)
  ∧ (∀ k, no_space k →
       wrong_entry package_path k ∉ wrong_signature_packages R).
Proof.
  intros Hin package_path R Hrpm Hq Hline.
  destruct (batch_is_alone self env repository_path
              ((fun i => PyStr.lower (keyid i)) <$> sign_keys)
              _ _ Hin) as (He & Hn & Hw).
  fold package_path in He, Hn, Hw.
  change (fold_left _ _ _) with R in He, Hn, Hw.
  assert (Ha : scan_package self env repository_path
                 ((fun i => PyStr.lower (keyid i)) <$> sign_keys)
                 empty_report package
               = add_log (LogNoSignatureInformation package_path)
                   empty_report).
  { unfold scan_package. fold package_path. by rewrite Hrpm, Hq, Hline. }
  rewrite Ha in He, Hn, Hw. cbn in He, Hn, Hw.
  split; [|split].
  - rewrite He. apply not_elem_of_empty.
  - rewrite Hn. apply not_elem_of_empty.
  - intros k Hk. rewrite (Hw k Hk). apply not_elem_of_empty.
Qed.

(** C1. The code at a package signed with a subkey: the key id
    [abcd1234] is not an authorized key, it is a subkey of the
    authorized key [11112222] in the known-subkeys map, the flag that
    the loop over the map computes is set and no wrong-key error is
    logged, yet the package is recorded in the wrong-signature set and
    written to the error file. *)
Example subkey_signed_recorded_wrong :
  let R := scan_packages subkey_exporter subkey_env "/r" [key_11112222] in
  find_signature_line out_signed
  = Some "Signature   : RSA/SHA256, Tue 01 Jun 2021 10:00:00 AM UTC, Key ID abcd1234"
  ∧ Re.search signature_regex
      "Signature   : RSA/SHA256, Tue 01 Jun 2021 10:00:00 AM UTC, Key ID abcd1234"
    = Some (Some "abcd1234")
  ∧ ("abcd1234" ∉ [PyStr.lower (keyid key_11112222)])
  ∧ known_subkeys subkey_exporter !! "11112222" = Some ["abcd1234"]
  ∧ signed_with_subkey (known_subkeys subkey_exporter) "abcd1234" = true
  ∧ report_log R = []
  ∧ wrong_entry "/r/a.rpm" "abcd1234" ∈ wrong_signature_packages R
  ∧ write_report R None
    = Some ("Packages with wrong signature:" +:+ nl +:+ "/r/a.rpm abcd1234").
Proof.
  repeat split; try (vm_compute; reflexivity); by_compute.
Qed.

(** C2. The code at a package whose inspection succeeds and prints no
    signature line: the error is logged, the package is in none of the
    sets, and nothing is written to the error file. *)
Example no_signature_line_not_recorded :
  let R := scan_packages (exporter_of ∅) no_line_env "/r" [key_11112222] in
  rpm_qip no_line_env "/r/d.rpm" = (0%Z, out_no_line, "")
  ∧ find_signature_line out_no_line = None
  ∧ report_log R = [LogNoSignatureInformation "/r/d.rpm"]
  ∧ ("/r/d.rpm" ∉ errored_packages R)
  ∧ errored_packages R = ∅
  ∧ no_signature_packages R = ∅
  ∧ wrong_signature_packages R = ∅
  ∧ write_report R None = None.
Proof.
  repeat split; try (vm_compute; reflexivity); by_compute.
Qed.

(** ** The error file *)

(** C3, as amended. Within a run, a verification whose listing of the
    directory succeeds leaves in the error file what [write_report]
    makes of it: a report with a non-empty set is appended to the
    content the file has (the file is created when absent), a clean
    report leaves the file as it is.  The file of an earlier run does
    not survive the construction of the exporter. *)
Theorem verification_appends_within_run (self : Exporter) (env : Env)
    (repository_path : string) (sign_keys : list SignKey) (w : world) :
  fails env (trace w) (OsListdir repository_path) = false →
  let R := scan_packages self env repository_path sign_keys in
  let w' := (check_rpms_signature self env repository_path sign_keys w).2 in
  (errored_packages R ≠ ∅ ∨ no_signature_packages R ≠ ∅
   ∨ wrong_signature_packages R ≠ ∅ →
   export_error_file w'
   = Some (default "" (export_error_file w)
           +:+ PyStr.join nl (report_lines R)))
  ∧ (errored_packages R = ∅ ∧ no_signature_packages R = ∅
     ∧ wrong_signature_packages R = ∅ →
     export_error_file w' = export_error_file w)
  ∧ ∀ copy_noarch only_check show_differ login subkeys_config,
      export_error_file
        (Exporter_init copy_noarch only_check show_differ login
           subkeys_config w').2 = None.
Proof.
  intros Hok R w'. subst w'.
  unfold check_rpms_signature, exec, mbind, M_bind. rewrite Hok.
  cbn [record_scan snd export_error_file]. fold R.
  unfold write_report, nonempty.
  split; [|split].
  - intros H.
    assert (Hb : negb (bool_decide (errored_packages R = ∅))
                 || negb (bool_decide (no_signature_packages R = ∅))
                 || negb (bool_decide (wrong_signature_packages R = ∅))
                 = true).
    { destruct H as [H | [H | H]];
        rewrite (bool_decide_eq_false_2 _ H); cbn;
        by rewrite ?orb_true_r. }
    rewrite Hb. by destruct (export_error_file w).
  - intros (E1 & E2 & E3).
    by rewrite !bool_decide_eq_true_2.
  - intros. unfold Exporter_init. cbn [snd export_error_file].
    match goal with |- match ?x with _ => _ end = _ => by destruct x end.
Qed.

Lemma verification_appends_within_run_witness :
  export_error_file
    (check_rpms_signature (exporter_of ∅) (unsigned_env "c.rpm") "/r"
       [key_11112222]
       {| owner := ∅; trace := []; logs := [];
          export_error_file := Some "earlier" |}).2
  = Some ("earlier" +:+ "Packages without signature:" +:+ nl +:+ "/r/c.rpm").
Proof.
  refine (eq_trans
    (proj1 (verification_appends_within_run (exporter_of ∅)
              (unsigned_env "c.rpm") "/r" [key_11112222]
              {| owner := ∅; trace := []; logs := [];
                 export_error_file := Some "earlier" |} eq_refl) _) _).
  - right; left. by_compute.
  - vm_compute. reflexivity.
Defined.

(** C3, as stated, fails: a first run finds the unsigned package
    [a.rpm] and writes it to the error file; a second run, started on
    the world the first one left, finds [b.rpm]; after it the file holds
    the findings of the second run only. *)
Lemma second_run_erases_first :
  let w1 := (run_with_unsigned "a.rpm" empty_world).2 in
  let w2 := (run_with_unsigned "b.rpm" w1).2 in
  export_error_file w1
  = Some ("Packages without signature:" +:+ nl +:+ "/r/Packages/a.rpm")
  ∧ export_error_file w2
    = Some ("Packages without signature:" +:+ nl +:+ "/r/Packages/b.rpm")
  ∧ (PyStr.contains "/r/Packages/a.rpm" <$> export_error_file w2)
    = Some false.
Proof. repeat split; vm_compute; reflexivity. Qed.

(** ** External calls of a computation *)

Lemma emits_weaken {A} (m : M A) (P Q : list event → result A → Prop) :
  emits m P → (∀ t r, P t r → Q t r) → emits m Q.
Proof.
  intros H HPQ w. destruct (H w) as (t & Ht & HP). exists t. auto.
Qed.

Lemma emits_ret {A} (a : A) :
  emits (mret a) (fun t r => t = [] ∧ r = Ok a).
Proof. intros w. exists []. by rewrite app_nil_r. Qed.

Lemma emits_log (e : log_entry) :
  emits (log e) (fun t r => t = [] ∧ r = Ok tt).
Proof. intros w. exists []. by rewrite app_nil_r. Qed.

Lemma emits_exec (env : Env) (e : event) :
  emits (exec env e) (fun t r => t = [e] ∧ (r = Ok tt ∨ r = Raised)).
Proof.
  intros w. exists [e]. unfold exec.
  destruct (fails env (trace w) e); simpl; auto.
Qed.

Lemma emits_bind {A B} (m : M A) (f : A → M B)
    (P : list event → result A → Prop)
    (Q : A → list event → result B → Prop) :
  emits m P → (∀ a, emits (f a) (Q a)) →
  emits (m ≫= f)
    (fun t r =>
       (P t Raised ∧ r = Raised)
       ∨ ∃ a t1 t2, t = t1 ++ t2 ∧ P t1 (Ok a) ∧ Q a t2 r).
Proof.
  intros Hm Hf w. unfold mbind, M_bind.
  destruct (Hm w) as (t1 & Ht1 & HP).
  destruct (m w) as [[a|] w1]; simpl in *.
  - destruct (Hf a w1) as (t2 & Ht2 & HQ).
    exists (t1 ++ t2). split.
    + by rewrite Ht2, Ht1, app_assoc.
    + right. by exists a, t1, t2.
  - exists t1. split; [done|]. by left.
Qed.

Lemma emits_for_each_log (l : list log_entry) :
  emits (for_each l log) (fun t r => t = [] ∧ r = Ok tt).
Proof.
  induction l as [|e l IH]; simpl.
  - apply emits_ret.
  - eapply emits_weaken.
    + apply emits_bind; [apply emits_log | intros ?; apply IH].
    + simpl. intros t r [[[_ H] _] | (a & t1 & t2 & Ht & [Ht1 _] & [Ht2 Hr])];
        [done | by subst].
Qed.

(** ** Results without failures *)

Lemma returns_ret {A} (a : A) : returns (mret a) a.
Proof. intros w. by exists w. Qed.

Lemma returns_bind {A B} (m : M A) (f : A → M B) (a : A) (b : B) :
  returns m a → returns (f a) b → returns (m ≫= f) b.
Proof.
  intros Hm Hf w. unfold mbind, M_bind.
  destruct (Hm w) as (w1 & ->). apply Hf.
Qed.

Lemma returns_log (e : log_entry) : returns (log e) tt.
Proof. intros w. by eexists. Qed.

Lemma returns_exec (env : Env) (e : event) :
  never_fails env → returns (exec env e) tt.
Proof. intros H w. unfold exec. rewrite H. by eexists. Qed.

Lemma returns_for_each {A} (l : list A) (body : A → M unit) :
  (∀ x, x ∈ l → returns (body x) tt) → returns (for_each l body) tt.
Proof.
  induction l as [|x l IH]; intros H; simpl.
  - apply returns_ret.
  - eapply returns_bind.
    + apply H, list_elem_of_here.
    + apply IH. intros y Hy. by apply H, list_elem_of_further.
Qed.

Lemma returns_get_repo_latest_version (env : Env) (href : string) :
  never_fails env →
  returns (get_repo_latest_version env href) (pulp_latest_version env href).
Proof.
  intros H. eapply returns_bind; [by apply returns_exec | apply returns_ret].
Qed.

Lemma returns_follow_next (env : Env) (pages : list (list package_dict))
    (packages : list package_dict) :
  never_fails env →
  returns (follow_next env pages packages) (packages ++ concat pages).
Proof.
  intros H. revert packages.
  induction pages as [|p pages IH]; intros packages; simpl.
  - rewrite app_nil_r. apply returns_ret.
  - eapply returns_bind; [by apply returns_exec|].
    rewrite app_assoc. apply IH.
Qed.

Lemma returns_retrieve_all_packages_from_pulp (env : Env) (version : string) :
  never_fails env →
  returns (retrieve_all_packages_from_pulp env version) (listing env version).
Proof.
  intros H. eapply returns_bind; [by apply returns_exec|].
  by apply returns_follow_next.
Qed.

Lemma returns_copy_noarch (self : Exporter) (env : Env)
    (sname dname href : string) (src : list package_dict) :
  never_fails env →
  returns (copy_noarch_packages_from_x86_64_repo self env sname src dname href)
    tt.
Proof.
  intros H. unfold copy_noarch_packages_from_x86_64_repo.
  eapply returns_bind; [by apply returns_get_repo_latest_version|].
  eapply returns_bind; [by apply returns_retrieve_all_packages_from_pulp|].
  eapply returns_bind.
  - apply returns_for_each. intros e _. apply returns_log.
  - destruct (_ && _); [|apply returns_ret].
    eapply returns_bind; by apply returns_exec.
Qed.

(** ** Noarch reconciliation *)

Lemma emits_get_repo_latest_version (env : Env) (href : string) :
  emits (get_repo_latest_version env href)
    (fun t r => t = [PulpGetRepoLatestVersion href]
                ∧ (r = Raised ∨ r = Ok (pulp_latest_version env href))).
Proof.
  eapply emits_weaken.
  - apply emits_bind; [apply emits_exec | intros ?; apply emits_ret].
  - simpl.
    intros t r [[[Ht _] Hr] | (a & t1 & t2 & Ht & [Ht1 _] & [Ht2 Hr])];
      subst; split; auto.
Qed.

Lemma emits_follow_next (env : Env) (pages : list (list package_dict))
    (packages : list package_dict) :
  emits (follow_next env pages packages)
    (fun t r => modifications t = []
                ∧ (r = Raised ∨ r = Ok (packages ++ concat pages))).
Proof.
  revert packages. induction pages as [|p pages IH]; intros packages; simpl.
  - eapply emits_weaken; [apply emits_ret|].
    intros t r [Ht Hr]. subst. rewrite app_nil_r. auto.
  - eapply emits_weaken.
    + apply emits_bind; [apply emits_exec | intros ?; apply IH].
    + simpl.
      intros t r [[[Ht _] Hr] | (a & t1 & t2 & Ht & [Ht1 _] & [Ht2 Hr])];
        subst; [auto|].
      split; [done|]. by rewrite app_assoc.
Qed.

Lemma emits_retrieve_all_packages_from_pulp (env : Env) (version : string) :
  emits (retrieve_all_packages_from_pulp env version)
    (fun t r => modifications t = []
                ∧ (r = Raised ∨ r = Ok (listing env version))).
Proof.
  eapply emits_weaken.
  - apply emits_bind; [apply emits_exec | intros ?; apply emits_follow_next].
  - simpl.
    intros t r [[[Ht _] Hr] | (a & t1 & t2 & Ht & [Ht1 _] & [Ht2 Hr])];
      subst; auto.
Qed.

Lemma modifications_app (t1 t2 : list event) :
  modifications (t1 ++ t2) = modifications t1 ++ modifications t2.
Proof. apply List.filter_app. Qed.

(** The end of [copy_noarch_packages_from_x86_64_repo]. *)
Lemma emits_apply_changes (env : Env) (href : string) (add remove : list string)
    (apply : bool) :
  emits (if apply
         then exec env (PulpModifyRepository href add remove) ;;
              exec env (PulpCreateRpmPublication href)
         else mret tt)
    (fun t r =>
       modifications t
       = (if apply then [PulpModifyRepository href add remove] else [])
       ∨ (r = Raised ∧ modifications t = [])).
Proof.
  destruct apply.
  - eapply emits_weaken.
    + apply emits_bind; [apply emits_exec | intros ?; apply emits_exec].
    + simpl.
      intros t r [[[Ht _] Hr] | (a & t1 & t2 & Ht & [Ht1 _] & [Ht2 Hr])];
        subst; by left.
  - eapply emits_weaken; [apply emits_ret|].
    intros t r [Ht Hr]. subst. by left.
Qed.

(** The content modifications of one reconciliation: none, or the one
    call that carries both computed lists; and which of the two it is
    when the reconciliation ran to its end. *)
Lemma emits_copy_noarch (self : Exporter) (env : Env)
    (sname dname href : string) (src : list package_dict) :
  let c := compare_packages self sname dname src
             (listing env (pulp_latest_version env href)) in
  let call := PulpModifyRepository href (packages_to_add c)
                (packages_to_remove c) in
  let apply := is_nonempty (packages_to_add c)
               && negb (only_check_noarch self) in
  emits (copy_noarch_packages_from_x86_64_repo self env sname src dname href)
    (fun t r =>
       (modifications t = [] ∨ (apply = true ∧ modifications t = [call]))
       ∧ (r = Ok tt → modifications t = if apply then [call] else [])).
Proof.
  intros c call apply. unfold copy_noarch_packages_from_x86_64_repo.
  eapply emits_weaken.
  - apply emits_bind; [apply emits_get_repo_latest_version|].
    intros version. apply emits_bind;
      [apply emits_retrieve_all_packages_from_pulp|].
    intros dst. apply emits_bind; [apply emits_for_each_log|].
    intros ?. apply emits_apply_changes.
  - cbv beta.
    intros t r [[[Ht _] Hr] | (v & t1 & t2 & Ht & [Ht1 Hv] & H2)].
    { subst. split; [by left | done]. }
    destruct Hv as [Hv | Hv]; [done|]. inversion Hv; subst v. clear Hv.
    destruct H2 as [[[Ht2 _] Hr] | (dst & t3 & t4 & Ht2 & [Ht3 Hd] & H4)].
    { subst. rewrite modifications_app, Ht2. split; [by left | done]. }
    destruct Hd as [Hd | Hd]; [done|]. inversion Hd; subst dst. clear Hd.
    destruct H4 as [[[_ ?] _] | (u & t5 & t6 & Ht4 & [Ht5 _] & H6)]; [done|].
    subst. rewrite !modifications_app, Ht3. cbn [modifications List.filter app].
    fold c call apply in H6. fold (modifications t6).
    destruct H6 as [H6 | [Hr H6]]; rewrite H6.
    + split; [|done]. destruct apply; [right | left]; done.
    + split; [by left | by subst].
Qed.

(** C5. Whatever calls fail, one reconciliation makes at most one
    content-modification call, and that call carries the computed add
    list and the computed remove list together; in compare-only mode it
    makes none.  When the reconciliation runs to its end, the call is
    made exactly if additions are pending outside compare-only mode,
    and without failures it does run to its end. *)
Theorem modification_is_one_call (self : Exporter) (env : Env)
    (sname dname href : string) (src : list package_dict) :
  let c := compare_packages self sname dname src
             (listing env (pulp_latest_version env href)) in
  let call := PulpModifyRepository href (packages_to_add c)
                (packages_to_remove c) in
  emits (copy_noarch_packages_from_x86_64_repo self env sname src dname href)
    (fun t r =>
       (modifications t = [] ∨ modifications t = [call])
       ∧ (only_check_noarch self = true → modifications t = [])
       ∧ (r = Ok tt →
          modifications t
          = if is_nonempty (packages_to_add c)
               && negb (only_check_noarch self)
            then [call] else []))
  ∧ (never_fails env →
     returns
       (copy_noarch_packages_from_x86_64_repo self env sname src dname href)
       tt).
Proof.
  intros c call. split; [|apply returns_copy_noarch].
  eapply emits_weaken; [apply emits_copy_noarch|].
  cbv beta zeta. fold c call. intros t r [H1 H2].
  split; [|split; [|done]].
  - destruct H1 as [H1 | [_ H1]]; auto.
  - intros Hc. destruct H1 as [H1 | [H1 _]]; [done|].
    rewrite Hc, andb_false_r in H1. done.
Qed.

Section Compare.
Variables (self : Exporter) (sname dname : string)
          (dst : list package_dict).

Abbreviation cstep := (compare_package self sname dname dst).
Abbreviation cempty :=
  {| packages_to_add := []; packages_to_remove := [];
     comparison_log := [] |}.

(** One comparison only appends to the two lists. *)
Lemma compare_package_lists (c : comparison) (p : package_dict) :
  packages_to_add (cstep c p)
  = packages_to_add c ++ packages_to_add (cstep cempty p)
  ∧ packages_to_remove (cstep c p)
    = packages_to_remove c ++ packages_to_remove (cstep cempty p).
Proof.
  unfold compare_package.
  destruct (compared_pkg dst p) as [q|].
  - destruct (negb _); simpl; by rewrite ?app_nil_r.
  - destruct (_ || _); simpl; by rewrite ?app_nil_r.
Qed.

Lemma compare_fold (src : list package_dict) (c : comparison) :
  packages_to_add (fold_left cstep src c)
  = packages_to_add c
    ++ flat_map (fun p => packages_to_add (cstep cempty p)) src
  ∧ packages_to_remove (fold_left cstep src c)
    = packages_to_remove c
      ++ flat_map (fun p => packages_to_remove (cstep cempty p)) src.
Proof.
  revert c. induction src as [|p src IH]; intros c; simpl.
  - by rewrite !app_nil_r.
  - destruct (IH (cstep c p)) as [-> ->].
    destruct (compare_package_lists c p) as [-> ->].
    by rewrite <- !app_assoc.
Qed.

Lemma in_to_add (src : list package_dict) (p : package_dict) (x : string) :
  p ∈ src → x ∈ packages_to_add (cstep cempty p) →
  x ∈ packages_to_add (compare_packages self sname dname src dst).
Proof.
  intros Hp Hx. unfold compare_packages.
  rewrite (proj1 (compare_fold src cempty)). simpl.
  apply list_elem_of_In, in_flat_map. exists p.
  split; by apply list_elem_of_In.
Qed.

Lemma in_to_remove (src : list package_dict) (p : package_dict)
    (x : string) :
  p ∈ src → x ∈ packages_to_remove (cstep cempty p) →
  x ∈ packages_to_remove (compare_packages self sname dname src dst).
Proof.
  intros Hp Hx. unfold compare_packages.
  rewrite (proj2 (compare_fold src cempty)). simpl.
  apply list_elem_of_In, in_flat_map. exists p.
  split; by apply list_elem_of_In.
Qed.

Lemma to_add_inv (src : list package_dict) (x : string) :
  x ∈ packages_to_add (compare_packages self sname dname src dst) →
  ∃ p, p ∈ src ∧ x ∈ packages_to_add (cstep cempty p).
Proof.
  unfold compare_packages.
  rewrite (proj1 (compare_fold src cempty)). simpl.
  intros H. apply list_elem_of_In, in_flat_map in H as (p & Hp & Hx).
  exists p. split; by apply list_elem_of_In.
Qed.

(** A removal comes with an addition. *)
Lemma remove_le_add (src : list package_dict) :
  (length (packages_to_remove (compare_packages self sname dname src dst))
   ≤ length (packages_to_add (compare_packages self sname dname src dst)))%nat.
Proof.
  unfold compare_packages.
  destruct (compare_fold src cempty) as [-> ->]. simpl.
  induction src as [|p src IH]; simpl; [done|].
  rewrite !length_app.
  assert (length (packages_to_remove (cstep cempty p))
          ≤ length (packages_to_add (cstep cempty p)))%nat; [|lia].
  unfold compare_package.
  destruct (compared_pkg dst p) as [q|].
  - destruct (negb _); simpl; lia.
  - destruct (_ || _); simpl; lia.
Qed.

End Compare.

Lemma compared_pkg_none (dst : list package_dict) (p : package_dict) :
  (∀ q, q ∈ dst → same_nvr q p = false) → compared_pkg dst p = None.
Proof.
  intros H. unfold compared_pkg.
  induction dst as [|q dst IH]; simpl; [done|].
  rewrite (H q (list_elem_of_here _ _)). apply IH.
  intros q' Hq'. by apply H, list_elem_of_further.
Qed.

Lemma same_nvr_fields (a b : package_dict) :
  same_nvr a b = true →
  pkg_name a = pkg_name b ∧ pkg_version a = pkg_version b
  ∧ pkg_release a = pkg_release b.
Proof.
  unfold same_nvr. intros H.
  apply andb_true_iff in H as [H H3]. apply andb_true_iff in H as [H1 H2].
  by apply String.eqb_eq in H1, H2, H3.
Qed.

Lemma compared_pkg_same_nvr (dst : list package_dict) (p p' : package_dict) :
  same_nvr p' p = true → compared_pkg dst p' = compared_pkg dst p.
Proof.
  intros H. apply same_nvr_fields in H as (E1 & E2 & E3).
  unfold compared_pkg, same_nvr. by rewrite E1, E2, E3.
Qed.

(** C4, as amended. For a package [p] of the source listing:
    when no destination package has its name, version and release, [p]
    is not modular and the exporter does not run with
    [show_differ_packages], the handle of [p] is in the add list;
    when the first destination package with its name, version and
    release has another checksum, the handle of that package is in the
    remove list and the handle of [p] in the add list;
    when no destination package matches and [p] is modular, the handle
    of [p] is not in the add list, the source listing having no other
    package under that handle. *)
Theorem reconciliation_correct (self : Exporter) (sname dname : string)
    (src dst : list package_dict) (p : package_dict) :
  p ∈ src →
  let c := compare_packages self sname dname src dst in
  ((∀ q, q ∈ dst → same_nvr q p = false) →
   is_modular p = false → show_differ_packages self = false →
   pkg_pulp_href p ∈ packages_to_add c)
  ∧ (∀ q, compared_pkg dst p = Some q → pkg_sha256 p ≠ pkg_sha256 q →
       pkg_pulp_href q ∈ packages_to_remove c
       ∧ pkg_pulp_href p ∈ packages_to_add c)
  ∧ ((∀ q, q ∈ dst → same_nvr q p = false) →
     is_modular p = true →
     (∀ p', p' ∈ src → pkg_pulp_href p' = pkg_pulp_href p →
            same_nvr p' p = true) →
     pkg_pulp_href p ∉ packages_to_add c).
Proof.
  intros Hp c. subst c. split; [|split].
  - intros Hno Hmod Hshow. apply (in_to_add _ _ _ _ _ p); [done|].
    unfold compare_package.
    rewrite (compared_pkg_none _ _ Hno), Hmod, Hshow. simpl.
    apply list_elem_of_here.
  - intros q Hq Hsha.
    assert (Hne : negb (String.eqb (pkg_sha256 p) (pkg_sha256 q)) = true).
    { apply negb_true_iff, String.eqb_neq, Hsha. }
    split.
    + apply (in_to_remove _ _ _ _ _ p); [done|].
      unfold compare_package. rewrite Hq, Hne. simpl.
      apply list_elem_of_here.
    + apply (in_to_add _ _ _ _ _ p); [done|].
      unfold compare_package. rewrite Hq, Hne. simpl.
      apply list_elem_of_here.
  - intros Hno Hmod Huniq Hin.
    apply to_add_inv in Hin as (p' & Hp' & Hx).
    assert (Hh : pkg_pulp_href p' = pkg_pulp_href p).
    { revert Hx. unfold compare_package.
      destruct (compared_pkg dst p') as [q|].
      - destruct (negb _); simpl; [|by intros ?%elem_of_nil].
        by intros ?%list_elem_of_singleton.
      - destruct (_ || _); simpl; [by intros ?%elem_of_nil|].
        by intros ?%list_elem_of_singleton. }
    pose proof (Huniq p' Hp' Hh) as Hsame.
    revert Hx. unfold compare_package.
    rewrite (compared_pkg_same_nvr dst p p' Hsame),
            (compared_pkg_none _ _ Hno).
    unfold is_modular in *.
    destruct (same_nvr_fields _ _ Hsame) as (_ & _ & ->).
    rewrite Hmod. simpl. by intros ?%elem_of_nil.
Qed.

Lemma reconciliation_correct_witness :
  pkg_pulp_href pkg_A_src
  ∈ packages_to_add
      (compare_packages (exporter_of ∅) "repo-x86_64" "repo-ppc64le"
         [pkg_A_src; pkg_M_src] []).
Proof.
  assert (Hin : pkg_A_src ∈ [pkg_A_src; pkg_M_src])
    by apply list_elem_of_here.
  apply (proj1 (reconciliation_correct (exporter_of ∅) "repo-x86_64"
                  "repo-ppc64le" [pkg_A_src; pkg_M_src] [] pkg_A_src Hin)).
  - intros q Hq. by apply elem_of_nil in Hq.
  - reflexivity.
  - reflexivity.
Defined.

(** C4, as stated, fails in two ways.  With [show_differ_packages] a
    non-modular source package that the destination lacks is not added.
    And a destination package with the name, version and release of a
    source package and another checksum is not removed when an earlier
    destination package with the same name, version and release has
    the checksum of the source: only the first match is compared. *)
Lemma reconciliation_not_as_stated :
  (let c := compare_packages show_differ_exporter "repo-x86_64"
              "repo-ppc64le" [pkg_A_src] [] in
   is_modular pkg_A_src = false
   ∧ compared_pkg [] pkg_A_src = None
   ∧ packages_to_add c = [])
  ∧ (let dst := [pkg_A_dst_same; pkg_A_dst_other] in
     let c := compare_packages (exporter_of ∅) "repo-x86_64"
                "repo-ppc64le" [pkg_A_src] dst in
     pkg_A_dst_other ∈ dst
     ∧ same_nvr pkg_A_dst_other pkg_A_src = true
     ∧ pkg_sha256 pkg_A_dst_other ≠ pkg_sha256 pkg_A_src
     ∧ packages_to_remove c = []
     ∧ packages_to_add c = []).
Proof.
  repeat split; try (vm_compute; reflexivity); by_compute.
Qed.

(** The two scenarios of the specification. *)
Example reconcile_scenarios :
  (let c := compare_packages (exporter_of ∅) "repo-x86_64" "repo-ppc64le"
              [pkg_A_src] [] in
   packages_to_add c = ["/content/src-A/"] ∧ packages_to_remove c = [])
  ∧ (let c := compare_packages (exporter_of ∅) "repo-x86_64" "repo-ppc64le"
                [pkg_A_src] [pkg_A_dst_other] in
     packages_to_add c = ["/content/src-A/"]
     ∧ packages_to_remove c = ["/content/dst-A2/"]).
Proof. repeat split; vm_compute; reflexivity. Qed.

(** C10. The remove list is non-empty only if the add list is; so,
    whatever calls fail, a content modification that is made adds
    something, and a reconciliation that ran to its end outside
    compare-only mode with a removal pending has made the call that
    carries it. *)
Theorem removal_implies_addition (self : Exporter) (env : Env)
    (sname dname href : string) (src : list package_dict) :
  (∀ dst, packages_to_remove (compare_packages self sname dname src dst) ≠ [] →
          packages_to_add (compare_packages self sname dname src dst) ≠ [])
  ∧ let c := compare_packages self sname dname src
               (listing env (pulp_latest_version env href)) in
    emits
      (copy_noarch_packages_from_x86_64_repo self env sname src dname href)
      (fun t r =>
         (∀ h a rm, PulpModifyRepository h a rm ∈ modifications t → a ≠ [])
         ∧ (r = Ok tt → only_check_noarch self = false →
            packages_to_remove c ≠ [] →
            modifications t
            = [PulpModifyRepository href (packages_to_add c)
                 (packages_to_remove c)])).
Proof.
  assert (Himp : ∀ dst,
    packages_to_remove (compare_packages self sname dname src dst) ≠ [] →
    packages_to_add (compare_packages self sname dname src dst) ≠ []).
  { intros dst Hr Ha.
    pose proof (remove_le_add self sname dname dst src) as Hle.
    rewrite Ha in Hle. simpl in Hle.
    destruct (packages_to_remove _); [done | simpl in Hle; lia]. }
  split; [exact Himp|].
  intros c. eapply emits_weaken; [apply emits_copy_noarch|].
  cbv beta zeta. fold c. intros t r [H1 H2]. split.
  - intros h a rm Hin.
    destruct H1 as [H1 | [Happly H1]]; rewrite H1 in Hin.
    + by apply elem_of_nil in Hin.
    + apply list_elem_of_singleton in Hin. inversion Hin; subst.
      apply andb_true_iff in Happly as [Hne _].
      intros E. fold c in E. by rewrite E in Hne.
  - intros Hr Hoc Hrm. rewrite (H2 Hr), Hoc.
    pose proof (Himp _ Hrm) as Ha. fold c in Ha.
    by destruct (packages_to_add c).
Qed.

(** ** Ownership of the exported paths *)

(** Splits on every external call of the goal: it fails or not. *)
Ltac split_on_failures env :=
  repeat match goal with
         | |- context [fails env ?t ?e] =>
             destruct (fails env t e) eqn:?; cbn [fst snd trace owner]
         end.

Ltac close_reversion :=
  eexists; split; [reflexivity|];
  split;
  [ eexists; rewrite <- ?app_assoc; reflexivity
  | intros ?; first [congruence | cbn [effect]; apply lookup_insert_eq] ].

Lemma last_owner_from (path : string) (t : list event) (o : option string) :
  fold_left
    (fun (o : option string) (e : event) =>
       match e with
       | Chown u p => if String.eqb p path then Some u else o
       | _ => o
       end)
    t o
  = match last_owner path t with Some u => Some u | None => o end.
Proof.
  unfold last_owner. revert o.
  induction t as [|e t IH]; intros o; simpl; [done|].
  rewrite IH. rewrite (IH (match e with
                           | Chown u p => if String.eqb p path then Some u else None
                           | _ => None
                           end)).
  destruct (fold_left _ t None); [done|].
  destruct e; try done. by destruct (String.eqb _ _).
Qed.

Lemma last_owner_app (path : string) (t1 t2 : list event) :
  last_owner path (t1 ++ t2)
  = match last_owner path t2 with
    | Some u => Some u
    | None => last_owner path t1
    end.
Proof.
  unfold last_owner at 1. rewrite fold_left_app.
  fold (last_owner path t1). apply last_owner_from.
Qed.

Lemma ownership_returned_nil (self : Exporter) : ownership_returned self [].
Proof. intros path. by left. Qed.

Lemma ownership_returned_app (self : Exporter) (t1 t2 : list event) :
  ownership_returned self t1 → ownership_returned self t2 →
  ownership_returned self (t1 ++ t2).
Proof.
  intros H1 H2 path. rewrite last_owner_app.
  destruct (H2 path) as [-> | ->]; [apply H1 | by right].
Qed.

(** A loop emits what its iterations emit, one after the other. *)
Lemma emits_for_each {A} (l : list A) (body : A → M unit)
    (Q : list event → Prop) :
  Q [] → (∀ t1 t2, Q t1 → Q t2 → Q (t1 ++ t2)) →
  (∀ x, emits (body x) (fun t _ => Q t)) →
  emits (for_each l body) (fun t _ => Q t).
Proof.
  intros Hnil Happ Hbody. induction l as [|x l IH]; simpl.
  - eapply emits_weaken; [apply emits_ret|]. by intros t r [-> _].
  - eapply emits_weaken.
    + apply emits_bind; [apply Hbody | intros ?; apply IH].
    + simpl. intros t r [[H _] | (a & t1 & t2 & -> & H1 & H2)]; auto.
Qed.

Ltac close_returned :=
  eexists; split; [rewrite <- ?app_assoc; reflexivity|];
  intros p; unfold last_owner; cbn [fold_left app];
  destruct (String.eqb _ p); auto.

(** The calls of one iteration of the loop of [export_repos_from_pulp]
    give the path back, whichever of them fail. *)
Lemma emits_harden_exported_path (self : Exporter) (env : Env)
    (sign_keys : list SignKey) (path : string) :
  emits (harden_exported_path self env sign_keys path)
    (fun t _ => ownership_returned self t).
Proof.
  intros w. unfold harden_exported_path.
  destruct (path_exists env path); cbn [negb].
  2:{ exists []. split; [by rewrite app_nil_r | apply ownership_returned_nil]. }
  unfold try_finally, check_rpms_signature, record_scan, mbind, M_bind, exec.
  split_on_failures env; close_returned.
Qed.

(** The same for one iteration of the last loop of [main]. *)
Lemma emits_finalize_exported_path (self : Exporter) (env : Env)
    (db_sign_keys : list SignKey) (key_id_by_platform : option string)
    (platforms : list (Z * list string)) (path : string) :
  emits (finalize_exported_path self env db_sign_keys key_id_by_platform
           platforms path)
    (fun t _ => ownership_returned self t).
Proof.
  intros w. unfold finalize_exported_path.
  destruct (path_exists env _); cbn [negb].
  2:{ exists []. split; [by rewrite app_nil_r | apply ownership_returned_nil]. }
  unfold try_finally, mbind, M_bind, exec.
  destruct (PyStr.contains "ppc64le" path);
    destruct (choose_key_id _ _ _ _);
    unfold log, mret, M_ret, exec;
    split_on_failures env; close_returned.
Qed.

(** C9. On both loops over the exported paths (in
    [export_repos_from_pulp] and in [main]), once the path exists:
    whichever of the calls fail (the transfer itself, the removal of
    stray files, the listing of the verification, the regeneration of
    the metadata, the errata merge, the signing), the calls made start
    with the transfer of the path to the operator and end with its
    reversion to the system user of the service; and when the reversion
    itself succeeds the path is owned by that user afterwards.  Over a
    whole loop, whether it ends or raises, the last [chown] made on
    every path is the reversion. *)
Theorem ownership_reverted (self : Exporter) (env : Env)
    (sign_keys db_sign_keys : list SignKey)
    (key_id_by_platform : option string)
    (platforms : list (Z * list string)) (path : string) (w : world) :
  (path_exists env path = true →
   let w' := (harden_exported_path self env sign_keys path w).2 in
   ∃ pre,
     trace w' = pre ++ [Chown (pulp_system_user self) path]
     ∧ (∃ mid, pre = trace w ++ Chown (current_user self) path :: mid)
     ∧ (fails env pre (Chown (pulp_system_user self) path) = false →
        owner w' !! path = Some (pulp_system_user self)))
  ∧ (let repo_path := path_parent env path in
     path_exists env repo_path = true →
     let w' := (finalize_exported_path self env db_sign_keys
                  key_id_by_platform platforms path w).2 in
     ∃ pre,
       trace w' = pre ++ [Chown (pulp_system_user self) repo_path]
       ∧ (∃ mid, pre = trace w ++ Chown (current_user self) repo_path :: mid)
       ∧ (fails env pre (Chown (pulp_system_user self) repo_path) = false →
          owner w' !! repo_path = Some (pulp_system_user self)))
  ∧ (∀ exported_paths,
       emits (for_each exported_paths
                (harden_exported_path self env sign_keys))
         (fun t _ => ownership_returned self t))
  ∧ (∀ exported_paths,
       emits (for_each exported_paths
                (finalize_exported_path self env db_sign_keys
                   key_id_by_platform platforms))
         (fun t _ => ownership_returned self t)).
Proof.
  split; [|split; [|split]].
  3:{ intros l. apply emits_for_each;
        [apply ownership_returned_nil | apply ownership_returned_app
        | apply emits_harden_exported_path]. }
  3:{ intros l. apply emits_for_each;
        [apply ownership_returned_nil | apply ownership_returned_app
        | apply emits_finalize_exported_path]. }
  - intros Hex. unfold harden_exported_path. rewrite Hex. cbn [negb].
    unfold try_finally, check_rpms_signature, record_scan, mbind, M_bind,
      exec.
    split_on_failures env; close_reversion.
  - intros repo_path Hex. unfold finalize_exported_path.
    fold repo_path. rewrite Hex. cbn [negb].
    unfold try_finally, mbind, M_bind, exec.
    destruct (PyStr.contains "ppc64le" path);
      destruct (choose_key_id _ _ _ _);
      unfold log, mret, M_ret, exec;
      split_on_failures env; close_reversion.
Qed.

Lemma ownership_reverted_witness :
  (harden_exported_path (exporter_of ∅) find_fails_env [key_11112222]
     "/r/Packages" empty_world).1 = Raised
  ∧ owner (harden_exported_path (exporter_of ∅) find_fails_env
             [key_11112222] "/r/Packages" empty_world).2 !! "/r/Packages"
    = Some "pulp"
  ∧ (finalize_exported_path (exporter_of ∅) createrepo_fails_env
       [key_11112222] None [] "/r/Packages" empty_world).1 = Raised
  ∧ owner (finalize_exported_path (exporter_of ∅) createrepo_fails_env
             [key_11112222] None [] "/r/Packages" empty_world).2 !! "/r"
    = Some "pulp".
Proof.
  pose proof (ownership_reverted (exporter_of ∅) find_fails_env
                [key_11112222] [] None [] "/r/Packages" empty_world)
    as (H1 & _).
  pose proof (ownership_reverted (exporter_of ∅) createrepo_fails_env
                [] [key_11112222] None [] "/r/Packages" empty_world)
    as (_ & H2 & _).
  destruct (H1 eq_refl) as (pre1 & Ht1 & _ & Ho1).
  destruct (H2 eq_refl) as (pre2 & Ht2 & _ & Ho2).
  split; [vm_compute; reflexivity|].
  split; [apply Ho1; reflexivity|].
  split; [vm_compute; reflexivity|].
  apply Ho2. reflexivity.
Defined.

(** ** Calls of one kind *)

Lemma emits_bind_closed {A B} (m : M A) (f : A → M B)
    (Q : list event → Prop) :
  (∀ t1 t2, Q t1 → Q t2 → Q (t1 ++ t2)) →
  emits m (fun t _ => Q t) → (∀ a, emits (f a) (fun t _ => Q t)) →
  emits (m ≫= f) (fun t _ => Q t).
Proof.
  intros Happ Hm Hf. eapply emits_weaken.
  - apply emits_bind; [apply Hm | intros a; apply Hf].
  - simpl. intros t r [[H _] | (a & t1 & t2 & -> & H1 & H2)]; auto.
Qed.

Lemma emits_and {A} (m : M A) (P Q : list event → result A → Prop) :
  emits m P → emits m Q → emits m (fun t r => P t r ∧ Q t r).
Proof.
  intros HP HQ w. destruct (HP w) as (t & Ht & H1).
  destruct (HQ w) as (t' & Ht' & H2). exists t. split; [done|].
  split; [done|]. rewrite Ht in Ht'. by apply app_inv_head in Ht' as <-.
Qed.

(** As [emits_bind], knowing in the continuation what the first part
    returned. *)
Lemma emits_bind_with {A B} (m : M A) (f : A → M B)
    (P : list event → result A → Prop) (Q : list event → Prop) :
  (∀ t1 t2, Q t1 → Q t2 → Q (t1 ++ t2)) →
  emits m (fun t r => Q t ∧ P t r) →
  (∀ a t, P t (Ok a) → emits (f a) (fun t _ => Q t)) →
  emits (m ≫= f) (fun t _ => Q t).
Proof.
  intros Happ Hm Hf w. unfold mbind, M_bind.
  destruct (Hm w) as (t1 & Ht1 & HQ & HP).
  destruct (m w) as [[a|] w1]; simpl in *.
  - destruct (Hf a t1 HP w1) as (t2 & Ht2 & HQ2).
    exists (t1 ++ t2). split; [by rewrite Ht2, Ht1, app_assoc | auto].
  - by exists t1.
Qed.

Lemma emits_try_finally_closed {A} (body : M A) (fin : M unit)
    (Q : list event → Prop) :
  (∀ t1 t2, Q t1 → Q t2 → Q (t1 ++ t2)) →
  emits body (fun t _ => Q t) → emits fin (fun t _ => Q t) →
  emits (try_finally body fin) (fun t _ => Q t).
Proof.
  intros Happ Hb Hf w. unfold try_finally.
  destruct (Hb w) as (t1 & Ht1 & H1). destruct (body w) as [r w1].
  destruct (Hf w1) as (t2 & Ht2 & H2).
  destruct (fin w1) as [[u|] w2]; simpl in *;
    exists (t1 ++ t2); rewrite Ht2, Ht1, app_assoc; auto.
Qed.

Section Every.
Variables (R : event → Prop) (env : Env).

Abbreviation every := (fun (t : list event) => Forall R t).

Lemma every_app (t1 t2 : list event) : every t1 → every t2 → every (t1 ++ t2).
Proof. intros H1 H2. by apply Forall_app. Qed.

Lemma every_ret {A} (a : A) : emits (mret a) (fun t _ => every t).
Proof.
  eapply emits_weaken; [apply emits_ret|]. intros t r [-> _]. constructor.
Qed.

Lemma every_log (e : log_entry) : emits (log e) (fun t _ => every t).
Proof.
  eapply emits_weaken; [apply emits_log|]. intros t r [-> _]. constructor.
Qed.

Lemma every_exec (e : event) :
  R e → emits (exec env e) (fun t _ => every t).
Proof.
  intros He. eapply emits_weaken; [apply emits_exec|].
  intros t r [-> _]. by repeat constructor.
Qed.

Lemma every_bind {A B} (m : M A) (f : A → M B) :
  emits m (fun t _ => every t) → (∀ a, emits (f a) (fun t _ => every t)) →
  emits (m ≫= f) (fun t _ => every t).
Proof. apply emits_bind_closed, every_app. Qed.

Lemma every_for_each {A} (l : list A) (body : A → M unit) :
  (∀ x, emits (body x) (fun t _ => every t)) →
  emits (for_each l body) (fun t _ => every t).
Proof. apply emits_for_each; [constructor | apply every_app]. Qed.

Lemma every_try_finally {A} (body : M A) (fin : M unit) :
  emits body (fun t _ => every t) → emits fin (fun t _ => every t) →
  emits (try_finally body fin) (fun t _ => every t).
Proof. apply emits_try_finally_closed, every_app. Qed.

Lemma every_get_repo_latest_version (href : string) :
  R (PulpGetRepoLatestVersion href) →
  emits (get_repo_latest_version env href) (fun t _ => every t).
Proof.
  intros H. apply every_bind; [by apply every_exec | intros _; apply every_ret].
Qed.

Lemma every_retrieve (version : string) :
  R (PulpRequestPackages version) → R PulpRequestNext →
  emits (retrieve_all_packages_from_pulp env version) (fun t _ => every t).
Proof.
  intros H1 H2. apply every_bind; [by apply every_exec|]. intros _.
  generalize (pulp_packages env version).1.
  induction (pulp_packages env version).2 as [|p pages IH];
    intros packages; simpl; [apply every_ret|].
  apply every_bind; [by apply every_exec | intros _; apply IH].
Qed.

(** The calls of the tasks run together are calls of the tasks,
    however the loop schedules them and whichever calls fail. *)
Lemma every_gather_loop (fuel : nat) (running : list prog) (raised : bool) :
  Forall (fun p => every (prog_events p)) running →
  emits (gather_loop env fuel running raised) (fun t _ => every t).
Proof.
  revert running raised.
  induction fuel as [|fuel IH]; intros running raised Hall w.
  { exists []. rewrite app_nil_r. simpl. destruct raised; split; done || constructor. }
  destruct running as [|p0 rest].
  { exists []. rewrite app_nil_r. split; [done | constructor]. }
  cbn [gather_loop].
  destruct (raised && stops env (trace w)).
  { exists []. rewrite app_nil_r. split; [done | constructor]. }
  set (i := (schedule env (trace w) mod length (p0 :: rest))%nat).
  destruct ((p0 :: rest) !! i) as [[|e k|l k]|] eqn:Ei.
  - apply (IH _ _ (Forall_delete _ _ i Hall) w).
  - pose proof (Forall_lookup_1 _ _ _ _ Hall Ei) as He.
    cbn [prog_events] in He. apply Forall_cons in He as [He Hk].
    unfold exec. destruct (fails env (trace w) e).
    + match goal with |- context [gather_loop env fuel ?l true ?w1] =>
        destruct (IH l true (Forall_delete _ _ i Hall) w1) as (t & Ht & HR)
      end.
      exists (e :: t). split; [|by constructor].
      rewrite Ht. cbn [trace]. by rewrite <- app_assoc.
    + match goal with |- context [gather_loop env fuel ?l raised ?w1] =>
        destruct (IH l raised (Forall_insert _ _ i k Hall Hk) w1)
          as (t & Ht & HR)
      end.
      exists (e :: t). split; [|by constructor].
      rewrite Ht. cbn [trace]. by rewrite <- app_assoc.
  - pose proof (Forall_lookup_1 _ _ _ _ Hall Ei) as Hk.
    cbn [prog_events] in Hk.
    unfold mbind, M_bind, log.
    match goal with |- context [gather_loop env fuel ?l raised ?w1] =>
      destruct (IH l raised (Forall_insert _ _ i k Hall Hk) w1)
        as (t & Ht & HR)
    end.
    exists t. by split.
  - exists []. rewrite app_nil_r. split; [done | constructor].
Qed.

Lemma every_gather (progs : list prog) :
  Forall (fun p => every (prog_events p)) progs →
  emits (gather env progs) (fun t _ => every t).
Proof. apply every_gather_loop. Qed.

Lemma every_create_exporters (repositories : list Repository)
    (export_data : list repo_exporter_dict) :
  (∀ repo, repo ∈ repositories →
     R (PulpCreateFilesystemExporter (exporter_name repo)
          (export_path_of env repo))
     ∧ R (PulpGetRepoLatestVersion (repo_pulp_href repo))) →
  emits (create_exporters env repositories export_data)
    (fun t _ => every t).
Proof.
  revert export_data.
  induction repositories as [|repo rest IH]; intros export_data H; simpl;
    [apply every_ret|].
  destruct (H repo (list_elem_of_here _ _)) as [H1 H2].
  apply every_bind; [by apply every_exec|]. intros _.
  apply every_bind; [by apply every_get_repo_latest_version|]. intros v.
  apply IH. intros r Hr. by apply H, list_elem_of_further.
Qed.

Lemma every_export_exporters (exporters : list repo_exporter_dict)
    (paths : list string) :
  (∀ href version, R (PulpExportToFilesystem href version)) →
  emits (export_exporters env exporters paths) (fun t _ => every t).
Proof.
  intros H. revert paths.
  induction exporters as [|x rest IH]; intros paths; simpl;
    [apply every_ret|].
  apply every_bind; [by apply every_exec | intros _; apply IH].
Qed.

Lemma every_export_repositories (repo_ids : list Z) :
  (∀ name path, R (PulpCreateFilesystemExporter name path)) →
  (∀ href, R (PulpGetRepoLatestVersion href)) →
  (∀ href version, R (PulpExportToFilesystem href version)) →
  emits (export_repositories env repo_ids) (fun t _ => every t).
Proof.
  intros H1 H2 H3. unfold export_repositories, create_filesystem_exporters.
  apply every_bind; [by apply every_create_exporters|].
  intros exporters. by apply every_export_exporters.
Qed.

End Every.

(** ** The tasks run together *)

Lemma follow_next_result (env : Env) (pages : list (list package_dict))
    (packages result : list package_dict) (w w' : world) :
  follow_next env pages packages w = (Ok result, w') →
  result = packages ++ concat pages.
Proof.
  revert packages w. induction pages as [|p pages IH]; intros packages w H.
  - simpl in H. injection H as <- _. by rewrite app_nil_r.
  - simpl in H. unfold mbind, M_bind in H.
    destruct (exec env PulpRequestNext w) as [[[]|] w1]; [|done].
    apply IH in H. rewrite H. simpl. by rewrite app_assoc.
Qed.

Lemma run_next_prog (env : Env) (pages : list (list package_dict))
    (packages : list package_dict) (k : prog) (w : world) :
  run_prog env (next_prog pages k) w
  = (follow_next env pages packages ≫= fun _ => run_prog env k) w.
Proof.
  revert packages w. induction pages as [|p pages IH]; intros packages w.
  - done.
  - cbn [next_prog run_prog follow_next]. unfold mbind, M_bind.
    destruct (exec env PulpRequestNext w) as [[[]|] w1]; [|done].
    apply (IH (packages ++ p)).
Qed.

Lemma run_log_prog (env : Env) (entries : list log_entry) (k : prog)
    (w : world) :
  run_prog env (log_prog entries k) w
  = (for_each entries log ;; run_prog env k) w.
Proof.
  revert w. induction entries as [|l entries IH]; intros w; [done|].
  cbn [log_prog run_prog for_each]. unfold mbind, M_bind.
  cbn [log]. apply IH.
Qed.

(** A pending call cut at its requests and run by itself is the
    function of the source. *)
Lemma run_copy_prog (self : Exporter) (env : Env) (sname dname href : string)
    (src : list package_dict) (w : world) :
  run_prog env (copy_prog self env sname src dname href) w
  = copy_noarch_packages_from_x86_64_repo self env sname src dname href w.
Proof.
  unfold copy_prog, copy_noarch_packages_from_x86_64_repo,
    get_repo_latest_version, retrieve_all_packages_from_pulp.
  cbn [run_prog]. unfold mbind, M_bind, mret, M_ret.
  destruct (exec env (PulpGetRepoLatestVersion href) w) as [[[]|] w1];
    [|done].
  destruct (exec env (PulpRequestPackages _) w1) as [[[]|] w2]; [|done].
  rewrite (run_next_prog env _ (pulp_packages env
                                  (pulp_latest_version env href)).1).
  unfold mbind, M_bind.
  destruct (follow_next env _ _ w2) as [[dst|] w3] eqn:E; [|done].
  apply follow_next_result in E as ->.
  rewrite run_log_prog. unfold mbind, M_bind.
  destruct (for_each _ log w3) as [[[]|] w4]; [|done].
  destruct (_ && _); cbn [run_prog]; unfold mbind, M_bind, mret, M_ret;
    [|done].
  destruct (exec env (PulpModifyRepository _ _ _) w4) as [[[]|] w5]; [|done].
  by destruct (exec env (PulpCreateRpmPublication href) w5) as [[[]|] w6].
Qed.

Lemma run_prog_calls (env : Env) (p : prog) (w : world) :
  never_fails env →
  ∃ w', run_prog env p w = (Ok tt, w')
        ∧ trace w' = trace w ++ prog_events p.
Proof.
  intros Hok. revert w. induction p as [|e k IH|l k IH]; intros w.
  - exists w. by rewrite app_nil_r.
  - cbn [run_prog prog_events]. unfold mbind, M_bind, exec.
    rewrite Hok. destruct (IH {| owner := effect e (owner w);
                                 trace := trace w ++ [e]; logs := logs w;
                                 export_error_file := export_error_file w |})
      as (w' & -> & Ht).
    exists w'. split; [done|]. rewrite Ht. cbn [trace].
    by rewrite <- app_assoc.
  - cbn [run_prog prog_events]. unfold mbind, M_bind, log.
    destruct (IH {| owner := owner w; trace := trace w;
                    logs := logs w ++ [l];
                    export_error_file := export_error_file w |})
      as (w' & -> & Ht).
    by exists w'.
Qed.

Lemma events_delete (running : list prog) (i : nat) (p : prog) :
  running !! i = Some p →
  concat (prog_events <$> running)
  ≡ₚ prog_events p ++ concat (prog_events <$> delete i running).
Proof.
  revert i. induction running as [|q l IH]; intros [|i] H; simplify_eq/=;
    [done|].
  rewrite (IH i H). apply Permutation_app_swap_app.
Qed.

Lemma events_insert (running : list prog) (i : nat) (p : prog) :
  running !! i = Some p →
  ∀ k, concat (prog_events <$> <[i := k]> running)
       ≡ₚ prog_events k ++ concat (prog_events <$> delete i running).
Proof.
  revert i. induction running as [|q l IH]; intros [|i] H k; simplify_eq/=;
    [done|].
  rewrite (IH i H k). apply Permutation_app_swap_app.
Qed.

Lemma gather_fuel_delete (running : list prog) (i : nat) (p : prog) :
  running !! i = Some p →
  gather_fuel running = S (prog_size p + gather_fuel (delete i running)).
Proof.
  revert i. induction running as [|q l IH]; intros [|i] H; simplify_eq/=;
    [done|].
  rewrite (IH i H). lia.
Qed.

Lemma gather_fuel_insert (running : list prog) (i : nat) (p : prog) :
  running !! i = Some p →
  ∀ k, gather_fuel (<[i := k]> running)
       = S (prog_size k + gather_fuel (delete i running)).
Proof.
  revert i. induction running as [|q l IH]; intros [|i] H k; simplify_eq/=;
    [done|].
  rewrite (IH i H k). lia.
Qed.

(** The bound on the turns is never reached, whichever calls fail:
    a larger one gives the same run. *)
Lemma gather_fuel_suffices (env : Env) (fuel1 fuel2 : nat)
    (running : list prog) (raised : bool) (w : world) :
  (gather_fuel running ≤ fuel1)%nat → (gather_fuel running ≤ fuel2)%nat →
  gather_loop env fuel1 running raised w
  = gather_loop env fuel2 running raised w.
Proof.
  revert fuel2 running raised w.
  induction fuel1 as [|fuel1 IH]; intros fuel2 running raised w H1 H2.
  { destruct running; [|simpl in H1; lia].
    destruct fuel2, raised; reflexivity. }
  destruct fuel2 as [|fuel2].
  { destruct running; [|simpl in H2; lia]. destruct raised; reflexivity. }
  destruct running as [|p0 rest]; [done|].
  cbn [gather_loop].
  destruct (raised && stops env (trace w)); [done|].
  set (i := (schedule env (trace w) mod length (p0 :: rest))%nat).
  destruct ((p0 :: rest) !! i) as [p|] eqn:Ep; [|done].
  pose proof (gather_fuel_delete _ _ _ Ep) as Hd.
  pose proof (gather_fuel_insert _ _ _ Ep) as Hin.
  destruct p as [|e k|l k]; cbn [prog_size] in *.
  - apply IH; lia.
  - destruct (exec env e w) as [[?|] w'].
    + apply IH; rewrite (Hin k); lia.
    + apply IH; lia.
  - unfold mbind, M_bind, log. apply IH; rewrite (Hin k); lia.
Qed.

Lemma Forall_delete_back {A} (Q : A → Prop) (l : list A) (i : nat) (x : A) :
  l !! i = Some x → Q x → Forall Q (delete i l) → Forall Q l.
Proof.
  intros Hi Hx H. rewrite delete_take_drop in H.
  apply Forall_app in H as [H1 H2].
  rewrite <- (take_drop_middle l i x Hi).
  apply Forall_app. split; [done|]. by constructor.
Qed.

Lemma Forall_insert_back {A} (Q Q' : A → Prop) (l : list A) (i : nat)
    (x k : A) :
  l !! i = Some x → (Q' k → Q x) → (∀ y, Q' y → Q y) →
  Forall Q' (<[i := k]> l) → Forall Q l.
Proof.
  intros Hi Hx Hy H.
  rewrite insert_take_drop in H by (by eapply lookup_lt_Some).
  apply Forall_app in H as [H1 H2]. apply Forall_cons in H2 as [H2 H3].
  rewrite <- (take_drop_middle l i x Hi).
  apply Forall_app. split; [by eapply Forall_impl|].
  constructor; [by apply Hx | by eapply Forall_impl].
Qed.

(** Without failures every task runs to its end, whatever the
    schedule: the calls made are those of the tasks, and those of
    each task are made in its order. *)
Lemma gather_loop_returns (env : Env) (fuel : nat) (running : list prog)
    (w : world) :
  never_fails env → (gather_fuel running ≤ fuel)%nat →
  ∃ t w', gather_loop env fuel running false w = (Ok tt, w')
          ∧ trace w' = trace w ++ t
          ∧ t ≡ₚ concat (prog_events <$> running)
          ∧ Forall (fun p => prog_events p `sublist_of` t) running.
Proof.
  intros Hok. revert running w.
  induction fuel as [|fuel IH]; intros running w Hf.
  { destruct running; [|simpl in Hf; lia].
    exists [], w. by rewrite app_nil_r. }
  destruct running as [|p0 rest].
  { exists [], w. by rewrite app_nil_r. }
  cbn [gather_loop andb].
  set (i := (schedule env (trace w) mod length (p0 :: rest))%nat).
  assert (Hi : (i < length (p0 :: rest))%nat).
  { apply Nat.mod_upper_bound. done. }
  destruct (lookup_lt_is_Some_2 _ _ Hi) as [p Ep]. rewrite Ep.
  pose proof (gather_fuel_delete _ _ _ Ep) as Hd.
  pose proof (gather_fuel_insert _ _ _ Ep) as Hin.
  pose proof (events_delete _ _ _ Ep) as Hpd.
  pose proof (events_insert _ _ _ Ep) as Hpi.
  destruct p as [|e k|l k]; cbn [prog_size prog_events] in *.
  - destruct (IH (delete i (p0 :: rest)) w) as (t & w' & Hrun & Ht & Hp & Hs);
      [lia|].
    exists t, w'. split; [done|]. split; [done|].
    split; [by rewrite Hpd|].
    eapply Forall_delete_back; [exact Ep | apply sublist_nil_l | exact Hs].
  - unfold exec. rewrite Hok.
    match goal with |- context [gather_loop env fuel ?l false ?w1] =>
      destruct (IH l w1) as (t & w' & Hrun & Ht & Hp & Hs)
    end.
    { rewrite (Hin k). lia. }
    exists (e :: t), w'. split; [done|]. split; [|split].
    + rewrite Ht. cbn [trace]. by rewrite <- app_assoc.
    + rewrite Hpd, Hp, (Hpi k). done.
    + eapply Forall_insert_back; [exact Ep | | | exact Hs]; cbn beta.
      * cbn [prog_events]. apply sublist_skip.
      * intros y. apply sublist_cons.
  - unfold mbind, M_bind, log.
    match goal with |- context [gather_loop env fuel ?l false ?w1] =>
      destruct (IH l w1) as (t & w' & Hrun & Ht & Hp & Hs)
    end.
    { rewrite (Hin k). lia. }
    exists t, w'. split; [done|]. split; [done|].
    split; [by rewrite Hpd, Hp, (Hpi k)|].
    eapply Forall_insert_back; [exact Ep | | | exact Hs]; cbn beta;
      [by cbn [prog_events] | done].
Qed.

Lemma returns_gather (env : Env) (progs : list prog) :
  never_fails env → returns (gather env progs) tt.
Proof.
  intros Hok w.
  destruct (gather_loop_returns env (gather_fuel progs) progs w Hok)
    as (t & w' & H & _); [done|].
  by exists w'.
Qed.

(** ** The export to the filesystem, without failures *)

Lemma returns_create_exporters (env : Env) (repositories : list Repository)
    (export_data : list repo_exporter_dict) :
  never_fails env →
  returns (create_exporters env repositories export_data)
    (export_data
     ++ ((fun repo =>
            {| exporter_repo_id := repo_id repo;
               exporter_repo_latest_version :=
                 pulp_latest_version env (repo_pulp_href repo);
               exporter_exporter_name := exporter_name repo;
               exporter_export_path := export_path_of env repo;
               exporter_href :=
                 pulp_exporter_href env (exporter_name repo)
                   (export_path_of env repo) |}) <$> repositories)).
Proof.
  intros Hok. revert export_data.
  induction repositories as [|repo rest IH]; intros export_data.
  - rewrite app_nil_r. apply returns_ret.
  - cbn [create_exporters].
    eapply returns_bind; [by apply returns_exec|].
    eapply returns_bind; [by apply returns_get_repo_latest_version|].
    specialize (IH (export_data
      ++ [ {| exporter_repo_id := repo_id repo;
              exporter_repo_latest_version :=
                pulp_latest_version env (repo_pulp_href repo);
              exporter_exporter_name := exporter_name repo;
              exporter_export_path := export_path_of env repo;
              exporter_href :=
                pulp_exporter_href env (exporter_name repo)
                  (export_path_of env repo) |} ])).
    rewrite <- app_assoc in IH. exact IH.
Qed.

Lemma returns_export_exporters (env : Env)
    (exporters : list repo_exporter_dict) (paths : list string) :
  never_fails env →
  returns (export_exporters env exporters paths)
    (paths ++ (exporter_export_path <$> exporters)).
Proof.
  intros Hok. revert paths.
  induction exporters as [|x rest IH]; intros paths.
  - rewrite app_nil_r. apply returns_ret.
  - cbn [export_exporters].
    eapply returns_bind; [by apply returns_exec|].
    specialize (IH (paths ++ [exporter_export_path x])).
    rewrite <- app_assoc in IH. exact IH.
Qed.

Lemma returns_export_repositories (env : Env) (repo_ids : list Z) :
  never_fails env →
  returns (export_repositories env repo_ids) (exported_paths env repo_ids).
Proof.
  intros Hok. unfold export_repositories, create_filesystem_exporters.
  eapply returns_bind; [by apply returns_create_exporters|].
  pose proof (returns_export_exporters env
                ([] ++ ((fun repo =>
                   {| exporter_repo_id := repo_id repo;
                      exporter_repo_latest_version :=
                        pulp_latest_version env (repo_pulp_href repo);
                      exporter_exporter_name := exporter_name repo;
                      exporter_export_path := export_path_of env repo;
                      exporter_href :=
                        pulp_exporter_href env (exporter_name repo)
                          (export_path_of env repo) |})
                 <$> db_repositories env repo_ids)) [] Hok) as H.
  unfold exported_paths. cbn [app] in H.
  rewrite <- list_fmap_compose in H. exact H.
Qed.

Lemma create_exporters_run (env : Env) (repositories : list Repository)
    (export_data : list repo_exporter_dict) (w : world) :
  never_fails env →
  trace (create_exporters env repositories export_data w).2
  = trace w
    ++ concat ((fun repo =>
                  [PulpCreateFilesystemExporter (exporter_name repo)
                     (export_path_of env repo);
                   PulpGetRepoLatestVersion (repo_pulp_href repo)])
               <$> repositories).
Proof.
  intros Hok. revert export_data w.
  induction repositories as [|repo rest IH]; intros export_data w.
  - cbn. by rewrite app_nil_r.
  - cbn [create_exporters].
    do 3 (unfold mbind, M_bind, get_repo_latest_version, exec, mret, M_ret;
          cbn beta; rewrite ?Hok; cbn [trace]).
    rewrite IH. cbn [trace].
    rewrite fmap_cons. cbn [concat app]. by rewrite <- !app_assoc.
Qed.

Lemma export_exporters_run (env : Env) (exporters : list repo_exporter_dict)
    (paths : list string) (w : world) :
  never_fails env →
  trace (export_exporters env exporters paths w).2
  = trace w
    ++ ((fun x => PulpExportToFilesystem (exporter_href x)
                    (exporter_repo_latest_version x)) <$> exporters).
Proof.
  intros Hok. revert paths w.
  induction exporters as [|x rest IH]; intros paths w.
  - cbn. by rewrite app_nil_r.
  - cbn [export_exporters]. unfold mbind, M_bind, exec.
    rewrite Hok. rewrite IH. cbn [trace].
    rewrite fmap_cons. by rewrite <- app_assoc.
Qed.

(** Without failures the export makes the calls of [export_calls]. *)
Lemma export_repositories_run (env : Env) (repo_ids : list Z) (w : world) :
  never_fails env →
  (export_repositories env repo_ids w).1 = Ok (exported_paths env repo_ids)
  ∧ trace (export_repositories env repo_ids w).2
    = trace w ++ export_calls env repo_ids.
Proof.
  intros Hok. split.
  { destruct (returns_export_repositories env repo_ids Hok w) as (w' & ->).
    done. }
  unfold export_repositories, create_filesystem_exporters.
  pose proof (create_exporters_run env (db_repositories env repo_ids) [] w
                Hok) as Hc.
  destruct (returns_create_exporters env (db_repositories env repo_ids) []
              Hok w) as (w1 & E).
  unfold mbind, M_bind. rewrite E in Hc |- *. cbn [snd] in Hc.
  rewrite export_exporters_run by done. rewrite Hc.
  unfold export_calls. rewrite <- app_assoc. f_equal. f_equal.
  cbn [app]. by rewrite <- list_fmap_compose.
Qed.

(** ** The export of platforms, without failures *)

Lemma returns_try_finally {A} (body : M A) (fin : M unit) (a : A) :
  returns body a → returns fin tt → returns (try_finally body fin) a.
Proof.
  intros Hb Hf w. unfold try_finally.
  destruct (Hb w) as (w1 & ->). destruct (Hf w1) as (w2 & ->). by eexists.
Qed.

Lemma returns_check_rpms_signature (self : Exporter) (env : Env)
    (path : string) (sign_keys : list SignKey) :
  never_fails env → returns (check_rpms_signature self env path sign_keys) tt.
Proof.
  intros H. eapply returns_bind; [by apply returns_exec|].
  intros w. by eexists.
Qed.

Lemma returns_harden_exported_path (self : Exporter) (env : Env)
    (sign_keys : list SignKey) (path : string) :
  never_fails env →
  returns (harden_exported_path self env sign_keys path) tt.
Proof.
  intros H. unfold harden_exported_path.
  destruct (negb _); [apply returns_log|].
  apply returns_try_finally; [|by apply returns_exec].
  eapply returns_bind; [by apply returns_exec|].
  eapply returns_bind; [by apply returns_exec|].
  by apply returns_check_rpms_signature.
Qed.

Lemma returns_export_platforms (self : Exporter) (env : Env)
    (repo_ids : option (list Z)) (arches : option (list string))
    (db_platforms : list Platform) (st : export_state) :
  never_fails env →
  returns (export_platforms self env repo_ids arches db_platforms st)
    (fold_left (export_state_after env repo_ids arches) db_platforms st).
Proof.
  intros H. revert st.
  induction db_platforms as [|pl ps IH]; intros st; simpl.
  - apply returns_ret.
  - eapply returns_bind; [|apply IH].
    unfold export_platform.
    eapply returns_bind; [by apply returns_export_repositories|].
    eapply returns_bind.
    { apply returns_for_each. intros x _.
      by apply returns_harden_exported_path. }
    eapply returns_bind; [apply returns_log|]. apply returns_ret.
Qed.

Lemma returns_build_tasks (env : Env)
    (sources dests : list (string * (string * bool))) :
  never_fails env →
  returns (build_tasks env sources dests) (tasks_of env sources dests).
Proof.
  intros H. induction sources as [|s sources IH]; simpl.
  - apply returns_ret.
  - eapply returns_bind; [by apply returns_get_repo_latest_version|].
    eapply returns_bind; [by apply returns_retrieve_all_packages_from_pulp|].
    eapply returns_bind; [apply IH | apply returns_ret].
Qed.

Lemma returns_prepare_and_execute (self : Exporter) (env : Env)
    (X P : pydict (string * bool)) :
  never_fails env →
  returns (prepare_and_execute_async_tasks self env X P) tt.
Proof.
  intros H. unfold prepare_and_execute_async_tasks.
  destruct (negb _); [apply returns_log|].
  eapply returns_bind; [by apply returns_build_tasks|].
  eapply returns_bind; [apply returns_log|].
  by apply returns_gather.
Qed.

(** ** Pairing of repositories *)

(** The dictionary after [d[k] = v]. *)
Lemma pydict_lookup_insert_eq {V} (d : pydict V) (k : string) (v : V) :
  <[k := v]> d !! k = Some v.
Proof.
  destruct d as [l]. unfold insert, pydict_insert, lookup, pydict_lookup.
  cbn [items]. induction l as [|[k' v'] l IH]; cbn.
  - by rewrite String.eqb_refl.
  - destruct (String.eqb k' k) eqn:E; cbn.
    + by rewrite String.eqb_refl.
    + by rewrite E.
Qed.

Lemma pydict_lookup_insert_ne {V} (d : pydict V) (k k' : string) (v : V) :
  k ≠ k' → <[k := v]> d !! k' = d !! k'.
Proof.
  intros Hne. destruct d as [l].
  unfold insert, pydict_insert, lookup, pydict_lookup.
  cbn [items]. induction l as [|[k0 v0] l IH]; cbn.
  - by apply String.eqb_neq in Hne as ->.
  - destruct (String.eqb k0 k) eqn:E; cbn.
    + apply String.eqb_eq in E as ->.
      by apply String.eqb_neq in Hne as ->.
    + by rewrite IH.
Qed.

Lemma elem_of_items_insert {V} (d : pydict V) (k n : string) (v x : V) :
  (n, x) ∈ items (<[k := v]> d) → (n = k ∧ x = v) ∨ (n, x) ∈ items d.
Proof.
  destruct d as [l]. unfold insert, pydict_insert. cbn [items].
  induction l as [|[k0 v0] l IH]; cbn.
  - intros H. apply list_elem_of_singleton in H. left. by simplify_eq.
  - destruct (String.eqb k0 k).
    + intros H. apply elem_of_cons in H as [H | H].
      * left. by simplify_eq.
      * right. by apply list_elem_of_further.
    + intros H. apply elem_of_cons in H as [H | H].
      * right. rewrite H. apply list_elem_of_here.
      * destruct (IH H) as [? | ?]; [by left|].
        right. by apply list_elem_of_further.
Qed.

(** The value under a key is that of an item. *)
Lemma lookup_items {V} (d : pydict V) (k : string) (v : V) :
  d !! k = Some v → (k, v) ∈ items d.
Proof.
  destruct d as [l]. unfold lookup, pydict_lookup. cbn [items].
  induction l as [|[k0 v0] l IH]; cbn; [done|].
  destruct (String.eqb k0 k) eqn:E.
  - apply String.eqb_eq in E as ->. intros [= ->]. apply list_elem_of_here.
  - intros H. by apply list_elem_of_further, IH.
Qed.

(** A key entered again keeps its place. *)
Lemma pydict_samples :
  items (<["a" := 3%Z]> (<["b" := 2%Z]> (<["a" := 1%Z]> ∅)))
  = [("a", 3%Z); ("b", 2%Z)]
  ∧ (<["b" := 2%Z]> (<["a" := 1%Z]> ∅) : pydict Z) !! "b" = Some 2%Z
  ∧ (<["a" := 1%Z]> ∅ : pydict Z) !! "b" = None.
Proof. split; [|split]; reflexivity. Qed.

(** The keys of a dictionary filled from the empty one are distinct. *)
Lemma items_set_keys {V} (l : list (string * V)) (k : string) (v : V) :
  NoDup l.*1 → NoDup (items_set k v l).*1
  ∧ ∀ n, n ∈ (items_set k v l).*1 → n = k ∨ n ∈ l.*1.
Proof.
  induction l as [|[k0 v0] l IH]; cbn.
  - intros _. split; [apply NoDup_singleton|].
    intros n H. apply list_elem_of_singleton in H. by left.
  - intros H. apply NoDup_cons in H as [H1 H2].
    destruct (String.eqb k0 k) eqn:E; cbn.
    + apply String.eqb_eq in E as ->. split; [by apply NoDup_cons|].
      intros n H. by right.
    + apply String.eqb_neq in E. destruct (IH H2) as [IH1 IH2].
      split.
      * apply NoDup_cons. split; [|done]. intros H.
        destruct (IH2 _ H) as [? | ?]; [by subst | done].
      * intros n H. apply elem_of_cons in H as [-> | H].
        -- right. apply list_elem_of_here.
        -- destruct (IH2 _ H) as [? | ?]; [by left|].
           right. by apply list_elem_of_further.
Qed.

(** A dictionary filled by a loop that enters [val x] under [key x]
    for the elements that satisfy [cond]. *)
Section DictFold.
Context {A S : Type}.
Variables (key : A → string) (val : A → string * bool) (cond : A → bool)
          (step : S → A → S) (proj : S → pydict (string * bool)).
Hypothesis Hstep : ∀ s x,
  proj (step s x)
  = if cond x then <[key x := val x]> (proj s) else proj s.

Lemma dict_fold_ext (l : list A) (s1 s2 : S) :
  proj s1 = proj s2 → proj (fold_left step l s1) = proj (fold_left step l s2).
Proof.
  revert s1 s2. induction l as [|x l IH]; intros s1 s2 E; simpl; [done|].
  apply IH. by rewrite !Hstep, E.
Qed.

Lemma dict_fold_sound (l : list A) (s : S) (n : string) (v : string * bool) :
  (n, v) ∈ items (proj (fold_left step l s)) →
  (n, v) ∈ items (proj s)
  ∨ ∃ x, x ∈ l ∧ cond x = true ∧ key x = n ∧ val x = v.
Proof.
  revert s. induction l as [|x l IH]; intros s H; simpl in H; [by left|].
  destruct (IH _ H) as [H' | (y & Hy & ?)].
  - rewrite Hstep in H'. destruct (cond x) eqn:Hc; [|by left].
    apply elem_of_items_insert in H' as [[-> ->] | H']; [|by left].
    right. exists x. split; [apply list_elem_of_here | done].
  - right. exists y. split; [by apply list_elem_of_further | done].
Qed.

Lemma dict_fold_keys (l : list A) (s : S) :
  NoDup (items (proj s)).*1 → NoDup (items (proj (fold_left step l s))).*1.
Proof.
  revert s. induction l as [|x l IH]; intros s H; simpl; [done|].
  apply IH. rewrite Hstep. destruct (cond x); [|done].
  by apply items_set_keys.
Qed.

Lemma dict_fold_preserve (l : list A) (s : S) (n : string)
    (v : string * bool) :
  proj s !! n = Some v →
  (∀ x, x ∈ l → cond x = true → key x = n → val x = v) →
  proj (fold_left step l s) !! n = Some v.
Proof.
  revert s. induction l as [|x l IH]; intros s H Hl; simpl; [done|].
  apply IH.
  - rewrite Hstep. destruct (cond x) eqn:Hc; [|done].
    destruct (decide (key x = n)) as [E | Hne].
    + rewrite <- (Hl x (list_elem_of_here _ _) Hc E), <- E.
      apply pydict_lookup_insert_eq.
    + by rewrite pydict_lookup_insert_ne.
  - intros y Hy. by apply Hl, list_elem_of_further.
Qed.

Lemma dict_fold_complete (l : list A) (s : S) (x : A) :
  x ∈ l → cond x = true →
  (∀ y, y ∈ l → cond y = true → key y = key x → val y = val x) →
  proj (fold_left step l s) !! key x = Some (val x).
Proof.
  intros Hx Hc Hl.
  apply list_elem_of_split in Hx as (l1 & l2 & ->).
  rewrite fold_left_app. simpl. apply dict_fold_preserve.
  - rewrite Hstep, Hc. apply pydict_lookup_insert_eq.
  - intros y Hy. apply Hl, elem_of_app. right.
    by apply list_elem_of_further.
Qed.

End DictFold.

Section Selection.
Variables (repo_ids : option (list Z)) (arches : option (list string)).

Lemma select_repo_x86_64 (s : selection) (r : Repository) :
  repos_x86_64 (select_repo repo_ids arches s r)
  = if enters repo_ids "x86_64" r
    then <[get_full_repo_name r := (repo_pulp_href r, repo_debug r)]>
           (repos_x86_64 s)
    else repos_x86_64 s.
Proof.
  unfold select_repo, enters. destruct (skipped repo_ids r); [done|].
  simpl. by destruct (String.eqb _ _).
Qed.

Lemma select_repo_ppc64le (s : selection) (r : Repository) :
  repos_ppc64le (select_repo repo_ids arches s r)
  = if enters repo_ids "ppc64le" r
    then <[get_full_repo_name r := (repo_pulp_href r, repo_debug r)]>
           (repos_ppc64le s)
    else repos_ppc64le s.
Proof.
  unfold select_repo, enters. destruct (skipped repo_ids r); [done|].
  simpl. by destruct (String.eqb _ _).
Qed.

Lemma enters_iff (arch : string) (r : Repository) :
  enters repo_ids arch r = true ↔ selected repo_ids r ∧ repo_arch r = arch.
Proof.
  unfold enters, selected. rewrite andb_true_iff, negb_true_iff.
  by rewrite String.eqb_eq.
Qed.

End Selection.

(** The tasks are the pairs of a source and a destination entry with
    the same debug flag. *)
Lemma elem_of_tasks_of (env : Env)
    (sources dests : list (string * (string * bool))) (t : task) :
  t ∈ tasks_of env sources dests
  ↔ ∃ s d, s ∈ sources ∧ d ∈ dests ∧ s.2.2 = d.2.2
           ∧ t = {| source_repo_name := s.1;
                    source_repo_packages :=
                      listing env (pulp_latest_version env s.2.1);
                    destination_repo_name := d.1;
                    destination_repo_href := d.2.1 |}.
Proof.
  unfold tasks_of, tasks_of_source. rewrite list_elem_of_In, in_flat_map.
  split.
  - intros (s & Hs & Ht). apply list_elem_of_In in Hs, Ht.
    apply list_elem_of_omap in Ht as (d & Hd & Ht).
    destruct (Bool.eqb s.2.2 d.2.2) eqn:E; [|done].
    apply Bool.eqb_prop in E. inversion Ht. by exists s, d.
  - intros (s & d & Hs & Hd & E & ->). exists s.
    split; [by apply list_elem_of_In|].
    apply list_elem_of_In, list_elem_of_omap. exists d. split; [done|].
    by rewrite E, Bool.eqb_reflx.
Qed.

(** The dictionaries after the loop over the platforms are those of
    one loop over all their repositories. *)
Lemma export_platforms_dicts (self : Exporter) (env : Env)
    (repo_ids : option (list Z)) (arches : option (list string))
    (db_platforms : list Platform) (st st' : export_state) (w w' : world) :
  export_platforms self env repo_ids arches db_platforms st w = (Ok st', w') →
  let s := fold_left (select_repo repo_ids arches) (all_repos db_platforms)
             {| repos_x86_64 := all_x86_64 st;
                repos_ppc64le := all_ppc64le st;
                platform_paths := []; repo_ids_to_export := [] |} in
  all_x86_64 st' = repos_x86_64 s ∧ all_ppc64le st' = repos_ppc64le s.
Proof.
  revert st w. induction db_platforms as [|p ps IH]; intros st w H.
  - inversion H; subst. done.
  - simpl in H. unfold mbind, M_bind in H.
    destruct (export_platform self env repo_ids arches st p w)
      as [[st1|] w1] eqn:E; [|done].
    unfold export_platform, mbind, M_bind in E.
    destruct (export_repositories env _ w) as [[paths|] w0]; [|done].
    destruct (for_each _ _ w0) as [[[]|] w2]; [|done].
    simpl in E. inversion E; subst st1 w1. clear E.
    destruct (IH _ _ H) as [H1 H2]. cbn [all_x86_64 all_ppc64le] in H1, H2.
    unfold all_repos. cbn [fmap list_fmap concat].
    rewrite fold_left_app. fold (all_repos ps). cbv zeta.
    rewrite H1, H2. split.
    + apply (dict_fold_ext _ _ _ _ _ (select_repo_x86_64 repo_ids arches)).
      done.
    + apply (dict_fold_ext _ _ _ _ _ (select_repo_ppc64le repo_ids arches)).
      done.
Qed.

Lemma elem_of_all_repos (db_platforms : list Platform) (pl : Platform)
    (r : Repository) :
  pl ∈ db_platforms → r ∈ platform_repos pl → r ∈ all_repos db_platforms.
Proof.
  intros Hpl Hr. unfold all_repos.
  apply list_elem_of_In, in_concat. exists (platform_repos pl).
  split; [|by apply list_elem_of_In].
  apply list_elem_of_In, list_elem_of_fmap. by exists pl.
Qed.

Section Pairing.
Variables (env : Env) (repo_ids : option (list Z))
          (arches : option (list string)) (db_platforms : list Platform).

Abbreviation X := (pulp_dicts repo_ids arches db_platforms).1.
Abbreviation P := (pulp_dicts repo_ids arches db_platforms).2.

(** An entry of a dictionary is a selected repository of its
    architecture. *)
Lemma entry_x86_64 (n : string) (v : string * bool) :
  (n, v) ∈ items X →
  ∃ r, r ∈ all_repos db_platforms ∧ selected repo_ids r
       ∧ repo_arch r = "x86_64" ∧ get_full_repo_name r = n
       ∧ (repo_pulp_href r, repo_debug r) = v.
Proof.
  unfold pulp_dicts. cbn [fst]. intros H.
  apply (dict_fold_sound _ _ _ _ _ (select_repo_x86_64 repo_ids arches))
    in H as [H | (r & Hr & Hc & Hk & Hv)]; [by apply elem_of_nil in H|].
  apply enters_iff in Hc as [Hs Ha]. by exists r.
Qed.

Lemma entry_ppc64le (n : string) (v : string * bool) :
  (n, v) ∈ items P →
  ∃ r, r ∈ all_repos db_platforms ∧ selected repo_ids r
       ∧ repo_arch r = "ppc64le" ∧ get_full_repo_name r = n
       ∧ (repo_pulp_href r, repo_debug r) = v.
Proof.
  unfold pulp_dicts. cbn [snd]. intros H.
  apply (dict_fold_sound _ _ _ _ _ (select_repo_ppc64le repo_ids arches))
    in H as [H | (r & Hr & Hc & Hk & Hv)]; [by apply elem_of_nil in H|].
  apply enters_iff in Hc as [Hs Ha]. by exists r.
Qed.

(** A selected repository whose name is unambiguous is the entry
    under its name. *)
Lemma x86_64_entered (r : Repository) :
  r ∈ all_repos db_platforms → selected repo_ids r →
  repo_arch r = "x86_64" →
  unambiguous repo_ids (all_repos db_platforms) r →
  X !! get_full_repo_name r = Some (repo_pulp_href r, repo_debug r).
Proof.
  intros Hr Hs Ha Hu. unfold pulp_dicts. cbn [fst].
  apply (dict_fold_complete get_full_repo_name
           (fun r => (repo_pulp_href r, repo_debug r))
           (enters repo_ids "x86_64") _ _
           (select_repo_x86_64 repo_ids arches)); [done | |].
  - by apply enters_iff.
  - intros y Hy Hc Hk. apply enters_iff in Hc as [Hys Hya].
    destruct (Hu y Hy Hys) as [-> ->]; [congruence | done | done].
Qed.

Lemma ppc64le_entered (r : Repository) :
  r ∈ all_repos db_platforms → selected repo_ids r →
  repo_arch r = "ppc64le" →
  unambiguous repo_ids (all_repos db_platforms) r →
  P !! get_full_repo_name r = Some (repo_pulp_href r, repo_debug r).
Proof.
  intros Hr Hs Ha Hu. unfold pulp_dicts. cbn [snd].
  apply (dict_fold_complete get_full_repo_name
           (fun r => (repo_pulp_href r, repo_debug r))
           (enters repo_ids "ppc64le") _ _
           (select_repo_ppc64le repo_ids arches)); [done | |].
  - by apply enters_iff.
  - intros y Hy Hc Hk. apply enters_iff in Hc as [Hys Hya].
    destruct (Hu y Hy Hys) as [-> ->]; [congruence | done | done].
Qed.

End Pairing.

(** The calls of a task run by itself, without failures, are those of
    the coroutine cut at its requests. *)
Lemma calls_alone_task (self : Exporter) (env : Env) (x : task) :
  never_fails env →
  calls_alone (run_task self env x) = prog_events (task_prog self env x).
Proof.
  intros Hok. unfold calls_alone, run_task, task_prog.
  rewrite <- run_copy_prog.
  destruct (run_prog_calls env
              (copy_prog self env (source_repo_name x)
                 (source_repo_packages x) (destination_repo_name x)
                 (destination_repo_href x)) empty_world Hok)
    as (w' & Hr & Ht).
  rewrite Hr. cbn [snd]. by rewrite Ht.
Qed.

(** The pairing and reconciliation without failures: nothing is
    called when the exporter does not copy noarch packages; otherwise
    the sources are listed, which gives the tasks, and the calls made
    after that are those of the tasks run by themselves, those of
    each task in its order. *)
Lemma prepare_run (self : Exporter) (env : Env)
    (X P : pydict (string * bool)) (w : world) :
  never_fails env →
  let tasks := tasks_of env (items X) (items P) in
  let listed := build_tasks env (items X) (items P) w in
  let run := prepare_and_execute_async_tasks self env X P w in
  run.1 = Ok tt
  ∧ (copy_noarch_packages self = false → trace run.2 = trace w)
  ∧ (copy_noarch_packages self = true →
     listed.1 = Ok tasks
     ∧ ∃ t, trace run.2 = trace listed.2 ++ t
            ∧ t ≡ₚ concat ((fun x => calls_alone (run_task self env x))
                           <$> tasks)
            ∧ Forall (fun x => calls_alone (run_task self env x)
                               `sublist_of` t) tasks).
Proof.
  intros Hok tasks listed run. subst run listed.
  destruct (returns_build_tasks env (items X) (items P) Hok w)
    as (w2 & Hbuild).
  fold tasks in Hbuild. rewrite Hbuild. cbn [fst snd].
  unfold prepare_and_execute_async_tasks.
  destruct (copy_noarch_packages self); cbn [negb].
  - unfold mbind, M_bind. rewrite Hbuild. cbn [log].
    match goal with |- context [gather env ?ps ?w3] =>
      destruct (gather_loop_returns env (gather_fuel ps) ps w3 Hok)
        as (t & w4 & Hg & Ht & Hp & Hs); [done|];
      change (gather env ps w3) with (gather_loop env (gather_fuel ps) ps
                                        false w3)
    end.
    rewrite Hg. cbn [fst snd].
    split; [done|]. split; [done|]. intros _. split; [done|].
    exists t. split; [exact Ht|]. split.
    + rewrite Hp, <- list_fmap_compose.
      erewrite list_fmap_ext; [reflexivity|].
      intros i x _. cbn. by rewrite calls_alone_task.
    + apply Forall_fmap in Hs. eapply Forall_impl; [exact Hs|].
      intros x Hx. cbn in Hx. by rewrite calls_alone_task.
  - cbn [log fst snd]. split; [done|]. split; [done|]. done.
Qed.




(** The check of a distribution, for comparison: there the destinations
    are all the repositories that are neither [src] nor [x86_64], under
    their plain names. *)
Lemma distribution_pairing (env : Env) (repositories : list Repository)
    (r d : Repository) :
  r ∈ repositories → d ∈ repositories →
  repo_arch r = "x86_64" →
  repo_arch d ≠ "x86_64" → repo_arch d ≠ "src" →
  repo_debug r = repo_debug d →
  (∀ r', r' ∈ repositories → repo_arch r' = "x86_64" →
         repo_name r' = repo_name r →
         repo_pulp_href r' = repo_pulp_href r
         ∧ repo_debug r' = repo_debug r) →
  (∀ d', d' ∈ repositories →
         repo_arch d' ≠ "x86_64" → repo_arch d' ≠ "src" →
         repo_name d' = repo_name d →
         repo_pulp_href d' = repo_pulp_href d
         ∧ repo_debug d' = repo_debug d) →
  {| source_repo_name := repo_name r;
     source_repo_packages :=
       listing env (pulp_latest_version env (repo_pulp_href r));
     destination_repo_name := repo_name d;
     destination_repo_href := repo_pulp_href d |}
  ∈ tasks_of env (items (distribution_dicts repositories).1)
      (items (distribution_dicts repositories).2).
Proof.
  intros Hr Hd Hra Hda Hds Hdebug Hru Hdu.
  apply elem_of_tasks_of.
  exists (repo_name r, (repo_pulp_href r, repo_debug r)),
         (repo_name d, (repo_pulp_href d, repo_debug d)).
  split; [|split; [|done]]; apply lookup_items;
    unfold distribution_dicts.
  - apply (dict_fold_complete repo_name
             (fun r => (repo_pulp_href r, repo_debug r))
             (fun r => negb (String.eqb (repo_arch r) "src")
                       && String.eqb (repo_arch r) "x86_64")
             _ fst); [| done | by rewrite Hra |].
    + intros s x. destruct (String.eqb (repo_arch x) "src"); [done|].
      by destruct (String.eqb (repo_arch x) "x86_64").
    + intros y Hy Hc Hk. apply andb_true_iff in Hc as [_ Hc].
      apply String.eqb_eq in Hc. by destruct (Hru y Hy Hc Hk) as [-> ->].
  - apply String.eqb_neq in Hda, Hds.
    apply (dict_fold_complete repo_name
             (fun r => (repo_pulp_href r, repo_debug r))
             (fun r => negb (String.eqb (repo_arch r) "src")
                       && negb (String.eqb (repo_arch r) "x86_64"))
             _ snd); [| done | by rewrite Hda, Hds |].
    + intros s x. destruct (String.eqb (repo_arch x) "src"); [done|].
      by destruct (String.eqb (repo_arch x) "x86_64").
    + intros y Hy Hc Hk. apply andb_true_iff in Hc as [Hc1 Hc2].
      apply negb_true_iff, String.eqb_neq in Hc1, Hc2.
      by destruct (Hdu y Hy Hc2 Hc1 Hk) as [-> ->].
Qed.

(** * Further properties *)

(** ** Signature verification, case by case *)

(** X1. An entry of the directory whose path does not end in [.rpm] is
    skipped: it is in none of the sets. *)
Theorem non_rpm_entry_ignored (self : Exporter) (env : Env)
    (repository_path : string) (sign_keys : list SignKey)
    (package : string) :
  package ∈ listdir env repository_path →
  let package_path := PyStr.path_join repository_path package in
  let R := scan_packages self env repository_path sign_keys in
  PyStr.endswith package_path ".rpm" = false →
  (package_path ∉ errored_packages R)
  ∧ (package_path ∉ no_signature_packages R)
  ∧ (∀ k, no_space k →
       wrong_entry package_path k ∉ wrong_signature_packages R).
Proof.
  intros Hin package_path R Hrpm.
  destruct (batch_is_alone self env repository_path
              ((fun i => PyStr.lower (keyid i)) <$> sign_keys)
              _ _ Hin) as (He & Hn & Hw).
  fold package_path in He, Hn, Hw.
  change (fold_left _ _ _) with R in He, Hn, Hw.
  assert (Ha : scan_package self env repository_path
                 ((fun i => PyStr.lower (keyid i)) <$> sign_keys)
                 empty_report package
               = add_log (LogSkippingNonRpm package_path) empty_report).
  { unfold scan_package. fold package_path. by rewrite Hrpm. }
  rewrite Ha in He, Hn, Hw. cbn in He, Hn, Hw.
  split; [|split].
  - rewrite He. apply not_elem_of_empty.
  - rewrite Hn. apply not_elem_of_empty.
  - intros k Hk. rewrite (Hw k Hk). apply not_elem_of_empty.
Qed.

Lemma non_rpm_entry_ignored_witness :
  "/r/notes.txt"
  ∉ errored_packages
      (scan_packages (exporter_of ∅) four_files_env "/r" [key_11112222]).
Proof.
  assert (Hin : "notes.txt" ∈ listdir four_files_env "/r") by by_compute.
  exact (proj1 (non_rpm_entry_ignored (exporter_of ∅) four_files_env "/r"
                  [key_11112222] "notes.txt" Hin eq_refl)).
Defined.

(** X2. A scanned package file is in the inspection-failed set exactly
    when [rpm -qip] exits with a non-zero code, or exits with zero and
    prints a signature line in which the pattern finds no key id. *)
Theorem errored_iff_inspection_failed (self : Exporter) (env : Env)
    (repository_path : string) (sign_keys : list SignKey)
    (package : string) :
  package ∈ listdir env repository_path →
  let package_path := PyStr.path_join repository_path package in
  PyStr.endswith package_path ".rpm" = true →
  let R := scan_packages self env repository_path sign_keys in
  package_path ∈ errored_packages R
  ↔ (rpm_qip env package_path).1.1 ≠ 0%Z
    ∨ ∃ line, find_signature_line (rpm_qip env package_path).1.2 = Some line
              ∧ Re.search signature_regex line = None.
Proof.
  intros Hin package_path Hrpm R.
  destruct (batch_is_alone self env repository_path
              ((fun i => PyStr.lower (keyid i)) <$> sign_keys)
              _ _ Hin) as (He & _).
  fold package_path in He. change (fold_left _ _ _) with R in He.
  rewrite He. clear He. unfold scan_package. fold package_path.
  rewrite Hrpm. cbn [negb].
  destruct (rpm_qip env package_path) as [[exit_code out] err]. cbn [fst snd].
  destruct (exit_code =? 0)%Z eqn:Hex; cbn [negb].
  2:{ apply Z.eqb_neq in Hex. cbn [add_errored errored_packages empty_report].
      split; [by left|]. intros _. apply elem_of_union. right.
      by apply elem_of_singleton. }
  apply Z.eqb_eq in Hex as ->.
  destruct (find_signature_line out) as [line|] eqn:Hline.
  2:{ cbn. split; [by intros ?%elem_of_empty|].
      intros [? | (l & ? & _)]; done. }
  rewrite (find_signature_line_nonempty _ _ Hline).
  destruct (Re.search signature_regex line) as [key|] eqn:Hkey.
  - split.
    + destruct (PyStr.contains _ _); [|destruct (negb (bool_decide _))];
        cbn; by intros ?%elem_of_empty.
    + intros [? | (l & E & Hn)]; [done|]. inversion E; subst. congruence.
  - cbn [add_errored errored_packages empty_report]. split.
    + intros _. right. by exists line.
    + intros _. apply elem_of_union. right. by apply elem_of_singleton.
Qed.

Lemma errored_iff_inspection_failed_witness :
  "/r/e.rpm"
  ∈ errored_packages
      (scan_packages (exporter_of ∅) four_files_env "/r" [key_11112222]).
Proof.
  assert (Hin : "e.rpm" ∈ listdir four_files_env "/r") by by_compute.
  apply (proj2 (errored_iff_inspection_failed (exporter_of ∅) four_files_env
                  "/r" [key_11112222] "e.rpm" Hin eq_refl)).
  left. vm_compute. discriminate.
Defined.

(** X3. A scanned package file has the entry [path key] in the
    wrong-signature set exactly when the inspection succeeded, the
    pattern found a key id in the signature line, [key] is that key id
    in lower case, it does not contain [none], and it is not the
    lower-cased id of one of the sign keys. *)
Theorem wrong_iff_unauthorized_key (self : Exporter) (env : Env)
    (repository_path : string) (sign_keys : list SignKey)
    (package key : string) :
  package ∈ listdir env repository_path →
  let package_path := PyStr.path_join repository_path package in
  PyStr.endswith package_path ".rpm" = true →
  no_space key →
  let R := scan_packages self env repository_path sign_keys in
  wrong_entry package_path key ∈ wrong_signature_packages R
  ↔ ∃ out err line k,
      rpm_qip env package_path = (0%Z, out, err)
      ∧ find_signature_line out = Some line
      ∧ Re.search signature_regex line = Some (Some k)
      ∧ key = PyStr.lower k
      ∧ PyStr.contains "none" key = false
      ∧ (key ∉ (fun i => PyStr.lower (keyid i)) <$> sign_keys).
Proof.
  intros Hin package_path Hrpm Hns R.
  destruct (batch_is_alone self env repository_path
              ((fun i => PyStr.lower (keyid i)) <$> sign_keys)
              _ _ Hin) as (_ & _ & Hw).
  fold package_path in Hw. change (fold_left _ _ _) with R in Hw.
  rewrite (Hw key Hns). clear Hw. unfold scan_package. fold package_path.
  rewrite Hrpm. cbn [negb].
  destruct (rpm_qip env package_path) as [[exit_code out] err].
  destruct (exit_code =? 0)%Z eqn:Hex; cbn [negb].
  2:{ cbn. split; [by intros ?%elem_of_empty|].
      intros (out' & err' & line & k & E & _). inversion E; subst. done. }
  apply Z.eqb_eq in Hex as ->.
  destruct (find_signature_line out) as [line|] eqn:Hline.
  2:{ cbn. split; [by intros ?%elem_of_empty|].
      intros (out' & err' & line & k & E & E' & _). inversion E; subst.
      congruence. }
  rewrite (find_signature_line_nonempty _ _ Hline).
  destruct (Re.search signature_regex line) as [g|] eqn:Hkey.
  2:{ cbn. split; [by intros ?%elem_of_empty|].
      intros (out' & err' & line' & k & E & E' & E'' & _).
      inversion E; subst. congruence. }
  destruct (search_signature_key _ _ Hkey) as (k & -> & Hk).
  change (default "" (Some k)) with k.
  destruct (PyStr.contains "none" (PyStr.lower k)) eqn:Hnone.
  { cbn. split; [by intros ?%elem_of_empty|].
    intros (out' & err' & line' & k' & E & E' & E'' & -> & Hc & _).
    inversion E; subst. rewrite Hline in E'. inversion E'; subst.
    rewrite Hkey in E''. inversion E''; subst. congruence. }
  destruct (bool_decide _) eqn:Hauth; cbn [negb].
  { apply bool_decide_eq_true_1 in Hauth.
    cbn. split; [by intros ?%elem_of_empty|].
    intros (out' & err' & line' & k' & E & E' & E'' & -> & _ & Hc).
    inversion E; subst. rewrite Hline in E'. inversion E'; subst.
    rewrite Hkey in E''. inversion E''; subst. done. }
  apply bool_decide_eq_false_1 in Hauth.
  cbn [add_wrong_signature wrong_signature_packages empty_report]. split.
  - intros H. apply elem_of_union in H as [H | H];
      [by apply elem_of_empty in H|].
    apply elem_of_singleton in H.
    destruct (wrong_entry_inj _ _ _ _ Hns Hk H) as [_ ->].
    by exists out, err, line, k.
  - intros (out' & err' & line' & k' & E & E' & E'' & -> & _ & _).
    inversion E; subst. rewrite Hline in E'. inversion E'; subst.
    rewrite Hkey in E''. inversion E''; subst.
    apply elem_of_union. right. by apply elem_of_singleton.
Qed.

Lemma wrong_iff_unauthorized_key_witness :
  wrong_entry "/r/a.rpm" "abcd1234"
  ∈ wrong_signature_packages
      (scan_packages (exporter_of ∅) four_files_env "/r" [key_11112222]).
Proof.
  assert (Hin : "a.rpm" ∈ listdir four_files_env "/r") by by_compute.
  assert (Hns : no_space "abcd1234") by by_compute.
  apply (proj2 (wrong_iff_unauthorized_key (exporter_of ∅) four_files_env
                  "/r" [key_11112222] "a.rpm" "abcd1234" Hin eq_refl Hns)).
  exists out_signed, "",
    "Signature   : RSA/SHA256, Tue 01 Jun 2021 10:00:00 AM UTC, Key ID abcd1234",
    "abcd1234".
  repeat split; try (vm_compute; reflexivity). by_compute.
Defined.

(** X4. The comparison with the sign keys ignores case: a package
    whose key id, lower-cased, is the lower-cased id of one of the
    sign keys (and does not contain [none]) is in none of the sets. *)
Theorem authorized_key_accepted (self : Exporter) (env : Env)
    (repository_path : string) (sign_keys : list SignKey)
    (package out err line k : string) (sign_key : SignKey) :
  package ∈ listdir env repository_path →
  let package_path := PyStr.path_join repository_path package in
  let R := scan_packages self env repository_path sign_keys in
  PyStr.endswith package_path ".rpm" = true →
  rpm_qip env package_path = (0%Z, out, err) →
  find_signature_line out = Some line →
  Re.search signature_regex line = Some (Some k) →
  PyStr.contains "none" (PyStr.lower k) = false →
  sign_key ∈ sign_keys →
  PyStr.lower k = PyStr.lower (keyid sign_key) →
  (package_path ∉ errored_packages R)
  ∧ (package_path ∉ no_signature_packages R)
  ∧ (∀ key, no_space key →
       wrong_entry package_path key ∉ wrong_signature_packages R).
Proof.
  intros Hin package_path R Hrpm Hq Hline Hkey Hnone Hsk Heq.
  destruct (batch_is_alone self env repository_path
              ((fun i => PyStr.lower (keyid i)) <$> sign_keys)
              _ _ Hin) as (He & Hn & Hw).
  fold package_path in He, Hn, Hw.
  change (fold_left _ _ _) with R in He, Hn, Hw.
  assert (Hauth : PyStr.lower k
                  ∈ (fun i => PyStr.lower (keyid i)) <$> sign_keys).
  { apply list_elem_of_fmap. by exists sign_key. }
  assert (Ha : scan_package self env repository_path
                 ((fun i => PyStr.lower (keyid i)) <$> sign_keys)
                 empty_report package
               = empty_report).
  { unfold scan_package. fold package_path.
    rewrite Hrpm, Hq, Hline, (find_signature_line_nonempty _ _ Hline), Hkey.
    change (default "" (Some k)) with k.
    by rewrite Hnone, (bool_decide_eq_true_2 _ Hauth). }
  rewrite Ha in He, Hn, Hw. cbn in He, Hn, Hw.
  split; [|split].
  - rewrite He. apply not_elem_of_empty.
  - rewrite Hn. apply not_elem_of_empty.
  - intros key Hk. rewrite (Hw key Hk). apply not_elem_of_empty.
Qed.

Lemma authorized_key_accepted_witness :
  "/r/p.rpm"
  ∉ errored_packages
      (scan_packages (exporter_of ∅) upper_key_env "/r" [key_ABCDEF12]).
Proof.
  assert (Hin : "p.rpm" ∈ listdir upper_key_env "/r") by by_compute.
  assert (Hk : key_ABCDEF12 ∈ [key_ABCDEF12]) by apply list_elem_of_here.
  exact (proj1 (authorized_key_accepted (exporter_of ∅) upper_key_env "/r"
                  [key_ABCDEF12] "p.rpm"
                  "Signature   : RSA/SHA256, Key ID ABCDEF12" ""
                  "Signature   : RSA/SHA256, Key ID ABCDEF12" "ABCDEF12"
                  key_ABCDEF12 Hin eq_refl eq_refl eq_refl eq_refl eq_refl
                  Hk eq_refl)).
Defined.

(** ** What the pattern extracts *)

Lemma star_is_star_chr {R} (p : ascii → bool) (s : list ascii)
    (g : option (list ascii))
    (k : list ascii → option (list ascii) → option R) :
  Re.rmatch (Re.Star (Re.Chr p)) s g k = star_chr p s g k.
Proof.
  cbn [Re.rmatch].
  assert (H : (length s ≤ length s)%nat) by lia. revert H.
  generalize (length s) at 2 3. intros n. revert n.
  induction s as [|c s IH]; intros n Hn.
  - destruct n; [done|]. reflexivity.
  - destruct n as [|n]; [simpl in Hn; lia|].
    cbn [star_chr]. destruct (p c) eqn:Hc; [|done].
    assert (Hlt : (length s <? length (c :: s))%nat = true).
    { apply Nat.ltb_lt. simpl. lia. }
    rewrite Hlt. rewrite IH by (simpl in Hn; lia). done.
Qed.

(** Greedy repetition goes as far as the class allows when the rest of
    the pattern matches there. *)
Lemma star_chr_max {R} (p : ascii → bool) (a b : list ascii)
    (g : option (list ascii))
    (k : list ascii → option (list ascii) → option R) (x : R) :
  Forall (fun c => p c = true) a →
  match b with [] => True | c :: _ => p c = false end →
  k b g = Some x →
  star_chr p (a ++ b) g k = Some x.
Proof.
  intros Ha Hb Hk. induction Ha as [|c a Hc Ha IH]; simpl.
  - destruct b as [|c b]; simpl; [done | by rewrite Hb].
  - by rewrite Hc, IH.
Qed.

(** Without a match further on, greedy repetition gives up what it
    took. *)
Lemma star_chr_all_fail {R} (p : ascii → bool) (b : list ascii)
    (g : option (list ascii))
    (k : list ascii → option (list ascii) → option R) :
  (∀ c b', c ≠ [] → b = c ++ b' → k b' g = None) →
  star_chr p b g k = k b g.
Proof.
  induction b as [|c b IH]; intros H; simpl; [done|].
  destruct (p c); [|done].
  rewrite IH.
  - by rewrite (H [c] b).
  - intros c' b' Hc' ->. by apply (H (c :: c') b').
Qed.

(** Greedy repetition stops at the last place where the rest of the
    pattern matches. *)
Lemma star_chr_last {R} (p : ascii → bool) (a b : list ascii)
    (g : option (list ascii))
    (k : list ascii → option (list ascii) → option R) (x : R) :
  Forall (fun c => p c = true) a →
  k b g = Some x →
  (∀ c b', c ≠ [] → b = c ++ b' → k b' g = None) →
  star_chr p (a ++ b) g k = Some x.
Proof.
  intros Ha Hk Hfail. induction Ha as [|c a Hc Ha IH]; simpl.
  - by rewrite star_chr_all_fail.
  - by rewrite Hc, IH.
Qed.

Lemma span_chars (p : ascii → bool) (l : list ascii) :
  ∃ l1 l2, l = l1 ++ l2 ∧ Forall (fun c => p c = true) l1
           ∧ match l2 with [] => True | c :: _ => p c = false end.
Proof.
  induction l as [|c l (l1 & l2 & -> & H1 & H2)].
  - by exists [], [].
  - destruct (p c) eqn:Hc.
    + exists (c :: l1), l2. repeat split; [by constructor | done].
    + exists [], (c :: l1 ++ l2). by repeat split.
Qed.

Lemma lower_char_space (c : ascii) :
  Ascii.eqb (PyStr.lower_char c) " "%char = true → c = " "%char.
Proof.
  destruct c as [[] [] [] [] [] [] [] []]; vm_compute; congruence.
Qed.

Lemma word_char_not_space (c : ascii) :
  Re.word_char c = true → c ≠ " "%char.
Proof.
  destruct c as [[] [] [] [] [] [] [] []]; vm_compute; congruence.
Qed.

Lemma word_char_not_paren (c : ascii) :
  Re.word_char c = true → Ascii.eqb "("%char c = false.
Proof.
  destruct c as [[] [] [] [] [] [] [] []]; vm_compute; congruence.
Qed.

Lemma word_char_dot (c : ascii) :
  Re.word_char c = true → negb (Ascii.eqb c "010"%char) = true.
Proof.
  destruct c as [[] [] [] [] [] [] [] []]; vm_compute; congruence.
Qed.

Section Unfold.
Context {R : Type}.
Implicit Types (k : list ascii → option (list ascii) → option R).

Lemma rmatch_seq a b s g k :
  Re.rmatch (Re.Seq a b) s g k
  = Re.rmatch a s g (fun s' g' => Re.rmatch b s' g' k).
Proof. reflexivity. Qed.

Lemma rmatch_alt a b s g k :
  Re.rmatch (Re.Alt a b) s g k
  = match Re.rmatch a s g k with
    | Some x => Some x
    | None => Re.rmatch b s g k
    end.
Proof. reflexivity. Qed.

Lemma rmatch_eps s g k : Re.rmatch Re.Eps s g k = k s g.
Proof. reflexivity. Qed.

Lemma rmatch_chr_cons p c s g k :
  Re.rmatch (Re.Chr p) (c :: s) g k = if p c then k s g else None.
Proof. reflexivity. Qed.

Lemma rmatch_chr_nil p g k : Re.rmatch (Re.Chr p) [] g k = None.
Proof. reflexivity. Qed.

Lemma rmatch_named a s g k :
  Re.rmatch (Re.Named a) s g k
  = Re.rmatch a s g
      (fun s' g' => k s' (Some (take (length s - length s') s))).
Proof. reflexivity. Qed.

End Unfold.

Lemma lit_prefix {R} (lit : string) (rest : list ascii)
    (g : option (list ascii))
    (k : list ascii → option (list ascii) → option R) :
  Re.rmatch (Re.Lit lit) (list_ascii_of_string lit ++ rest) g k = k rest g.
Proof.
  revert g k. induction lit as [|c lit IH]; intros g k; [done|].
  cbn [Re.Lit list_ascii_of_string app].
  by rewrite rmatch_seq, rmatch_chr_cons, Ascii.eqb_refl, IH.
Qed.

(** On a token of word characters the key pattern takes it whole. *)
Lemma key_id_regex_on_token {R} (key : list ascii)
    (g : option (list ascii))
    (k : list ascii → option (list ascii) → option R) (x : R) :
  key ≠ [] → Forall (fun c => Re.word_char c = true) key →
  k [] g = Some x →
  Re.rmatch key_id_regex key g k = Some x.
Proof.
  intros Hne Hw Hk. destruct key as [|c key]; [done|].
  inversion Hw as [|? ? Hc Hw']; subst.
  unfold key_id_regex, Re.Opt, Re.Plus.
  rewrite rmatch_seq, rmatch_alt, rmatch_chr_cons,
    (word_char_not_paren c Hc), rmatch_eps.
  rewrite !rmatch_seq, rmatch_chr_cons, Hc, star_is_star_chr.
  rewrite <- (app_nil_r key).
  apply (star_chr_max _ key [] g _ x Hw' I).
  by rewrite rmatch_alt, rmatch_chr_nil, rmatch_eps.
Qed.

(** The label [Key ID ] does not match where the fourth character is
    not a space. *)
Lemma key_id_label_needs_space {R} (l : list ascii)
    (g : option (list ascii))
    (k : list ascii → option (list ascii) → option R) :
  Forall (fun c => c ≠ " "%char) l →
  Re.rmatch (Re.Lit "Key ID ") l g k = None.
Proof.
  intros H. cbn [Re.Lit Re.rmatch].
  destruct l as [|c1 [|c2 [|c3 [|c4 l]]]];
    repeat match goal with
           | |- (if ?b then _ else _) = _ => destruct b eqn:?; [|done]
           | |- _ => done
           end.
  exfalso.
  inversion H as [|? ? _ H1]; subst. inversion H1 as [|? ? _ H2]; subst.
  inversion H2 as [|? ? _ H3]; subst. inversion H3 as [|? ? H4 _]; subst.
  apply H4. apply lower_char_space.
  match goal with E : Ascii.eqb (PyStr.lower_char c4) _ = true |- _ =>
    exact E end.
Qed.

(** Further into [Key ID token], the label does not match again. *)
Lemma no_later_label {R} (key c b' : list ascii)
    (g : option (list ascii))
    (k : list ascii → option (list ascii) → option R) :
  Forall (fun c => Re.word_char c = true) key →
  c ≠ [] → list_ascii_of_string "Key ID " ++ key = c ++ b' →
  Re.rmatch (Re.Lit "Key ID ") b' g k = None.
Proof.
  intros Hw Hc E. cbn [list_ascii_of_string app] in E.
  destruct c as [|c0 c]; [done|]. clear Hc. injection E as <- E.
  do 6 (destruct c as [|? c];
        [ cbn [app] in E; subst b'; reflexivity | injection E as <- E ]).
  apply key_id_label_needs_space.
  assert (Hb : Forall (fun c => Re.word_char c = true) b').
  { rewrite E in Hw. by apply Forall_app in Hw as [_ ?]. }
  eapply Forall_impl; [exact Hb|]. intros a Ha. by apply word_char_not_space.
Qed.

Lemma match_signature_line (sep mid key : list ascii) :
  sep ≠ [] → Forall (fun c => ws_or_colon c = true) sep →
  Forall (fun c => negb (Ascii.eqb c "010"%char) = true) mid →
  key ≠ [] → Forall (fun c => Re.word_char c = true) key →
  Re.rmatch signature_regex
    (list_ascii_of_string "Signature" ++ sep ++ mid
     ++ list_ascii_of_string "Key ID " ++ key)
    None (fun _ g => Some g)
  = Some (Some key).
Proof.
  intros Hsep Hws Hmid Hkey Hw.
  destruct sep as [|c sep]; [done|]. inversion Hws as [|? ? Hc Hws']; subst.
  destruct (span_chars ws_or_colon mid) as (m1 & m2 & -> & Hm1 & Hm2).
  apply Forall_app in Hmid as [_ Hmid2].
  unfold signature_regex, Re.Opt, Re.Plus.
  rewrite !rmatch_seq, lit_prefix.
  cbn [app]. rewrite rmatch_seq, rmatch_chr_cons, Hc, star_is_star_chr.
  rewrite <- (app_assoc m1 m2), (app_assoc sep m1).
  apply star_chr_max.
  { by apply Forall_app. }
  { destruct m2; [reflexivity | exact Hm2]. }
  rewrite rmatch_seq, rmatch_alt, rmatch_seq. unfold Re.dot.
  rewrite star_is_star_chr.
  assert (Hlast :
    Re.rmatch (Re.Lit "Key ID ")
      (list_ascii_of_string "Key ID " ++ key) None
      (fun s' g' => Re.rmatch (Re.Named key_id_regex) s' g'
                      (fun _ g => Some g))
    = Some (Some key)).
  { rewrite lit_prefix, rmatch_named.
    apply key_id_regex_on_token; [done | done |].
    rewrite Nat.sub_0_r. by rewrite firstn_all. }
  rewrite (star_chr_last _ m2 _ None _ (Some key) Hmid2 Hlast); [done|].
  intros c' b' Hc' E. by apply (no_later_label key c' b').
Qed.

(** X5. On a line made of [Signature], one or more blanks or colons,
    any text, the label [Key ID ] and a final token of word characters,
    the pattern extracts that token: the last key id of the line is
    the one the verification compares. *)
Theorem key_id_extracted (sep mid key : string) :
  sep ≠ "" → all_chars ws_or_colon sep →
  all_chars (fun c => negb (Ascii.eqb c "010"%char)) mid →
  key ≠ "" → all_chars Re.word_char key →
  Re.search signature_regex
    ("Signature" +:+ sep +:+ mid +:+ "Key ID " +:+ key)
  = Some (Some key).
Proof.
  unfold all_chars. intros Hsep Hws Hmid Hkey Hw.
  assert (Hs : list_ascii_of_string sep ≠ []) by by destruct sep.
  assert (Hk : list_ascii_of_string key ≠ []) by by destruct key.
  pose proof (match_signature_line _ _ _ Hs Hws Hmid Hk Hw) as H.
  unfold Re.search. rewrite !list_ascii_app.
  destruct (list_ascii_of_string "Signature" ++ _) as [|c l] eqn:E;
    [done|].
  cbn [Re.search_from]. rewrite H. cbn.
  by rewrite string_of_list_ascii_of_string.
Qed.

Lemma all_chars_forallb (p : ascii → bool) (s : string) :
  forallb p (list_ascii_of_string s) = true → all_chars p s.
Proof.
  unfold all_chars. intros H. apply List.Forall_forall. intros c Hc.
  by apply (proj1 (forallb_forall p _) H).
Qed.

Lemma key_id_extracted_witness :
  Re.search signature_regex
    ("Signature" +:+ "   : " +:+ "RSA/SHA256, Tue 01 Jun 2021, "
     +:+ "Key ID " +:+ "15af5dac6d745a60")
  = Some (Some "15af5dac6d745a60").
Proof.
  apply key_id_extracted.
  - discriminate.
  - apply all_chars_forallb. reflexivity.
  - apply all_chars_forallb. reflexivity.
  - discriminate.
  - apply all_chars_forallb. reflexivity.
Defined.

(** ** Reconciliation, further *)

Abbreviation cempty :=
  {| packages_to_add := []; packages_to_remove := [];
     comparison_log := [] |}.

Section CompareMore.
Variables (self : Exporter) (sname dname : string)
          (dst : list package_dict).

Lemma compare_alone_settled (p : package_dict) :
  settled self dst p = true →
  packages_to_add (compare_package self sname dname dst cempty p) = []
  ∧ packages_to_remove (compare_package self sname dname dst cempty p) = [].
Proof.
  unfold settled, compare_package.
  destruct (compared_pkg dst p) as [q|]; intros ->; done.
Qed.

Lemma compare_alone_unsettled (p : package_dict) :
  settled self dst p = false →
  packages_to_add (compare_package self sname dname dst cempty p)
  = [pkg_pulp_href p].
Proof.
  unfold settled, compare_package.
  destruct (compared_pkg dst p) as [q|]; intros ->; done.
Qed.

End CompareMore.

(** X6. The reconciliation has nothing to add exactly when every
    source package is settled (matched with the same checksum, or
    unmatched and modular or left out by [show_differ_packages]); then
    it has nothing to remove either and, whatever calls fail, makes no
    content modification. *)
Theorem nothing_to_do_iff_settled (self : Exporter) (env : Env)
    (sname dname href : string) (src : list package_dict) :
  let dst := listing env (pulp_latest_version env href) in
  let c := compare_packages self sname dname src dst in
  (packages_to_add c = []
   ↔ ∀ p, p ∈ src → settled self dst p = true)
  ∧ (packages_to_add c = [] → packages_to_remove c = [])
  ∧ ((∀ p, p ∈ src → settled self dst p = true) →
     emits
       (copy_noarch_packages_from_x86_64_repo self env sname src dname href)
       (fun t _ => modifications t = [])).
Proof.
  intros dst c.
  assert (Hiff : packages_to_add c = []
                 ↔ ∀ p, p ∈ src → settled self dst p = true).
  { subst c. unfold compare_packages.
    rewrite (proj1 (compare_fold self sname dname dst src cempty)).
    cbn [packages_to_add app]. clear.
    induction src as [|p src IH]; simpl.
    - split; [|done]. intros _ p Hp. by apply elem_of_nil in Hp.
    - split.
      + intros H. apply app_eq_nil in H as [H1 H2].
        intros q Hq. apply elem_of_cons in Hq as [-> | Hq].
        * destruct (settled self dst p) eqn:E; [done|].
          by rewrite (compare_alone_unsettled _ _ _ _ _ E) in H1.
        * by apply IH.
      + intros H.
        rewrite (proj1 (compare_alone_settled self sname dname dst p
                          (H p (list_elem_of_here _ _)))).
        apply IH. intros q Hq. by apply H, list_elem_of_further. }
  assert (Hrm : packages_to_add c = [] → packages_to_remove c = []).
  { intros Ha.
    pose proof (remove_le_add self sname dname dst src) as Hle.
    fold c in Hle. rewrite Ha in Hle.
    destruct (packages_to_remove c); [done | simpl in Hle; lia]. }
  split; [exact Hiff|]. split; [exact Hrm|].
  intros Hall. eapply emits_weaken; [apply emits_copy_noarch|].
  cbv beta zeta. fold dst c. rewrite (proj2 Hiff Hall). cbn.
  intros t r [[H | [? _]] _]; done.
Qed.

Lemma nothing_to_do_iff_settled_witness :
  emits
    (copy_noarch_packages_from_x86_64_repo (exporter_of ∅) paged_env
       "repo-x86_64" [pkg_A_src] "repo-ppc64le" "/repo/")
    (fun t _ => modifications t = []).
Proof.
  apply (proj2 (proj2 (nothing_to_do_iff_settled (exporter_of ∅) paged_env
                         "repo-x86_64" "repo-ppc64le" "/repo/"
                         [pkg_A_src]))).
  intros p Hp. apply list_elem_of_singleton in Hp as ->. reflexivity.
Defined.

(** X7. What the reconciliation adds and removes comes from the two
    listings: an added handle is that of a source package; a removed
    handle is that of a destination package with the name, version and
    release of a source package and another checksum. *)
Theorem reconciliation_provenance (self : Exporter) (sname dname : string)
    (src dst : list package_dict) :
  let c := compare_packages self sname dname src dst in
  (∀ x, x ∈ packages_to_add c → ∃ p, p ∈ src ∧ pkg_pulp_href p = x)
  ∧ (∀ x, x ∈ packages_to_remove c →
       ∃ p q, p ∈ src ∧ q ∈ dst ∧ same_nvr q p = true
              ∧ pkg_sha256 p ≠ pkg_sha256 q ∧ pkg_pulp_href q = x).
Proof.
  intros c. subst c. split.
  - intros x Hx. apply to_add_inv in Hx as (p & Hp & Hx).
    exists p. split; [done|]. revert Hx. unfold compare_package.
    destruct (compared_pkg dst p) as [q|].
    + destruct (negb _); simpl; [|by intros ?%elem_of_nil].
      by intros ?%list_elem_of_singleton.
    + destruct (_ || _); simpl; [by intros ?%elem_of_nil|].
      by intros ?%list_elem_of_singleton.
  - intros x. unfold compare_packages.
    rewrite (proj2 (compare_fold self sname dname dst src cempty)).
    cbn [packages_to_remove app].
    intros H. apply list_elem_of_In, in_flat_map in H as (p & Hp & Hx).
    apply list_elem_of_In in Hp, Hx. revert Hx. unfold compare_package.
    destruct (compared_pkg dst p) as [q|] eqn:Hq.
    + destruct (String.eqb (pkg_sha256 p) (pkg_sha256 q)) eqn:Hsha;
        simpl; [by intros ?%elem_of_nil|].
      intros ->%list_elem_of_singleton.
      unfold compared_pkg in Hq. apply find_some in Hq as [Hin Hnvr].
      exists p, q. repeat split; try done.
      * by apply list_elem_of_In.
      * by apply String.eqb_neq.
    + destruct (_ || _); simpl; by intros ?%elem_of_nil.
Qed.

(** X8. With [show_differ_packages] the reconciliation only replaces:
    it adds as many handles as it removes. *)
Theorem show_differ_only_replaces (self : Exporter) (sname dname : string)
    (src dst : list package_dict) :
  show_differ_packages self = true →
  let c := compare_packages self sname dname src dst in
  length (packages_to_add c) = length (packages_to_remove c).
Proof.
  intros Hshow c. subst c. unfold compare_packages.
  destruct (compare_fold self sname dname dst src cempty) as [-> ->].
  cbn [packages_to_add packages_to_remove app].
  induction src as [|p src IH]; simpl; [done|].
  rewrite !length_app, IH. f_equal.
  unfold compare_package. rewrite Hshow, orb_true_r.
  destruct (compared_pkg dst p) as [q|]; [|done].
  by destruct (negb _).
Qed.

Lemma show_differ_only_replaces_witness :
  length (packages_to_add
            (compare_packages show_differ_exporter "repo-x86_64"
               "repo-ppc64le" [pkg_A_src; pkg_M_src] [pkg_A_dst_other]))
  = length (packages_to_remove
              (compare_packages show_differ_exporter "repo-x86_64"
                 "repo-ppc64le" [pkg_A_src; pkg_M_src] [pkg_A_dst_other])).
Proof.
  exact (show_differ_only_replaces show_differ_exporter "repo-x86_64"
           "repo-ppc64le" [pkg_A_src; pkg_M_src] [pkg_A_dst_other] eq_refl).
Defined.

(** ** Listings of Pulp *)

Lemma follow_next_run (env : Env) (pages : list (list package_dict))
    (packages : list package_dict) (w : world) :
  never_fails env →
  (follow_next env pages packages w).1 = Ok (packages ++ concat pages)
  ∧ trace (follow_next env pages packages w).2
    = trace w ++ replicate (length pages) PulpRequestNext.
Proof.
  intros H. revert packages w.
  induction pages as [|p pages IH]; intros packages w; simpl.
  - by rewrite !app_nil_r.
  - unfold mbind, M_bind, exec. rewrite H.
    destruct (IH (packages ++ p)
                {| owner := effect PulpRequestNext (owner w);
                   trace := trace w ++ [PulpRequestNext];
                   logs := logs w;
                   export_error_file := export_error_file w |})
      as [-> ->].
    cbn [trace]. by rewrite <- !app_assoc.
Qed.

(** X9. Without failures, a listing is read to its last page: the
    packages of all the pages are returned in order, after one request
    for the first page and one for each following page. *)
Theorem pagination_followed (env : Env) (version : string) (w : world) :
  never_fails env →
  let run := retrieve_all_packages_from_pulp env version w in
  run.1 = Ok (listing env version)
  ∧ trace run.2
    = trace w ++ PulpRequestPackages version
        :: replicate (length (pulp_packages env version).2) PulpRequestNext.
Proof.
  intros H run. subst run.
  unfold retrieve_all_packages_from_pulp, mbind, M_bind, exec. rewrite H.
  destruct (follow_next_run env (pulp_packages env version).2
              (pulp_packages env version).1
              {| owner := effect (PulpRequestPackages version) (owner w);
                 trace := trace w ++ [PulpRequestPackages version];
                 logs := logs w;
                 export_error_file := export_error_file w |} H)
    as [-> ->].
  cbn [trace]. by rewrite <- app_assoc.
Qed.

Lemma pagination_followed_witness :
  (retrieve_all_packages_from_pulp paged_env "v1" empty_world).1
  = Ok [pkg_A_dst_same; pkg_A_dst_other; pkg_M_src].
Proof.
  assert (Hok : never_fails paged_env) by (intros t e; reflexivity).
  exact (proj1 (pagination_followed paged_env "v1" empty_world Hok)).
Defined.

(** ** Selection of the repositories to export *)

Lemma select_repo_lists (repo_ids : option (list Z))
    (arches : option (list string)) (l : list Repository) (s : selection) :
  repo_ids_to_export (fold_left (select_repo repo_ids arches) l s)
  = repo_ids_to_export s
    ++ (repo_id <$> List.filter (exported repo_ids arches) l)
  ∧ platform_paths (fold_left (select_repo repo_ids arches) l s)
    = platform_paths s
      ++ (repo_export_path <$> List.filter (exported repo_ids arches) l).
Proof.
  revert s. induction l as [|r l IH]; intros s; simpl.
  - by rewrite !app_nil_r.
  - destruct (IH (select_repo repo_ids arches s r)) as [-> ->].
    unfold select_repo, exported.
    destruct (skipped repo_ids r); cbn [negb andb]; [done|].
    cbn [repo_ids_to_export platform_paths].
    destruct (match arches with Some _ => _ | None => _ end); simpl;
      by rewrite <- ?app_assoc.
Qed.

Lemma select_repo_dicts_any_arches (repo_ids : option (list Z))
    (a1 a2 : option (list string)) (l : list Repository) (s1 s2 : selection) :
  repos_x86_64 s1 = repos_x86_64 s2 → repos_ppc64le s1 = repos_ppc64le s2 →
  repos_x86_64 (fold_left (select_repo repo_ids a1) l s1)
  = repos_x86_64 (fold_left (select_repo repo_ids a2) l s2)
  ∧ repos_ppc64le (fold_left (select_repo repo_ids a1) l s1)
    = repos_ppc64le (fold_left (select_repo repo_ids a2) l s2).
Proof.
  revert s1 s2. induction l as [|r l IH]; intros s1 s2 E1 E2; simpl; [done|].
  apply IH.
  - by rewrite !select_repo_x86_64, E1.
  - by rewrite !select_repo_ppc64le, E2.
Qed.

(** X10. The architectures asked for do not change the dictionaries
    of the reconciliation: they are those of an export of all the
    architectures. *)
Theorem arches_do_not_change_pairing (repo_ids : option (list Z))
    (arches : option (list string)) (db_platforms : list Platform) :
  pulp_dicts repo_ids arches db_platforms
  = pulp_dicts repo_ids None db_platforms.
Proof.
  unfold pulp_dicts.
  destruct (select_repo_dicts_any_arches repo_ids arches None
              (all_repos db_platforms)
              {| repos_x86_64 := ∅; repos_ppc64le := ∅;
                 platform_paths := []; repo_ids_to_export := [] |}
              {| repos_x86_64 := ∅; repos_ppc64le := ∅;
                 platform_paths := []; repo_ids_to_export := [] |}
              eq_refl eq_refl) as [-> ->].
  done.
Qed.

(** X11. The ids the loop over the repositories of a platform hands
    to the export are those of the repositories that are in
    production, within [repo_ids] when given, and of one of [arches]
    when given. *)
Theorem exported_ids (repo_ids : option (list Z))
    (arches : option (list string)) (repos : list Repository)
    (x86_64 ppc64le : pydict (string * bool)) (n : Z) :
  let s := fold_left (select_repo repo_ids arches) repos
             {| repos_x86_64 := x86_64; repos_ppc64le := ppc64le;
                platform_paths := []; repo_ids_to_export := [] |} in
  n ∈ repo_ids_to_export s
  ↔ ∃ r, r ∈ repos ∧ repo_id r = n ∧ repo_production r = true
         ∧ (∀ ids, repo_ids = Some ids → n ∈ ids)
         ∧ (∀ a, arches = Some a → repo_arch r ∈ a).
Proof.
  intros s. subst s.
  rewrite (proj1 (select_repo_lists repo_ids arches repos _)).
  cbn [repo_ids_to_export app]. rewrite list_elem_of_fmap.
  assert (Hex : ∀ r, exported repo_ids arches r = true
                     ↔ repo_production r = true
                       ∧ (∀ ids, repo_ids = Some ids → repo_id r ∈ ids)
                       ∧ (∀ a, arches = Some a → repo_arch r ∈ a)).
  { intros r. unfold exported, skipped.
    rewrite andb_true_iff, negb_true_iff, orb_false_iff, negb_false_iff.
    split.
    - intros [[H1 H2] H3]. split; [done|]. split.
      + intros ids ->. apply negb_false_iff in H1.
        by apply bool_decide_eq_true_1 in H1.
      + intros a ->. by apply bool_decide_eq_true_1 in H3.
    - intros (H1 & H2 & H3). split; [split; [|done]|].
      + destruct repo_ids as [ids|]; [|done].
        apply negb_false_iff, bool_decide_eq_true_2. by apply H2.
      + destruct arches as [a|]; [|done].
        apply bool_decide_eq_true_2. by apply H3. }
  split.
  - intros (r & -> & Hr). apply list_elem_of_In, filter_In in Hr as [Hr He].
    apply list_elem_of_In in Hr. apply Hex in He as (? & ? & ?).
    by exists r.
  - intros (r & Hr & <- & H1 & H2 & H3). exists r. split; [done|].
    apply list_elem_of_In, filter_In. split; [by apply list_elem_of_In|].
    by apply Hex.
Qed.

(** ** Choice of the signing key *)

Lemma choose_key_fold (db_sign_keys : list SignKey) (exp_path : string)
    (l : list (Z * list string)) (key_id : option string) :
  (∀ p, p ∈ l → platform_matches exp_path p = false) →
  fold_left
    (fun (key_id : option string) (p : Z * list string) =>
       if existsb (fun repo_export_path =>
                     PyStr.contains repo_export_path exp_path) p.2
       then key_of_platform db_sign_keys p.1
       else key_id)
    l key_id
  = key_id.
Proof.
  revert key_id. induction l as [|p l IH]; intros key_id H; simpl; [done|].
  pose proof (H p (list_elem_of_here _ _)) as Hp.
  unfold platform_matches in Hp. rewrite Hp.
  apply IH. intros q Hq. by apply H, list_elem_of_further.
Qed.

(** X12. The key that signs the metadata of an exported path: when no
    platform has an export path occurring in the path, the key of the
    release platform if there is one (and it is not empty); otherwise
    the key of the last platform of the dictionary with such an export
    path, also when that platform has no key.  The key of a platform
    is the first sign key with its id, and there is none exactly when
    no sign key has its id. *)
Theorem key_choice (db_sign_keys : list SignKey)
    (key_id_by_platform : option string)
    (platforms : list (Z * list string)) (exp_path : string) :
  ((∀ p, p ∈ platforms → platform_matches exp_path p = false) →
   choose_key_id db_sign_keys key_id_by_platform platforms exp_path
   = match key_id_by_platform with
     | Some k => if String.eqb k "" then None else Some k
     | None => None
     end)
  ∧ (∀ pre p post,
       platforms = pre ++ p :: post →
       platform_matches exp_path p = true →
       (∀ q, q ∈ post → platform_matches exp_path q = false) →
       choose_key_id db_sign_keys key_id_by_platform platforms exp_path
       = key_of_platform db_sign_keys p.1)
  ∧ (∀ n, key_of_platform db_sign_keys n = None
          ↔ ∀ k, k ∈ db_sign_keys → sk_platform_id k ≠ n)
  ∧ (∀ n x, key_of_platform db_sign_keys n = Some x →
            ∃ pre k post, db_sign_keys = pre ++ k :: post
                          ∧ keyid k = x ∧ sk_platform_id k = n
                          ∧ ∀ k', k' ∈ pre → sk_platform_id k' ≠ n).
Proof.
  split; [|split; [|split]].
  - intros H. unfold choose_key_id. by apply choose_key_fold.
  - intros pre p post -> Hp Hpost. unfold choose_key_id.
    rewrite fold_left_app. cbn [fold_left].
    unfold platform_matches in Hp. rewrite Hp.
    by apply choose_key_fold.
  - intros n. unfold key_of_platform.
    induction db_sign_keys as [|k l IH]; simpl.
    + split; [|done]. intros _ k Hk. by apply elem_of_nil in Hk.
    + destruct (sk_platform_id k =? n)%Z eqn:E.
      * split; [done|]. intros H. apply Z.eqb_eq in E.
        by destruct (H k (list_elem_of_here _ _)).
      * apply Z.eqb_neq in E. rewrite IH. split.
        -- intros H k' Hk'. apply elem_of_cons in Hk' as [-> | Hk']; auto.
        -- intros H k' Hk'. by apply H, list_elem_of_further.
  - intros n x. unfold key_of_platform.
    induction db_sign_keys as [|k l IH]; simpl; [done|].
    destruct (sk_platform_id k =? n)%Z eqn:E.
    + intros [= <-]. apply Z.eqb_eq in E. exists [], k, l.
      repeat split; [done|]. intros k' Hk'. by apply elem_of_nil in Hk'.
    + apply Z.eqb_neq in E. intros H.
      destruct (IH H) as (pre & k0 & post & -> & ? & ? & Hpre).
      exists (k :: pre), k0, post. repeat split; try done.
      intros k' Hk'. apply elem_of_cons in Hk' as [-> | Hk']; auto.
Qed.

Lemma key_choice_witness :
  choose_key_id [key_of "aaaa" 1; key_of "bbbb" 2] (Some "cccc")
    two_platform_dict "/exports/almalinux/8/BaseOS/x86_64/os/Packages"
  = Some "bbbb".
Proof.
  refine (eq_trans
    (proj1 (proj2 (key_choice [key_of "aaaa" 1; key_of "bbbb" 2]
                     (Some "cccc") two_platform_dict
                     "/exports/almalinux/8/BaseOS/x86_64/os/Packages"))
       [(1%Z, ["almalinux/8/BaseOS"])] (2%Z, ["almalinux/8"])
       [(3%Z, ["vault/9"])] eq_refl eq_refl _) eq_refl).
  intros q Hq. apply list_elem_of_singleton in Hq as ->. reflexivity.
Defined.

(** ** What the export of platforms returns *)

Lemma dict_set_fresh {V} (k : Z) (v : V) (d : list (Z * V)) :
  k ∉ d.*1 → dict_set k v d = d ++ [(k, v)].
Proof.
  induction d as [|[k' v'] d IH]; intros H; simpl; [done|].
  destruct (k' =? k)%Z eqn:E.
  - apply Z.eqb_eq in E as ->. exfalso. apply H. apply list_elem_of_here.
  - rewrite IH; [done|]. intros Hin. apply H. by apply list_elem_of_further.
Qed.

Lemma export_fold (env : Env) (repo_ids : option (list Z))
    (arches : option (list string)) (ps : list Platform) (st : export_state) :
  NoDup ((platforms_dict st).*1 ++ (platform_id <$> ps)) →
  let st' := fold_left (export_state_after env repo_ids arches) ps st in
  final_export_paths st'
  = final_export_paths st
    ++ flat_map (platform_exported_paths env repo_ids arches) ps
  ∧ platforms_dict st'
    = platforms_dict st ++ (platform_entry repo_ids arches <$> ps).
Proof.
  revert st. induction ps as [|pl ps IH]; intros st Hnd; simpl.
  - by rewrite !app_nil_r.
  - destruct (select_repo_lists repo_ids arches (platform_repos pl)
                {| repos_x86_64 := all_x86_64 st;
                   repos_ppc64le := all_ppc64le st;
                   platform_paths := []; repo_ids_to_export := [] |})
      as [Hids Hpaths].
    cbn [repo_ids_to_export platform_paths app] in Hids, Hpaths.
    assert (Hfresh : platform_id pl ∉ (platforms_dict st).*1).
    { intros Hin. cbn [fmap list_fmap] in Hnd.
      apply NoDup_app in Hnd as (_ & Hd & _). apply (Hd _ Hin).
      apply list_elem_of_here. }
    destruct (IH (export_state_after env repo_ids arches st pl))
      as [-> ->].
    + unfold export_state_after. cbn [platforms_dict].
      rewrite (dict_set_fresh _ _ _ Hfresh), fmap_app. cbn [fmap list_fmap].
      rewrite <- app_assoc. exact Hnd.
    + unfold export_state_after.
      cbn [final_export_paths platforms_dict].
      rewrite (dict_set_fresh _ _ _ Hfresh), Hids, Hpaths.
      unfold platform_exported_paths, platform_entry.
      by rewrite <- !app_assoc.
Qed.

(** X13. Without failures, and the platforms having distinct ids, the
    export of platforms returns the paths [export_repositories]
    answered for each platform in turn, asked for the ids of the
    exported repositories of the platform without repetition, and a
    dictionary with one entry per platform, in order, that holds the
    export paths of those repositories. *)
Theorem export_result (self : Exporter) (env : Env)
    (db_platforms : list Platform) (repo_ids : option (list Z))
    (arches : option (list string)) :
  never_fails env →
  NoDup (platform_id <$> db_platforms) →
  returns (export_repos_from_pulp self env db_platforms repo_ids arches)
    (flat_map (platform_exported_paths env repo_ids arches) db_platforms,
     platform_entry repo_ids arches <$> db_platforms).
Proof.
  intros H Hnd. unfold export_repos_from_pulp.
  eapply returns_bind; [by apply returns_export_platforms|].
  eapply returns_bind; [by apply returns_prepare_and_execute|].
  destruct (export_fold env repo_ids arches db_platforms
              initial_export_state Hnd) as [-> ->].
  apply returns_ret.
Qed.

Lemma export_result_witness :
  returns
    (export_repos_from_pulp (exporter_of ∅) quiet_env
       [three_arch_platform; second_platform] None (Some ["ppc64le"]))
    (["/r/Packages"; "/r/Packages"],
     [(1%Z, ["almalinux/8/BaseOS/ppc64le/os"]); (2%Z, [])]).
Proof.
  assert (Hok : never_fails quiet_env) by (intros t e; reflexivity).
  assert (Hnd : NoDup (platform_id <$>
                         [three_arch_platform; second_platform])).
  { by_compute. }
  exact (export_result (exporter_of ∅) quiet_env
           [three_arch_platform; second_platform] None (Some ["ppc64le"])
           Hok Hnd).
Defined.

(** ** Calls of the pairing and reconciliation *)

Lemma tasks_of_source_href (sname : string) (debug : bool)
    (packages : list package_dict) (dests : list (string * (string * bool)))
    (x : task) :
  x ∈ tasks_of_source sname debug packages dests →
  ∃ d, d ∈ dests ∧ destination_repo_href x = d.2.1.
Proof.
  unfold tasks_of_source. intros H.
  apply list_elem_of_omap in H as (d & Hd & H).
  destruct (negb _); [done|]. inversion H. by exists d.
Qed.

(** The tasks a listing of the sources ends with are those of the
    two dictionaries, whatever was called before. *)
Lemma build_tasks_result (env : Env)
    (sources dests : list (string * (string * bool))) (tasks : list task)
    (w w' : world) :
  build_tasks env sources dests w = (Ok tasks, w') →
  tasks = tasks_of env sources dests.
Proof.
  revert tasks w w'.
  induction sources as [|s sources IH]; intros tasks w w' H.
  - simpl in H. by injection H as <- _.
  - cbn [build_tasks] in H.
    unfold get_repo_latest_version, retrieve_all_packages_from_pulp,
      mbind, M_bind, mret, M_ret in H.
    destruct (exec env (PulpGetRepoLatestVersion s.2.1) w) as [[[]|] w1];
      [|done].
    destruct (exec env (PulpRequestPackages _) w1) as [[[]|] w2]; [|done].
    destruct (follow_next env _ _ w2) as [[pk|] w3] eqn:E; [|done].
    apply follow_next_result in E as ->.
    destruct (build_tasks env sources dests w3) as [[rest|] w4] eqn:E;
      [|done].
    apply IH in E as ->. injection H as <- _. done.
Qed.

Lemma prog_events_next (pages : list (list package_dict)) (k : prog) :
  prog_events (next_prog pages k)
  = replicate (length pages) PulpRequestNext ++ prog_events k.
Proof. induction pages as [|p pages IH]; simpl; [done | by rewrite IH]. Qed.

Lemma prog_events_log (entries : list log_entry) (k : prog) :
  prog_events (log_prog entries k) = prog_events k.
Proof. induction entries as [|l entries IH]; simpl; done. Qed.

Section EveryPairing.
Variables (R : event → Prop) (self : Exporter) (env : Env).
Hypothesis Hversion : ∀ href, R (PulpGetRepoLatestVersion href).
Hypothesis Hpackages : ∀ version, R (PulpRequestPackages version).
Hypothesis Hnext : R PulpRequestNext.

Lemma every_copy_prog (sname dname href : string) (src : list package_dict) :
  (only_check_noarch self = false →
   (∀ add remove, R (PulpModifyRepository href add remove))
   ∧ R (PulpCreateRpmPublication href)) →
  Forall R (prog_events (copy_prog self env sname src dname href)).
Proof.
  intros HW. unfold copy_prog. cbn [prog_events].
  rewrite prog_events_next, prog_events_log.
  constructor; [done|]. constructor; [done|].
  apply Forall_app. split; [by apply Forall_replicate|].
  destruct (is_nonempty _); cbn [andb]; [|constructor].
  destruct (only_check_noarch self); cbn [negb]; [constructor|].
  destruct (HW eq_refl) as [H1 H2]. by repeat constructor.
Qed.

Lemma every_build_tasks (sources dests : list (string * (string * bool))) :
  emits (build_tasks env sources dests)
    (fun t r => Forall R t
                ∧ ∀ tasks, r = Ok tasks → tasks = tasks_of env sources dests).
Proof.
  apply emits_and.
  - induction sources as [|s sources IH]; simpl; [apply every_ret|].
    apply every_bind; [by apply every_get_repo_latest_version|]. intros v.
    apply every_bind; [by apply every_retrieve|]. intros pk.
    apply every_bind; [apply IH | intros ?; apply every_ret].
  - intros w.
    assert (Ht : emits (build_tasks env sources dests)
                   (fun t _ => Forall (fun _ => True) t)).
    { induction sources as [|s sources IH]; simpl; [apply every_ret|].
      apply every_bind; [by apply every_get_repo_latest_version|]. intros v.
      apply every_bind; [by apply every_retrieve|]. intros pk.
      apply every_bind; [apply IH | intros ?; apply every_ret]. }
    destruct (Ht w) as (t & Htr & _). exists t. split; [done|].
    intros tasks Hr.
    destruct (build_tasks env sources dests w) as [r w'] eqn:E.
    simpl in Hr. subst r. by apply build_tasks_result in E.
Qed.

(** The calls of the pairing and reconciliation, whichever fail and
    however the tasks are scheduled: requests that read, and
    modifications and publications of destinations. *)
Lemma every_prepare (X P : pydict (string * bool)) :
  (only_check_noarch self = false →
   ∀ n h d, (n, (h, d)) ∈ items P →
     (∀ add remove, R (PulpModifyRepository h add remove))
     ∧ R (PulpCreateRpmPublication h)) →
  emits (prepare_and_execute_async_tasks self env X P)
    (fun t _ => Forall R t).
Proof.
  intros HW. unfold prepare_and_execute_async_tasks.
  destruct (negb _); [apply every_log|].
  eapply emits_bind_with; [apply every_app | apply every_build_tasks|].
  intros tasks t Htasks. simpl in Htasks.
  specialize (Htasks tasks eq_refl).
  apply every_bind; [apply every_log|]. intros _.
  apply every_gather. apply Forall_fmap, Forall_forall.
  intros x Hx. cbn. unfold task_prog. apply every_copy_prog.
  intros Hcheck. rewrite Htasks in Hx.
  apply list_elem_of_In, in_flat_map in Hx as (src & _ & Hx).
  apply list_elem_of_In, tasks_of_source_href in Hx
    as ([n [h d]] & Hd & ->).
  by apply (HW Hcheck n h d).
Qed.

End EveryPairing.

(** ** Ownership over a whole run *)

Lemma no_chown_app (t1 t2 : list event) :
  no_chown t1 → no_chown t2 → no_chown (t1 ++ t2).
Proof. intros H1 H2. by apply Forall_app. Qed.

Lemma no_chown_last_owner (path : string) (t : list event) :
  no_chown t → last_owner path t = None.
Proof.
  unfold last_owner. induction 1 as [|e t He _ IH]; simpl; [done|].
  by destruct e.
Qed.

Lemma no_chown_returned (self : Exporter) (t : list event) :
  no_chown t → ownership_returned self t.
Proof. intros H path. left. by apply no_chown_last_owner. Qed.

Lemma emits_exec_quiet (env : Env) (e : event) :
  match e with Chown _ _ => False | _ => True end →
  emits (exec env e) (fun t _ => no_chown t).
Proof.
  intros He. eapply emits_weaken; [apply emits_exec|].
  intros t r [-> _]. by repeat constructor.
Qed.

Lemma emits_ret_quiet {A} (a : A) : emits (mret a) (fun t _ => no_chown t).
Proof.
  eapply emits_weaken; [apply emits_ret|]. intros t r [-> _]. constructor.
Qed.

Lemma emits_log_quiet (e : log_entry) :
  emits (log e) (fun t _ => no_chown t).
Proof.
  eapply emits_weaken; [apply emits_log|]. intros t r [-> _]. constructor.
Qed.

Lemma emits_retrieve_quiet (env : Env) (version : string) :
  emits (retrieve_all_packages_from_pulp env version)
    (fun t _ => no_chown t).
Proof.
  apply emits_bind_closed; [apply no_chown_app | by apply emits_exec_quiet|].
  intros _.
  generalize (pulp_packages env version).1.
  induction (pulp_packages env version).2 as [|p pages IH];
    intros packages; simpl.
  - apply emits_ret_quiet.
  - apply emits_bind_closed;
      [apply no_chown_app | by apply emits_exec_quiet | intros _; apply IH].
Qed.

Lemma emits_get_version_quiet (env : Env) (href : string) :
  emits (get_repo_latest_version env href) (fun t _ => no_chown t).
Proof.
  apply emits_bind_closed;
    [apply no_chown_app | by apply emits_exec_quiet
    | intros _; apply emits_ret_quiet].
Qed.

Lemma emits_copy_quiet (self : Exporter) (env : Env)
    (sname dname href : string) (src : list package_dict) :
  emits (copy_noarch_packages_from_x86_64_repo self env sname src dname href)
    (fun t _ => no_chown t).
Proof.
  unfold copy_noarch_packages_from_x86_64_repo.
  apply emits_bind_closed;
    [apply no_chown_app | apply emits_get_version_quiet|].
  intros v. apply emits_bind_closed;
    [apply no_chown_app | apply emits_retrieve_quiet|].
  intros dst. apply emits_bind_closed; [apply no_chown_app | |].
  - apply emits_for_each; [constructor | apply no_chown_app|].
    intros e. apply emits_log_quiet.
  - intros _. destruct (_ && _); [|apply emits_ret_quiet].
    apply emits_bind_closed;
      [apply no_chown_app | by apply emits_exec_quiet
      | intros _; by apply emits_exec_quiet].
Qed.

Lemma emits_prepare_quiet (self : Exporter) (env : Env)
    (X P : pydict (string * bool)) :
  emits (prepare_and_execute_async_tasks self env X P)
    (fun t _ => no_chown t).
Proof. by apply every_prepare. Qed.

Lemma emits_export_repositories_quiet (env : Env) (repo_ids : list Z) :
  emits (export_repositories env repo_ids) (fun t _ => no_chown t).
Proof. by apply every_export_repositories. Qed.

Lemma emits_export_repos_from_pulp (self : Exporter) (env : Env)
    (db_platforms : list Platform) (repo_ids : option (list Z))
    (arches : option (list string)) :
  emits (export_repos_from_pulp self env db_platforms repo_ids arches)
    (fun t _ => ownership_returned self t).
Proof.
  unfold export_repos_from_pulp.
  apply emits_bind_closed; [apply ownership_returned_app | |].
  - generalize initial_export_state.
    induction db_platforms as [|pl ps IH]; intros st; simpl.
    + eapply emits_weaken; [apply emits_ret_quiet|].
      intros t r. apply no_chown_returned.
    + apply emits_bind_closed;
        [apply ownership_returned_app | | intros st'; apply IH].
      unfold export_platform.
      apply emits_bind_closed; [apply ownership_returned_app | |].
      { eapply emits_weaken; [apply emits_export_repositories_quiet|].
        intros t r. apply no_chown_returned. }
      intros paths.
      apply emits_bind_closed; [apply ownership_returned_app | |].
      * apply emits_for_each;
          [apply ownership_returned_nil | apply ownership_returned_app
          | intros x; apply emits_harden_exported_path].
      * intros _. apply emits_bind_closed;
          [apply ownership_returned_app | |].
        -- eapply emits_weaken; [apply emits_log_quiet|].
           intros t r. apply no_chown_returned.
        -- intros _. eapply emits_weaken; [apply emits_ret_quiet|].
           intros t r. apply no_chown_returned.
  - intros st. apply emits_bind_closed; [apply ownership_returned_app | |].
    + eapply emits_weaken; [apply emits_prepare_quiet|].
      intros t r. apply no_chown_returned.
    + intros _. eapply emits_weaken; [apply emits_ret_quiet|].
      intros t r. apply no_chown_returned.
Qed.

(** X14. Over a whole export of platforms, and over a whole run of
    [main] in that mode, whichever calls fail and whether the run ends
    or raises: the last [chown] made on any path gave it to the system
    user of the service ([pulp]). *)
Theorem run_returns_ownership (env : Env)
    (db_platforms : list Platform) (repo_ids : option (list Z))
    (arches : option (list string)) :
  (∀ self : Exporter,
     emits (export_repos_from_pulp self env db_platforms repo_ids arches)
       (fun t _ => ownership_returned self t))
  ∧ (∀ copy_noarch only_check show_differ login subkeys_config db_sign_keys,
       emits (main_export env copy_noarch only_check show_differ login
                subkeys_config db_sign_keys db_platforms repo_ids arches)
         (fun t _ => ∀ path, last_owner path t = None
                             ∨ last_owner path t = Some "pulp")).
Proof.
  split; [intros self; apply emits_export_repos_from_pulp|].
  intros copy_noarch only_check show_differ login subkeys_config db_sign_keys.
  unfold main_export. intros w.
  unfold mbind at 1. unfold M_bind at 1. unfold Exporter_init at 1.
  set (self := {| copy_noarch_packages := copy_noarch;
                  only_check_noarch := only_check;
                  show_differ_packages := show_differ;
                  pulp_system_user := "pulp"; current_user := login;
                  known_subkeys := default ∅ subkeys_config |}).
  set (w0 := {| owner := owner w; trace := trace w; logs := logs w;
                export_error_file := _ |}).
  assert (Hrest :
    emits (export_repos_from_pulp self env db_platforms repo_ids arches
           ≫= fun res =>
             for_each res.1
               (finalize_exported_path self env db_sign_keys None res.2))
      (fun t _ => ownership_returned self t)).
  { apply emits_bind_closed;
      [apply ownership_returned_app | apply emits_export_repos_from_pulp|].
    intros res. apply emits_for_each;
      [apply ownership_returned_nil | apply ownership_returned_app
      | intros x; apply emits_finalize_exported_path]. }
  destruct (Hrest w0) as (t & Ht & HQ). exists t. split; [exact Ht|].
  exact HQ.
Qed.

(** ** The check of a distribution *)

Lemma distribution_step_x86_64
    (d : pydict (string * bool) * pydict (string * bool))
    (repo : Repository) :
  (if String.eqb (repo_arch repo) "src" then d
   else if String.eqb (repo_arch repo) "x86_64"
        then (<[repo_name repo := (repo_pulp_href repo, repo_debug repo)]> d.1,
              d.2)
        else (d.1,
              <[repo_name repo := (repo_pulp_href repo, repo_debug repo)]>
                d.2)).1
  = if negb (String.eqb (repo_arch repo) "src")
       && String.eqb (repo_arch repo) "x86_64"
    then <[repo_name repo := (repo_pulp_href repo, repo_debug repo)]> d.1
    else d.1.
Proof.
  destruct (String.eqb (repo_arch repo) "src"); [done|].
  by destruct (String.eqb (repo_arch repo) "x86_64").
Qed.

Lemma distribution_step_other
    (d : pydict (string * bool) * pydict (string * bool))
    (repo : Repository) :
  (if String.eqb (repo_arch repo) "src" then d
   else if String.eqb (repo_arch repo) "x86_64"
        then (<[repo_name repo := (repo_pulp_href repo, repo_debug repo)]> d.1,
              d.2)
        else (d.1,
              <[repo_name repo := (repo_pulp_href repo, repo_debug repo)]>
                d.2)).2
  = if negb (String.eqb (repo_arch repo) "src")
       && negb (String.eqb (repo_arch repo) "x86_64")
    then <[repo_name repo := (repo_pulp_href repo, repo_debug repo)]> d.2
    else d.2.
Proof.
  destruct (String.eqb (repo_arch repo) "src"); [done|].
  by destruct (String.eqb (repo_arch repo) "x86_64").
Qed.



(** ** Computations that leave the error file alone *)

Section Frames.

Lemma keeps_ret {A} (a : A) : keeps_error_file (mret a).
Proof. by intros w. Qed.

Lemma keeps_log (e : log_entry) : keeps_error_file (log e).
Proof. by intros w. Qed.

Lemma keeps_exec (env : Env) (e : event) : keeps_error_file (exec env e).
Proof. intros w. unfold exec. by destruct (fails env _ _). Qed.

Lemma keeps_bind {A B} (m : M A) (f : A → M B) :
  keeps_error_file m → (∀ a, keeps_error_file (f a)) →
  keeps_error_file (m ≫= f).
Proof.
  intros Hm Hf w. unfold mbind, M_bind.
  pose proof (Hm w) as H1. destruct (m w) as [[a|] w1]; simpl in *.
  - by rewrite (Hf a w1).
  - done.
Qed.

Lemma keeps_for_each {A} (l : list A) (body : A → M unit) :
  (∀ x, keeps_error_file (body x)) → keeps_error_file (for_each l body).
Proof.
  intros H. induction l as [|x l IH]; simpl; [apply keeps_ret|].
  apply keeps_bind; [apply H | intros _; apply IH].
Qed.

Lemma keeps_retrieve (env : Env) (version : string) :
  keeps_error_file (retrieve_all_packages_from_pulp env version).
Proof.
  apply keeps_bind; [apply keeps_exec|]. intros _.
  generalize (pulp_packages env version).1.
  induction (pulp_packages env version).2 as [|p pages IH];
    intros packages; simpl; [apply keeps_ret|].
  apply keeps_bind; [apply keeps_exec | intros _; apply IH].
Qed.

Lemma keeps_get_version (env : Env) (href : string) :
  keeps_error_file (get_repo_latest_version env href).
Proof.
  apply keeps_bind; [apply keeps_exec | intros _; apply keeps_ret].
Qed.

Lemma keeps_copy (self : Exporter) (env : Env)
    (sname dname href : string) (src : list package_dict) :
  keeps_error_file
    (copy_noarch_packages_from_x86_64_repo self env sname src dname href).
Proof.
  unfold copy_noarch_packages_from_x86_64_repo.
  apply keeps_bind; [apply keeps_get_version|]. intros v.
  apply keeps_bind; [apply keeps_retrieve|]. intros dst.
  apply keeps_bind; [apply keeps_for_each; intros e; apply keeps_log|].
  intros _. destruct (_ && _); [|apply keeps_ret].
  apply keeps_bind; [apply keeps_exec | intros _; apply keeps_exec].
Qed.

Lemma keeps_gather_loop (env : Env) (fuel : nat) (running : list prog)
    (raised : bool) :
  keeps_error_file (gather_loop env fuel running raised).
Proof.
  revert running raised.
  induction fuel as [|fuel IH]; intros running raised w.
  { simpl. by destruct raised. }
  destruct running as [|p0 rest]; [done|].
  cbn [gather_loop].
  destruct (raised && stops env (trace w)); [done|].
  destruct ((p0 :: rest) !! _) as [[|e k|l k]|]; [apply IH | | | done].
  - unfold exec. destruct (fails env (trace w) e); by rewrite IH.
  - unfold mbind, M_bind, log. by rewrite IH.
Qed.

Lemma keeps_prepare (self : Exporter) (env : Env)
    (X P : pydict (string * bool)) :
  keeps_error_file (prepare_and_execute_async_tasks self env X P).
Proof.
  unfold prepare_and_execute_async_tasks.
  destruct (negb _); [apply keeps_log|].
  apply keeps_bind.
  - induction (items X) as [|s l IH]; simpl; [apply keeps_ret|].
    apply keeps_bind; [apply keeps_get_version|]. intros v.
    apply keeps_bind; [apply keeps_retrieve|]. intros pk.
    apply keeps_bind; [apply IH | intros ?; apply keeps_ret].
  - intros tasks. apply keeps_bind; [apply keeps_log|]. intros _.
    apply keeps_gather_loop.
Qed.

Lemma keeps_export_repositories (env : Env) (repo_ids : list Z) :
  keeps_error_file (export_repositories env repo_ids).
Proof.
  unfold export_repositories, create_filesystem_exporters.
  apply keeps_bind.
  - generalize (@nil repo_exporter_dict).
    induction (db_repositories env repo_ids) as [|repo rest IH];
      intros data; simpl; [apply keeps_ret|].
    apply keeps_bind; [apply keeps_exec|]. intros _.
    apply keeps_bind; [apply keeps_get_version | intros v; apply IH].
  - intros exporters. generalize (@nil string).
    induction exporters as [|x rest IH]; intros paths; simpl;
      [apply keeps_ret|].
    apply keeps_bind; [apply keeps_exec | intros _; apply IH].
Qed.

End Frames.

(** ** Which repositories a reconciliation may change *)

Lemma touches_only_weaken (W W' : string → Prop) (t : list event) :
  (∀ h, W h → W' h) →
  Forall (touches_only W) t → Forall (touches_only W') t.
Proof.
  intros H Ht. eapply Forall_impl; [exact Ht|].
  intros e. destruct e; simpl; auto.
Qed.

Lemma emits_prepare_within (W : string → Prop) (self : Exporter)
    (env : Env) (X P : pydict (string * bool)) :
  (only_check_noarch self = false →
   ∀ n h d, (n, (h, d)) ∈ items P → W h) →
  emits (prepare_and_execute_async_tasks self env X P)
    (fun t _ => Forall (touches_only W) t).
Proof.
  intros HW. apply every_prepare; try done.
  intros Hc n h d H. split; [intros add remove|]; by apply (HW Hc n h d).
Qed.

Lemma emits_export_repositories_within (W : string → Prop) (env : Env)
    (repo_ids : list Z) :
  emits (export_repositories env repo_ids)
    (fun t _ => Forall (touches_only W) t).
Proof. by apply every_export_repositories. Qed.

Lemma emits_prepare_skipped (self : Exporter) (env : Env)
    (X P : pydict (string * bool)) :
  emits (prepare_and_execute_async_tasks self env X P)
    (fun t _ => copy_noarch_packages self = false → t = []).
Proof.
  destruct (copy_noarch_packages self) eqn:E.
  - intros w. destruct (emits_prepare_within (fun _ => True) self env X P
                          (fun _ _ _ _ _ => I) w) as (t & Ht & _).
    exists t. by split.
  - unfold prepare_and_execute_async_tasks. rewrite E. simpl.
    eapply emits_weaken; [apply emits_log|]. by intros t r [-> _].
Qed.

(** X17. Whatever the two dictionaries, whichever calls fail and
    however the event loop runs the tasks, those that go on after
    another has raised included, the pairing and reconciliation make
    requests to Pulp only, and the only repositories they modify or
    publish are those of the destination dictionary; none at all when
    only a check was asked for; and no request is made when copying
    was not asked for. *)
Theorem reconciliation_changes_destinations_only (self : Exporter)
    (env : Env) (X P : pydict (string * bool)) :
  emits (prepare_and_execute_async_tasks self env X P)
    (fun t _ =>
       Forall (touches_only (fun h => ∃ n d, (n, (h, d)) ∈ items P)) t
       ∧ (only_check_noarch self = true →
          Forall (touches_only (fun _ => False)) t)
       ∧ (copy_noarch_packages self = false → t = [])).
Proof.
  apply emits_and; [|apply emits_and].
  - apply emits_prepare_within. intros _ n h d H. by exists n, d.
  - destruct (only_check_noarch self) eqn:E.
    + eapply emits_weaken; [apply (emits_prepare_within (fun _ => False))|].
      * by rewrite E.
      * auto.
    + intros w.
      destruct (emits_prepare_skipped self env X P w) as (t & Ht & _).
      exists t. by split.
  - apply emits_prepare_skipped.
Qed.

(** ** The export of a release *)

Lemma release_dicts_ppc64le (db_repos : list Repository) (n h : string)
    (d : bool) :
  (n, (h, d)) ∈ items (release_dicts db_repos).2 →
  ∃ r, r ∈ db_repos ∧ repo_arch r = "ppc64le" ∧ repo_pulp_href r = h.
Proof.
  intros H. unfold release_dicts in H.
  apply (dict_fold_sound get_full_repo_name
           (fun r => (repo_pulp_href r, repo_debug r))
           (fun r => String.eqb (repo_arch r) "ppc64le")) in H; [|done].
  destruct H as [H | (r & Hr & Hc & _ & Hv)]; [by apply elem_of_nil in H|].
  exists r. apply String.eqb_eq in Hc. by inversion Hv.
Qed.

Lemma elem_of_release_db_repos (plan_ids : list Z)
    (repositories : list Repository) (r : Repository) :
  r ∈ release_db_repos (elements (list_to_set plan_ids : gset Z)) repositories
  ↔ r ∈ repositories ∧ repo_id r ∈ plan_ids ∧ repo_production r = true.
Proof.
  unfold release_db_repos. rewrite list_elem_of_In, filter_In.
  rewrite <- list_elem_of_In, andb_true_iff, bool_decide_eq_true.
  rewrite elem_of_elements, elem_of_list_to_set. tauto.
Qed.



(** ** A run of [main] on a release *)

Lemma keeps_try_finally {A} (body : M A) (fin : M unit) :
  keeps_error_file body → keeps_error_file fin →
  keeps_error_file (try_finally body fin).
Proof.
  intros Hb Hf w. unfold try_finally.
  pose proof (Hb w) as H1. destruct (body w) as [r w1].
  pose proof (Hf w1) as H2.
  destruct (fin w1) as [[u|] w2]; simpl in *; congruence.
Qed.

Lemma keeps_finalize (self : Exporter) (env : Env)
    (db_sign_keys : list SignKey) (key : option string)
    (platforms : list (Z * list string)) (path : string) :
  keeps_error_file
    (finalize_exported_path self env db_sign_keys key platforms path).
Proof.
  unfold finalize_exported_path. destruct (negb _); [apply keeps_ret|].
  apply keeps_try_finally; [|apply keeps_exec].
  apply keeps_bind; [apply keeps_exec|]. intros _.
  apply keeps_bind; [apply keeps_exec|]. intros _.
  apply keeps_bind.
  - destruct (PyStr.contains _ _); [apply keeps_exec | apply keeps_ret].
  - intros _. destruct (choose_key_id _ _ _ _);
      [apply keeps_exec | apply keeps_log].
Qed.

(** With no platform dictionary the key is the one looked up first,
    unless it is the empty string. *)
Lemma choose_key_id_nil (db_sign_keys : list SignKey) (key : option string)
    (path k : string) :
  choose_key_id db_sign_keys key [] path = Some k → key = Some k ∧ k ≠ "".
Proof.
  unfold choose_key_id. simpl. destruct key as [k'|]; [|done].
  destruct (String.eqb k' "") eqn:E; [done|].
  intros [= ->]. split; [done|]. by apply String.eqb_neq.
Qed.

Lemma release_call_app (key : option string) (t1 t2 : list event) :
  Forall (release_call key) t1 → Forall (release_call key) t2 →
  Forall (release_call key) (t1 ++ t2).
Proof. intros H1 H2. by apply Forall_app. Qed.

Lemma emits_exec_release (env : Env) (key : option string) (e : event) :
  release_call key e →
  emits (exec env e) (fun t _ => Forall (release_call key) t).
Proof.
  intros He. eapply emits_weaken; [apply emits_exec|].
  intros t r [-> _]. by repeat constructor.
Qed.

Lemma emits_finalize_release (self : Exporter) (env : Env)
    (db_sign_keys : list SignKey) (key : option string) (path : string) :
  emits (finalize_exported_path self env db_sign_keys key [] path)
    (fun t _ => Forall (release_call key) t).
Proof.
  assert (Hnil : ∀ A (a : A),
            emits (mret a) (fun t _ => Forall (release_call key) t)).
  { intros A a. eapply emits_weaken; [apply emits_ret|].
    intros t r [-> _]. constructor. }
  unfold finalize_exported_path. destruct (negb _); [apply Hnil|].
  apply emits_try_finally_closed;
    [apply release_call_app | | by apply emits_exec_release].
  apply emits_bind_closed;
    [apply release_call_app | by apply emits_exec_release|]. intros _.
  apply emits_bind_closed;
    [apply release_call_app | by apply emits_exec_release|]. intros _.
  apply emits_bind_closed; [apply release_call_app | |].
  - destruct (PyStr.contains _ _); [by apply emits_exec_release | apply Hnil].
  - intros _. destruct (choose_key_id _ _ _ _) as [k|] eqn:E.
    + apply emits_exec_release. simpl. by apply choose_key_id_nil in E.
    + eapply emits_weaken; [apply emits_log|]. intros t r [-> _]. constructor.
Qed.

Lemma emits_release_pulp_only (self : Exporter) (env : Env)
    (db_release : option (list Z * Z)) (repositories : list Repository) :
  emits (export_repos_from_release self env db_release repositories)
    (fun t r =>
       Forall (touches_only (fun _ => True)) t
       ∧ ∀ res, r = Ok res →
           ∃ plan_ids, db_release = Some (plan_ids, res.2)).
Proof.
  destruct db_release as [[plan_ids pid]|].
  - assert (Hall :
      emits (export_repos_from_release self env (Some (plan_ids, pid))
               repositories)
        (fun t _ => Forall (touches_only (fun _ => True)) t)).
    { cbn [export_repos_from_release].
      apply every_bind; [apply emits_prepare_within; auto|]. intros _.
      apply every_bind;
        [apply emits_export_repositories_within
        | intros ?; apply every_ret]. }
    apply emits_and; [exact Hall|].
    intros w. destruct (Hall w) as (t & Htr & _).
    exists t. split; [exact Htr|].
    cbn [export_repos_from_release]. unfold mbind, M_bind.
    destruct (prepare_and_execute_async_tasks _ _ _ _ w) as [[[]|] w1];
      [|done].
    destruct (export_repositories _ _ w1) as [[paths|] w2]; [|done].
    intros res [= <-]. by exists plan_ids.
  - intros w. exists []. split; [by rewrite app_nil_r|].
    split; [constructor | done].
Qed.

Lemma emits_after_init {A} (copy_noarch only_check show_differ : bool)
    (login : string) (subkeys_config : option (gmap string (list string)))
    (k : Exporter → M A) (Q : list event → result A → Prop) :
  (∀ self, pulp_system_user self = "pulp" → emits (k self) Q) →
  emits (Exporter_init copy_noarch only_check show_differ login
           subkeys_config ≫= k) Q.
Proof.
  intros H w. unfold mbind, M_bind, Exporter_init.
  match goal with
  | |- context [k ?self ?w0] => exact (H self eq_refl w0)
  end.
Qed.


(** ** Which repositories an export of platforms may change *)

Lemma touches_changes (W : string → Prop) (t : list event) :
  Forall (touches_only W) t → Forall (changes_only W) t.
Proof. intros H. eapply Forall_impl; [exact H|]. by intros []. Qed.

Lemma changes_only_app (W : string → Prop) (t1 t2 : list event) :
  Forall (changes_only W) t1 → Forall (changes_only W) t2 →
  Forall (changes_only W) (t1 ++ t2).
Proof. intros H1 H2. by apply Forall_app. Qed.

Lemma emits_exec_changes (W : string → Prop) (env : Env) (e : event) :
  changes_only W e →
  emits (exec env e) (fun t _ => Forall (changes_only W) t).
Proof.
  intros He. eapply emits_weaken; [apply emits_exec|].
  intros t r [-> _]. by repeat constructor.
Qed.

Lemma emits_harden_changes (W : string → Prop) (self : Exporter) (env : Env)
    (sign_keys : list SignKey) (path : string) :
  emits (harden_exported_path self env sign_keys path)
    (fun t _ => Forall (changes_only W) t).
Proof.
  unfold harden_exported_path. destruct (negb _).
  { eapply emits_weaken; [apply emits_log|]. intros t r [-> _]. constructor. }
  apply emits_try_finally_closed;
    [apply changes_only_app | | by apply emits_exec_changes].
  apply emits_bind_closed;
    [apply changes_only_app | by apply emits_exec_changes|]. intros _.
  apply emits_bind_closed;
    [apply changes_only_app | by apply emits_exec_changes|]. intros _.
  apply emits_bind_closed;
    [apply changes_only_app | by apply emits_exec_changes|]. intros _.
  intros w. exists []. split; [by rewrite app_nil_r | constructor].
Qed.

Lemma emits_export_platforms_changes (W : string → Prop) (self : Exporter)
    (env : Env) (repo_ids : option (list Z)) (arches : option (list string))
    (db_platforms : list Platform) (st : export_state) :
  emits (export_platforms self env repo_ids arches db_platforms st)
    (fun t _ => Forall (changes_only W) t).
Proof.
  revert st. induction db_platforms as [|pl ps IH]; intros st; simpl.
  - eapply emits_weaken; [apply emits_ret|]. intros t r [-> _]. constructor.
  - apply emits_bind_closed;
      [apply changes_only_app | | intros st'; apply IH].
    unfold export_platform.
    apply emits_bind_closed; [apply changes_only_app | |].
    { by apply every_export_repositories. }
    intros paths.
    apply emits_bind_closed; [apply changes_only_app | |].
    + apply emits_for_each; [constructor | apply changes_only_app|].
      intros x. apply emits_harden_changes.
    + intros _. apply emits_bind_closed; [apply changes_only_app | |].
      * eapply emits_weaken; [apply emits_log|].
        intros t r [-> _]. constructor.
      * intros _. eapply emits_weaken; [apply emits_ret|].
        intros t r [-> _]. constructor.
Qed.

Lemma distribution_dicts_other (repositories : list Repository)
    (n h : string) (d : bool) :
  (n, (h, d)) ∈ items (distribution_dicts repositories).2 →
  ∃ r, r ∈ repositories ∧ repo_arch r ≠ "src" ∧ repo_arch r ≠ "x86_64"
       ∧ repo_pulp_href r = h.
Proof.
  intros H. unfold distribution_dicts in H.
  apply (dict_fold_sound repo_name
           (fun r => (repo_pulp_href r, repo_debug r))
           (fun r => negb (String.eqb (repo_arch r) "src")
                     && negb (String.eqb (repo_arch r) "x86_64"))) in H.
  - destruct H as [H | (r & Hr & Hc & _ & Hv)]; [by apply elem_of_nil in H|].
    exists r. apply andb_true_iff in Hc as [H1 H2].
    apply negb_true_iff, String.eqb_neq in H1, H2. by inversion Hv.
  - intros s x. destruct (String.eqb (repo_arch x) "src"); [done|].
    by destruct (String.eqb (repo_arch x) "x86_64").
Qed.

(** X19. Which repositories the other two modes may change,
    whichever calls fail and however the event loop runs the tasks,
    those that go on after another has raised included.  An export of
    platforms modifies or
    publishes only [ppc64le] repositories of the platforms that are
    in production (and among the repository ids, when ids are given):
    an [x86_64] repository, the source of the reconciliation, is left
    as it is.  The check of a distribution makes requests to Pulp only
    and modifies or publishes only repositories of the distribution
    whose architecture is neither [src] nor [x86_64]; none when the
    distribution is not found. *)
Theorem changed_repositories (self : Exporter) (env : Env) :
  (∀ db_platforms repo_ids arches,
     emits (export_repos_from_pulp self env db_platforms repo_ids arches)
       (fun t _ =>
          Forall
            (changes_only
               (fun h => ∃ r, r ∈ all_repos db_platforms
                              ∧ selected repo_ids r
                              ∧ repo_arch r = "ppc64le"
                              ∧ repo_pulp_href r = h)) t))
  ∧ (∀ db_distr,
       emits (check_noarch_in_user_distribution_repos self env db_distr)
         (fun t _ =>
            Forall
              (touches_only
                 (fun h => ∃ repositories r,
                             db_distr = Some repositories
                             ∧ r ∈ repositories
                             ∧ repo_arch r ≠ "src"
                             ∧ repo_arch r ≠ "x86_64"
                             ∧ repo_pulp_href r = h)) t)).
Proof.
  split.
  - intros db_platforms repo_ids arches. unfold export_repos_from_pulp.
    eapply (emits_bind_with _ _
              (fun _ r => ∀ st, r = Ok st →
                 all_ppc64le st
                 = (pulp_dicts repo_ids arches db_platforms).2));
      [apply changes_only_app | |].
    + apply emits_and; [apply emits_export_platforms_changes|].
      intros w.
      destruct (emits_export_platforms_changes (fun _ => True) self env
                  repo_ids arches db_platforms initial_export_state w)
        as (t & Ht & _).
      exists t. split; [done|]. intros st Hst.
      destruct (export_platforms _ _ _ _ _ _ w) as [r w'] eqn:E.
      simpl in Hst. subst r.
      by destruct (export_platforms_dicts _ _ _ _ _ _ _ _ _ E) as [_ ->].
    + intros st t Hst. simpl in Hst. rewrite (Hst st eq_refl).
      apply emits_bind_closed; [apply changes_only_app | |].
      * eapply emits_weaken; [|intros t' r; apply touches_changes].
        apply emits_prepare_within. intros _ n h d H.
        apply entry_ppc64le in H as (r & Hr & Hs & Ha & _ & Hv).
        exists r. by inversion Hv.
      * intros _. eapply emits_weaken; [apply emits_ret|].
        intros t' r [-> _]. constructor.
  - intros [repositories|]; unfold check_noarch_in_user_distribution_repos.
    + apply emits_prepare_within. intros _ n h d H.
      apply distribution_dicts_other in H as (r & H).
      by exists repositories, r.
    + intros w. exists []. by rewrite app_nil_r.
Qed.

(** ** Signing of [repomd.xml] *)

Lemma universal_newlines_samples :
  Signer.universal_newlines [97; 13; 10; 98; 13; 99; 10; 13]%N
  = [97; 10; 98; 10; 99; 10; 10]%N
  ∧ Signer.decode Signer.ascii_io "new" = Some [110; 101; 119]%N
  ∧ (Signer.repomd_signer Signer.ascii_io Signer.one_key_service
       "/r/repodata" (Some "ABCDEF12") Signer.stale_state).2
    = {| Signer.files := {[ "/r/repodata/repomd.xml" := "new";
                            "/r/repodata/repomd.xml.asc" := "ok" ]};
         Signer.requests := [([110; 101; 119]%N, "ABCDEF12")];
         Signer.messages := [Signer.Signed "/r/repodata"] |}.
Proof. split; [|split]; vm_compute; reflexivity. Qed.

Lemma path_join_inj (a b b' : string) :
  PyStr.startswith b "/" = false → PyStr.startswith b' "/" = false →
  PyStr.path_join a b = PyStr.path_join a b' → b = b'.
Proof.
  intros Hb Hb'. unfold PyStr.path_join. rewrite Hb, Hb'.
  destruct (_ || _); intros E; apply (f_equal list_ascii_of_string) in E;
    rewrite !list_ascii_app in E.
  - apply app_inv_head in E. by apply list_ascii_inj.
  - do 2 apply app_inv_head in E. by apply list_ascii_inj.
Qed.

(** X20. The signing of a [repomd.xml], for every answer of the sign
    service and every encoding.  No file other than [repomd.xml.asc]
    of the directory is changed, [repomd.xml] itself in particular.
    Without a key nothing is read or sent and the function returns.
    It raises exactly when there is a key and [repomd.xml] is missing
    or does not decode, or the request raises, or the answer holds
    neither a signature nor an error, or the signature cannot be
    written.  An answer that holds an error and no signature is logged
    and the function returns, with the files as they were, an earlier
    [repomd.xml.asc] included.  An answer that holds a signature
    leaves in [repomd.xml.asc] the bytes written of it.  At most one
    call of the sign service is made; it carries the key and the
    decoded content of [repomd.xml] with [CR LF] and [CR] turned into
    [LF]. *)
Theorem signing_effect (io : Signer.TextIO)
    (sign_repomd_xml : Signer.text → string → option Signer.answer)
    (repodata_path : string) (key_id : option string) (s : Signer.state) :
  let xml := PyStr.path_join repodata_path "repomd.xml" in
  let asc := PyStr.path_join repodata_path "repomd.xml.asc" in
  let r := (Signer.repomd_signer io sign_repomd_xml repodata_path key_id
              s).1 in
  let s' := (Signer.repomd_signer io sign_repomd_xml repodata_path key_id
               s).2 in
  let content_of stored :=
    Signer.universal_newlines <$> Signer.decode io stored in
  (∀ p, p ≠ asc → Signer.files s' !! p = Signer.files s !! p)
  ∧ Signer.files s' !! xml = Signer.files s !! xml
  ∧ (key_id = None →
     r = Ok tt ∧ Signer.files s' = Signer.files s
     ∧ Signer.requests s' = Signer.requests s)
  ∧ (r = Raised ↔
     ∃ k, key_id = Some k
          ∧ (Signer.files s !! xml = None
             ∨ ∃ stored,
                 Signer.files s !! xml = Some stored
                 ∧ (content_of stored = None
                    ∨ ∃ content,
                        content_of stored = Some content
                        ∧ (sign_repomd_xml content k = None
                           ∨ ∃ a, sign_repomd_xml content k = Some a
                                  ∧ match Signer.asc_content a with
                                    | None => Signer.error a = None
                                    | Some signature =>
                                        Signer.raises_on_write io signature
                                        = true
                                    end))))
  ∧ (∀ k stored content a e,
       key_id = Some k → Signer.files s !! xml = Some stored →
       content_of stored = Some content →
       sign_repomd_xml content k = Some a →
       Signer.asc_content a = None → Signer.error a = Some e →
       r = Ok tt ∧ Signer.files s' = Signer.files s
       ∧ Signer.messages s'
         = Signer.messages s ++ [Signer.FailedToSign repodata_path e])
  ∧ (∀ k stored content a signature,
       key_id = Some k → Signer.files s !! xml = Some stored →
       content_of stored = Some content →
       sign_repomd_xml content k = Some a →
       Signer.asc_content a = Some signature →
       Signer.files s' !! asc = Some (Signer.written_bytes io signature))
  ∧ (Signer.requests s' = Signer.requests s
     ∨ ∃ k stored content,
         key_id = Some k ∧ Signer.files s !! xml = Some stored
         ∧ content_of stored = Some content
         ∧ Signer.requests s' = Signer.requests s ++ [(content, k)]).
Proof.
  intros xml asc r s' content_of. subst r s' content_of.
  assert (Hne : xml ≠ asc).
  { intros E. by apply path_join_inj in E. }
  unfold Signer.repomd_signer. fold xml asc.
  destruct key_id as [k|];
    [destruct (Signer.files s !! xml) as [stored|] eqn:Hxml;
     [destruct (Signer.decode io stored) as [decoded|] eqn:Hdec;
      [destruct (sign_repomd_xml (Signer.universal_newlines decoded) k)
         as [a|] eqn:Hsign;
       [destruct (Signer.asc_content a) as [signature|] eqn:Hasc;
        [destruct (Signer.raises_on_write io signature) eqn:Hw
        |destruct (Signer.error a) as [e|] eqn:Herr]|]|]|]|];
    cbn [fst snd Signer.files Signer.requests Signer.messages
         Signer.say Signer.sent Signer.written fmap option_fmap option_map];
    rewrite ?Hxml;
    (split; [intros p Hp; by rewrite ?lookup_insert_ne|]);
    (split; [by rewrite ?lookup_insert_ne|]);
    (split; [done|]);
    (split;
       [split;
          [first [done | intros _; exists k; split; [done|];
                         first [by left | right; exists stored;
                                split; [done|]; rewrite Hdec; cbn;
                                first [by left | right; eexists;
                                       split; [done|];
                                       first [by left | right; exists a;
                                              split; [done|];
                                              by rewrite Hasc]]]]
          | first [done
                  | intros (k' & Hk & H); exfalso; simplify_eq;
                    destruct H as [H | (st' & H1 & H)]; simplify_eq;
                    rewrite ?Hdec in H; cbn in H;
                    destruct H as [H | (c' & H1 & [H | (a' & H2 & H)])];
                    simplify_eq; rewrite Hasc in H; congruence] ]|]);
    (split;
       [intros k' st' c' a' e' Hk H1 H2 H3 H4 H5; simplify_eq;
        rewrite ?Hdec in H2; cbn in H2; simplify_eq; done|]);
    (split;
       [intros k' st' c' a' sg Hk H1 H2 H3 H4; simplify_eq;
        rewrite ?Hdec in H2; cbn in H2; simplify_eq;
        apply lookup_insert_eq|]);
    first [by left
          | right; exists k, stored; eexists; rewrite Hdec; by cbn].
Qed.

Lemma signing_effect_witness :
  let out := Signer.repomd_signer Signer.ascii_io Signer.one_key_service
               "/r/repodata" (Some "00000000") Signer.stale_state in
  out.1 = Ok tt
  ∧ Signer.files out.2 = Signer.files Signer.stale_state
  ∧ Signer.messages out.2
    = Signer.messages Signer.stale_state
      ++ [Signer.FailedToSign "/r/repodata" "unknown key"].
Proof.
  refine (proj1 (proj2 (proj2 (proj2 (proj2
            (signing_effect Signer.ascii_io Signer.one_key_service
               "/r/repodata" (Some "00000000") Signer.stale_state)))))
            "00000000" "new" [110; 101; 119]%N
            {| Signer.asc_content := None;
               Signer.error := Some "unknown key" |}
            "unknown key" eq_refl _ _ eq_refl eq_refl eq_refl);
    vm_compute; reflexivity.
Defined.

(** ** Exporters in Pulp *)

Lemma prefix_app_split {A} (t a b : list A) :
  t `prefix_of` a ++ b →
  t `prefix_of` a ∨ ∃ k, t = a ++ k ∧ k `prefix_of` b.
Proof.
  revert t. induction a as [|x a IH]; intros t H; simpl in H.
  - right. by exists t.
  - destruct t as [|y t]; [left; apply prefix_nil|].
    destruct H as [k Hk]. simpl in Hk. injection Hk as <- Hk.
    destruct (IH t) as [H | (k' & -> & H)]; [by exists k | |].
    + left. by apply prefix_cons.
    + right. by exists k'.
Qed.

Section ExportersRun.
Variable export_path_of : Repository → string.
Variable pulp : Provision.Pulp.

Abbreviation create_loop := (Provision.create_loop export_path_of pulp).
Abbreviation export_loop := (Provision.export_loop pulp).
Abbreviation delete_loop := (Provision.delete_loop pulp).
Abbreviation provision_calls := (Provision.provision_calls export_path_of).
Abbreviation export_calls := (Provision.export_calls export_path_of pulp).
Abbreviation exporter_of_repo :=
  (Provision.exporter_of_repo export_path_of pulp).

Abbreviation runs_through := (Provision.runs_through pulp).

Lemma runs_ret {A} (a : A) : runs_through (mret a) [] a.
Proof.
  intros s. split; [done|]. exists []. rewrite app_nil_r.
  repeat split; try done; simpl in *; congruence.
Qed.

Lemma runs_request {A} (c : Provision.call) (k : Provision.P A)
    (whole : list Provision.call) (a : A) :
  runs_through k whole a →
  runs_through (Provision.request pulp c ;; k) (c :: whole) a.
Proof.
  intros Hk s. unfold mbind, Provision.P_mbind, Provision.P_bind,
    Provision.request.
  destruct (Provision.fails pulp (Provision.calls s) c) eqn:E.
  - split; [done|]. exists [c]. simpl.
    repeat split; try done.
    + apply prefix_cons, prefix_nil.
    + intros Hok. by rewrite Hok in E.
  - match goal with |- context [k ?s0] => destruct (Hk s0)
      as (Hm & t & Ht & Hp & Hr & Hok) end.
    split; [done|]. exists (c :: t). simpl in Ht. rewrite Ht.
    rewrite <- app_assoc. repeat split; try done.
    + by apply prefix_cons.
    + by destruct (Hr r H) as [-> _].
    + by destruct (Hr r H) as [_ ->].
Qed.

Lemma create_loop_runs (repositories : list Repository)
    (export_data : list Provision.exporter_dict) :
  runs_through (create_loop repositories export_data)
    (provision_calls repositories)
    (export_data ++ (exporter_of_repo <$> repositories)).
Proof.
  revert export_data.
  induction repositories as [|repo rest IH]; intros export_data; simpl.
  - rewrite app_nil_r. apply runs_ret.
  - do 2 apply runs_request.
    specialize (IH (export_data ++ [exporter_of_repo repo])).
    rewrite <- app_assoc in IH. exact IH.
Qed.

Lemma delete_loop_runs (existing : list (string * string))
    (deleted : list string) :
  runs_through (delete_loop existing deleted)
    ((fun e => Provision.DeleteFilesystemExporter e.1) <$> existing)
    (deleted ++ existing.*2).
Proof.
  revert deleted. induction existing as [|e rest IH]; intros deleted; simpl.
  - rewrite app_nil_r. apply runs_ret.
  - apply runs_request.
    specialize (IH (deleted ++ [e.2])).
    rewrite <- app_assoc in IH. exact IH.
Qed.

(** The same for the loop of exports, which logs before each
    request. *)
Lemma export_loop_runs (repositories : list Repository)
    (exported_paths : list string) (s : Provision.state) :
  let out := export_loop (exporter_of_repo <$> repositories)
               exported_paths s in
  ∃ t, Provision.calls out.2 = Provision.calls s ++ t
       ∧ t `prefix_of` export_calls repositories
       ∧ (∀ r, out.1 = Ok r →
            t = export_calls repositories
            ∧ r = exported_paths ++ (export_path_of <$> repositories))
       ∧ (Provision.reliable pulp →
          out.1 = Ok (exported_paths ++ (export_path_of <$> repositories))).
Proof.
  revert exported_paths s.
  induction repositories as [|repo rest IH]; intros exported_paths s; simpl.
  - exists []. rewrite !app_nil_r.
    repeat split; try done; simpl in *; congruence.
  - unfold mbind, Provision.P_mbind, Provision.P_bind, Provision.info,
      Provision.request. simpl.
    destruct (Provision.fails pulp _ _) eqn:E.
    + eexists [_]. simpl. repeat split; try done.
      * apply prefix_cons, prefix_nil.
      * intros Hok. by rewrite Hok in E.
    + match goal with |- context [Provision.export_loop _ _ ?p ?s0] =>
        destruct (IH p s0) as (t & Ht & Hp & Hr & Hok) end.
      rewrite <- (app_assoc exported_paths) in Hr, Hok.
      simpl in Ht. rewrite <- app_assoc in Ht.
      eexists (_ :: t). split; [exact Ht|]. split; [by apply prefix_cons|].
      split; [|exact Hok].
      intros r H. by destruct (Hr r H) as [-> ->].
Qed.

End ExportersRun.

(** X21. The export of repositories to the filesystem, whichever
    requests raise.  The repositories concerned are those of the table
    whose id is among the ids, in the order of the table.  The
    requests made are the first ones of this sequence: for each
    repository in turn the creation of its exporter and the reading of
    its latest version, then for each repository in turn the export,
    through the exporter created for it, of the version read for it.
    So no export is asked for before every exporter is created.  When
    the function returns, all these requests were made and the paths
    returned are the export paths of the repositories, in that order;
    and it returns when no request raises. *)
Theorem exporters_before_exports (export_path_of : Repository → string)
    (pulp : Provision.Pulp) (table : list Repository) (repo_ids : list Z)
    (s : Provision.state) :
  let repositories :=
    List.filter (fun r => bool_decide (repo_id r ∈ repo_ids)) table in
  let whole := Provision.provision_calls export_path_of repositories
               ++ Provision.export_calls export_path_of pulp repositories in
  let out := Provision.export_repositories export_path_of pulp table
               repo_ids s in
  ∃ t, Provision.calls out.2 = Provision.calls s ++ t
       ∧ t `prefix_of` whole
       ∧ (∀ href version,
            Provision.ExportToFilesystem href version ∈ t →
            Provision.provision_calls export_path_of repositories
              `prefix_of` t)
       ∧ (∀ paths, out.1 = Ok paths →
            t = whole ∧ paths = export_path_of <$> repositories)
       ∧ (Provision.reliable pulp →
          out.1 = Ok (export_path_of <$> repositories)).
Proof.
  intros repositories whole out.
  assert (H : ∃ t, Provision.calls out.2 = Provision.calls s ++ t
                   ∧ t `prefix_of` whole
                   ∧ (∀ paths, out.1 = Ok paths →
                        t = whole ∧ paths = export_path_of <$> repositories)
                   ∧ (Provision.reliable pulp →
                      out.1 = Ok (export_path_of <$> repositories))).
  { subst out. unfold Provision.export_repositories,
      Provision.create_filesystem_exporters. fold repositories.
    unfold mbind, Provision.P_mbind, Provision.P_bind.
    destruct (create_loop_runs export_path_of pulp repositories [] s)
      as (_ & t1 & Ht1 & Hp1 & Hr1 & Hok1).
    destruct (Provision.create_loop _ _ _ _ s) as [[data|] s1]; simpl in *.
    - destruct (Hr1 data eq_refl) as [-> ->].
      destruct (export_loop_runs export_path_of pulp repositories [] s1)
        as (t2 & Ht2 & Hp2 & Hr2 & Hok2). simpl in *.
      exists (Provision.provision_calls export_path_of repositories ++ t2).
      rewrite Ht2, Ht1, <- app_assoc. repeat split; try done.
      + by apply prefix_app.
      + by destruct (Hr2 paths H) as [-> _].
      + by destruct (Hr2 paths H) as [_ ->].
    - exists t1. repeat split; try done.
      + by apply prefix_app_r.
      + intros Hok. by specialize (Hok1 Hok). }
  destruct H as (t & Ht & Hp & Hr & Hok). exists t.
  split; [done|]. split; [done|]. split; [|by split].
  intros href version Hin.
  apply prefix_app_split in Hp as [Hp | (k & -> & _)];
    [|by apply prefix_app_r].
  exfalso. destruct Hp as [k Hk].
  assert (Hin' : Provision.ExportToFilesystem href version
                 ∈ Provision.provision_calls export_path_of repositories).
  { rewrite Hk. apply elem_of_app. by left. }
  unfold Provision.provision_calls in Hin'.
  apply list_elem_of_In, in_flat_map in Hin' as (r & _ & Hr').
  simpl in Hr'. by destruct Hr' as [Hr' | [Hr' | []]].
Qed.

Lemma exporters_before_exports_witness :
  Provision.reliable Provision.quiet_pulp
  ∧ (Provision.export_repositories
       (fun r => "/srv/exports/" +:+ repo_export_path r +:+ "/Packages")
       Provision.quiet_pulp (platform_repos three_arch_platform) [2; 1]%Z
       Provision.start).1
    = Ok ((fun r => "/srv/exports/" +:+ repo_export_path r +:+ "/Packages")
          <$> List.filter (fun r => bool_decide (repo_id r ∈ [2; 1]%Z))
                (platform_repos three_arch_platform)).
Proof.
  assert (Hok : Provision.reliable Provision.quiet_pulp)
    by (intros t c; reflexivity).
  split; [exact Hok|].
  destruct (exporters_before_exports
              (fun r => "/srv/exports/" +:+ repo_export_path r +:+ "/Packages")
              Provision.quiet_pulp (platform_repos three_arch_platform)
              [2; 1]%Z Provision.start) as (t & _ & _ & _ & _ & H).
  exact (H Hok).
Defined.

Lemma delete_tail_runs (pulp : Provision.Pulp) (s : Provision.state) :
  let out :=
    (Provision.delete_loop pulp (Provision.existing_exporters pulp) []
     ≫= fun deleted_exporters : list string =>
          match deleted_exporters with
          | [] => mret tt
          | _ :: _ => Provision.info (Provision.Deleted deleted_exporters)
          end) s in
  ∃ t, Provision.calls out.2 = Provision.calls s ++ t
       ∧ t `prefix_of` ((fun e => Provision.DeleteFilesystemExporter e.1)
                        <$> Provision.existing_exporters pulp)
       ∧ (out.1 = Ok tt →
          t = ((fun e => Provision.DeleteFilesystemExporter e.1)
               <$> Provision.existing_exporters pulp)
          ∧ Provision.messages out.2
            = Provision.messages s
              ++ match Provision.existing_exporters pulp with
                 | [] => []
                 | _ :: _ =>
                     [Provision.Deleted (Provision.existing_exporters pulp).*2]
                 end)
       ∧ (out.1 = Raised → Provision.messages out.2 = Provision.messages s)
       ∧ (Provision.reliable pulp → out.1 = Ok tt).
Proof.
  unfold mbind, Provision.P_mbind, Provision.P_bind.
  destruct (delete_loop_runs pulp (Provision.existing_exporters pulp) [] s)
    as (Hm & t & Ht & Hp & Hr & Hok).
  destruct (Provision.delete_loop pulp (Provision.existing_exporters pulp)
              [] s) as [[deleted|] s1]; simpl in *.
  - destruct (Hr deleted eq_refl) as [-> ->].
    exists ((fun e => Provision.DeleteFilesystemExporter e.1)
            <$> Provision.existing_exporters pulp).
    destruct (Provision.existing_exporters pulp) as [|e rest]; simpl in *;
      rewrite ?Hm; rewrite ?app_nil_r in *; by repeat split.
  - exists t. repeat split; try done.
    intros Hrel. by specialize (Hok Hrel).
Qed.

(** X22. The removal of the exporters left in Pulp, whichever requests
    raise: the requests made are the first ones of the listing
    followed by one deletion for each exporter listed, in the order
    of the list.  When the function returns, every listed exporter
    was asked to be deleted, and the names are logged when there was
    any.  When it raises nothing is logged, though exporters may have
    been deleted.  It returns when no request raises. *)
Theorem stale_exporters_deleted (pulp : Provision.Pulp)
    (s : Provision.state) :
  let whole :=
    Provision.ListFilesystemExporters
    :: ((fun e => Provision.DeleteFilesystemExporter e.1)
        <$> Provision.existing_exporters pulp) in
  let out := Provision.delete_existing_exporters_from_pulp pulp s in
  ∃ t, Provision.calls out.2 = Provision.calls s ++ t
       ∧ t `prefix_of` whole
       ∧ (out.1 = Ok tt →
          t = whole
          ∧ Provision.messages out.2
            = Provision.messages s
              ++ match Provision.existing_exporters pulp with
                 | [] => []
                 | _ :: _ =>
                     [Provision.Deleted (Provision.existing_exporters pulp).*2]
                 end)
       ∧ (out.1 = Raised → Provision.messages out.2 = Provision.messages s)
       ∧ (Provision.reliable pulp → out.1 = Ok tt).
Proof.
  intros whole out.
  set (s0 := {| Provision.calls :=
                  Provision.calls s ++ [Provision.ListFilesystemExporters];
                Provision.messages := Provision.messages s |}).
  destruct (Provision.fails pulp (Provision.calls s)
              Provision.ListFilesystemExporters) eqn:E.
  - assert (Hout : out = (Raised, s0)).
    { subst out. unfold Provision.delete_existing_exporters_from_pulp.
      unfold mbind at 1. unfold Provision.P_mbind, Provision.P_bind,
        Provision.request. by rewrite E. }
    rewrite Hout. exists [Provision.ListFilesystemExporters].
    split; [done|]. split; [apply prefix_cons, prefix_nil|].
    split; [done|]. split; [done|].
    intros Hrel. by rewrite Hrel in E.
  - destruct (delete_tail_runs pulp s0) as (t & Ht & Hp & Hr & Hraise & Hok).
    assert (Hout : out
                   = (Provision.delete_loop pulp
                        (Provision.existing_exporters pulp) []
                      ≫= fun deleted_exporters : list string =>
                           match deleted_exporters with
                           | [] => mret tt
                           | _ :: _ =>
                               Provision.info
                                 (Provision.Deleted deleted_exporters)
                           end) s0).
    { subst out. unfold Provision.delete_existing_exporters_from_pulp.
      unfold mbind at 1. unfold Provision.P_mbind at 1.
      unfold Provision.P_bind at 1. unfold Provision.request.
      by rewrite E. }
    rewrite Hout. exists (Provision.ListFilesystemExporters :: t).
    split; [|split; [|split; [|split]]].
    + etransitivity; [exact Ht|]. simpl. by rewrite <- app_assoc.
    + by apply prefix_cons.
    + intros H. destruct (Hr H) as [-> Hmsg]. by split.
    + done.
    + done.
Qed.

Lemma stale_exporters_deleted_witness :
  Provision.reliable Provision.quiet_pulp
  ∧ (Provision.delete_existing_exporters_from_pulp Provision.quiet_pulp
       Provision.start).1 = Ok tt.
Proof.
  assert (Hok : Provision.reliable Provision.quiet_pulp)
    by (intros t c; reflexivity).
  split; [exact Hok|].
  destruct (stale_exporters_deleted Provision.quiet_pulp Provision.start)
    as (t & _ & _ & _ & _ & H).
  exact (H Hok).
Defined.

(** ** The steps on an exported path *)

Ltac close_interrupted env :=
  unfold interrupted; cbn [attempted];
  split_on_failures env; cbn [fst snd trace];
  repeat match goal with
         | H : fails env _ _ = _ |- _ =>
             progress (rewrite <- ?app_assoc in H; cbn [app] in H)
         end;
  rewrite <- ?app_assoc; cbn [app];
  (split; [reflexivity|]);
  (split; [intros ?; first [congruence | by split]
          | intros [? ?]; congruence]).

(** X23. On an exported path that exists, in both loops and whichever
    calls fail: the calls made are the steps of the body of the [try],
    in order, up to and including the first that raises and no
    further, followed by the reversion of the ownership; and the
    iteration returns exactly when none of these calls raises.  In
    [export_repos_from_pulp] the steps are the transfer to the
    operator, the removal of stray files and the listing of the
    verification; in [main] the transfer, the regeneration of the
    metadata, the update of the errata when the path contains
    [ppc64le], and the signing when a key was chosen.  So a
    [repomd.xml] is signed only when the regeneration, and the update
    of the errata when there is one, have not raised. *)
Theorem steps_in_order (self : Exporter) (env : Env)
    (sign_keys db_sign_keys : list SignKey)
    (key_id_by_platform : option string)
    (platforms : list (Z * list string)) (path : string) (w : world) :
  (path_exists env path = true →
   interrupted env (harden_steps self path)
     (Chown (pulp_system_user self) path)
     (harden_exported_path self env sign_keys path) w)
  ∧ (path_exists env (path_parent env path) = true →
     interrupted env
       (finalize_steps self env db_sign_keys key_id_by_platform
          platforms path)
       (Chown (pulp_system_user self) (path_parent env path))
       (finalize_exported_path self env db_sign_keys key_id_by_platform
          platforms path) w).
Proof.
  split.
  - intros Hex. unfold harden_exported_path, harden_steps.
    rewrite Hex. cbn [negb].
    unfold try_finally, check_rpms_signature, record_scan, mbind, M_bind,
      exec.
    close_interrupted env.
  - intros Hex. unfold finalize_exported_path, finalize_steps.
    rewrite Hex. cbn [negb].
    unfold try_finally, mbind, M_bind, exec.
    destruct (PyStr.contains "ppc64le" path);
      destruct (choose_key_id _ _ _ _);
      unfold log, mret, M_ret, exec; cbn [app];
      close_interrupted env.
Qed.

Lemma steps_in_order_witness :
  path_exists errata_fails_env (path_parent errata_fails_env
                                  "/r/ppc64le/Packages") = true
  ∧ trace (finalize_exported_path (exporter_of ∅) errata_fails_env
             [key_11112222] (Some "11112222") [] "/r/ppc64le/Packages"
             empty_world).2
    = [Chown "operator" "/r/ppc64le"; RegenerateRepoMetadata "/r/ppc64le";
       UpdatePpc64leErrata "/r/ppc64le/repodata"; Chown "pulp" "/r/ppc64le"].
Proof.
  split; [reflexivity|].
  refine (eq_trans
    (proj1 (proj2 (steps_in_order (exporter_of ∅) errata_fails_env []
                     [key_11112222] (Some "11112222") []
                     "/r/ppc64le/Packages" empty_world) eq_refl)) _).
  vm_compute. reflexivity.
Defined.

(** ** Keys of the dictionaries *)

Lemma append_inv_tail (a b s : string) : a +:+ s = b +:+ s → a = b.
Proof.
  intros E. apply (f_equal list_ascii_of_string) in E.
  rewrite !list_ascii_app in E. apply app_inv_tail in E.
  by apply list_ascii_inj.
Qed.

Lemma append_inv_head (s a b : string) : s +:+ a = s +:+ b → a = b.
Proof.
  intros E. apply (f_equal list_ascii_of_string) in E.
  rewrite !list_ascii_app in E. apply app_inv_head in E.
  by apply list_ascii_inj.
Qed.

Lemma append_longer (a s : string) : a +:+ s = s → a = "".
Proof.
  intros E. apply (f_equal list_ascii_of_string) in E.
  rewrite list_ascii_app in E. apply (f_equal length) in E.
  rewrite length_app in E.
  destruct a; [done | simpl in E; lia].
Qed.

(** X24. The key of a repository in the dictionaries of the
    reconciliation tells apart, within an architecture, repositories
    of the same debug flag with different names, and the debug
    repository from the other one of the same name. *)
Theorem full_name_distinguishes (r r' : Repository) :
  repo_arch r = repo_arch r' →
  get_full_repo_name r = get_full_repo_name r' →
  (repo_debug r = repo_debug r' → repo_name r = repo_name r')
  ∧ (repo_name r = repo_name r' → repo_debug r = repo_debug r').
Proof.
  unfold get_full_repo_name. intros Ha E. rewrite Ha in E. split.
  - intros Hd. rewrite Hd in E. by apply append_inv_tail in E.
  - intros Hn. rewrite Hn in E. do 2 apply append_inv_head in E.
    destruct (repo_debug r), (repo_debug r'); try done.
    + by apply append_longer in E.
    + symmetry in E. by apply append_longer in E.
Qed.

Lemma full_name_distinguishes_witness :
  (repo_debug (repo_of 1 "ppc64le") = repo_debug (repo_of 2 "ppc64le") →
   repo_name (repo_of 1 "ppc64le") = repo_name (repo_of 2 "ppc64le"))
  ∧ (repo_name (repo_of 1 "ppc64le") = repo_name (repo_of 2 "ppc64le") →
     repo_debug (repo_of 1 "ppc64le") = repo_debug (repo_of 2 "ppc64le")).
Proof.
  apply (full_name_distinguishes (repo_of 1 "ppc64le") (repo_of 2 "ppc64le"));
    reflexivity.
Defined.

(** ** The text of the error file *)

Lemma append_assoc (a b c : string) : (a +:+ b) +:+ c = a +:+ (b +:+ c).
Proof.
  apply list_ascii_inj. rewrite !list_ascii_app. by rewrite app_assoc.
Qed.

Lemma join_cons (sep x : string) (l : list string) :
  l ≠ [] → PyStr.join sep (x :: l) = x +:+ sep +:+ PyStr.join sep l.
Proof. by destruct l. Qed.

Lemma join_glued (sep : string) (lines1 lines2 : list string) :
  lines1 ≠ [] → lines2 ≠ [] →
  PyStr.join sep lines1 +:+ PyStr.join sep lines2
  = PyStr.join sep (glued lines1 lines2).
Proof.
  intros H1 H2. unfold glued.
  induction lines1 as [|x l IH]; [done|]. destruct l as [|x' l].
  - destruct lines2 as [|y l2]; [done|].
    cbn [List.removelast List.last List.hd List.tl app].
    change (PyStr.join sep [x]) with x. destruct l2 as [|y' l2]; [done|].
    rewrite (join_cons sep y), (join_cons sep (x +:+ y)) by done.
    by rewrite append_assoc.
  - rewrite (join_cons sep x (x' :: l)) by done.
    rewrite !append_assoc, IH by done.
    change (List.removelast (x :: x' :: l))
      with (x :: List.removelast (x' :: l)).
    change (List.last (x :: x' :: l) "") with (List.last (x' :: l) "").
    rewrite <- (app_comm_cons (List.removelast (x' :: l)) _ x).
    rewrite join_cons; [done|].
    by destruct (List.removelast (x' :: l)).
Qed.

Lemma last_elem_of {A} (l : list A) (d : A) : l ≠ [] → List.last l d ∈ l.
Proof.
  intros H. rewrite (app_removelast_last d H) at 2.
  apply elem_of_app. right. apply list_elem_of_here.
Qed.

Lemma nonempty_true (X : gset string) : nonempty X = true ↔ X ≠ ∅.
Proof.
  unfold nonempty. rewrite negb_true_iff, bool_decide_eq_false. done.
Qed.

Lemma elements_nonempty (X : gset string) : X ≠ ∅ → elements X ≠ [].
Proof.
  intros H E. apply H, leibniz_equiv. by apply elements_empty_inv.
Qed.

Lemma last_app_r {A} (a l : list A) (d : A) :
  l ≠ [] → List.last (a ++ l) d = List.last l d.
Proof.
  intros Hl. induction a as [|x a IH]; [done|].
  simpl. rewrite IH. destruct (a ++ l) eqn:E; [|done].
  by apply app_eq_nil in E as [_ ->].
Qed.

Lemma section_last (h : string) (X : gset string) :
  X ≠ ∅ → List.last (h :: elements X) "" ∈ X.
Proof.
  intros HX. apply elements_nonempty in HX.
  destruct (elements X) as [|x xs] eqn:E; [done|].
  apply elem_of_elements. rewrite E.
  change (List.last (h :: x :: xs) "") with (List.last (x :: xs) "").
  by apply last_elem_of.
Qed.

Lemma nonempty_false (X : gset string) : nonempty X = false ↔ X = ∅.
Proof.
  unfold nonempty. rewrite negb_false_iff, bool_decide_eq_true. done.
Qed.

Lemma report_lines_ends (r : report) :
  has_findings r →
  report_lines r ≠ []
  ∧ List.hd "" (report_lines r) ∈ headings
  ∧ (List.last (report_lines r) "" ∈ errored_packages r
     ∨ List.last (report_lines r) "" ∈ no_signature_packages r
     ∨ List.last (report_lines r) "" ∈ wrong_signature_packages r).
Proof.
  intros H. unfold report_lines, headings. split; [|split].
  - destruct (nonempty (errored_packages r)) eqn:E1; [done|].
    destruct (nonempty (no_signature_packages r)) eqn:E2; [done|].
    destruct (nonempty (wrong_signature_packages r)) eqn:E3; [done|].
    apply nonempty_false in E1, E2, E3.
    by destruct H as [H | [H | H]].
  - destruct (nonempty (errored_packages r)) eqn:E1;
      [cbn [app List.hd]; set_solver|].
    destruct (nonempty (no_signature_packages r)) eqn:E2;
      [cbn [app List.hd]; set_solver|].
    destruct (nonempty (wrong_signature_packages r)) eqn:E3;
      [cbn [app List.hd]; set_solver|].
    apply nonempty_false in E1, E2, E3.
    by destruct H as [H | [H | H]].
  - destruct (nonempty (wrong_signature_packages r)) eqn:E3.
    { right; right. apply nonempty_true in E3.
      rewrite app_assoc, last_app_r by done. by apply section_last. }
    rewrite app_nil_r.
    destruct (nonempty (no_signature_packages r)) eqn:E2.
    { right; left. apply nonempty_true in E2.
      rewrite last_app_r by done. by apply section_last. }
    rewrite app_nil_r.
    destruct (nonempty (errored_packages r)) eqn:E1.
    { left. apply nonempty_true in E1. by apply section_last. }
    apply nonempty_false in E1, E2, E3.
    by destruct H as [H | [H | H]].
Qed.

(** X25. Two verifications of one run that both have findings leave
    in the error file, after what it held, the lines of the two
    reports with no line break between them: the last line of the
    first report, which names a package, and the first line of the
    second, which is a heading, make one line. *)
Theorem reports_share_a_line (r1 r2 : report) (file : option string) :
  has_findings r1 → has_findings r2 →
  write_report r2 (write_report r1 file)
  = Some (default "" file
          +:+ PyStr.join nl (glued (report_lines r1) (report_lines r2)))
  ∧ List.hd "" (report_lines r2) ∈ headings
  ∧ (List.last (report_lines r1) "" ∈ errored_packages r1
     ∨ List.last (report_lines r1) "" ∈ no_signature_packages r1
     ∨ List.last (report_lines r1) "" ∈ wrong_signature_packages r1).
Proof.
  intros H1 H2.
  destruct (report_lines_ends r1 H1) as (Hn1 & _ & Hl1).
  destruct (report_lines_ends r2 H2) as (Hn2 & Hh2 & _).
  split; [|by split].
  assert (Hw : ∀ r f, has_findings r →
            write_report r f
            = Some (default "" f +:+ PyStr.join nl (report_lines r))).
  { intros r f Hr. unfold write_report.
    assert (Hb : nonempty (errored_packages r)
                 || nonempty (no_signature_packages r)
                 || nonempty (wrong_signature_packages r) = true).
    { destruct Hr as [Hr | [Hr | Hr]]; apply nonempty_true in Hr;
        rewrite Hr; by rewrite ?orb_true_r. }
    rewrite Hb. by destruct f. }
  rewrite (Hw r1 file H1), (Hw r2 _ H2).
  change (default "" (Some ?x)) with x.
  by rewrite append_assoc, join_glued.
Qed.

Lemma reports_share_a_line_witness :
  write_report
    (scan_packages (exporter_of ∅) (unsigned_env "b.rpm") "/r"
       [key_11112222])
    (write_report
       (scan_packages (exporter_of ∅) (unsigned_env "a.rpm") "/r"
          [key_11112222]) None)
  = Some ("Packages without signature:" +:+ nl
          +:+ "/r/a.rpmPackages without signature:" +:+ nl +:+ "/r/b.rpm").
Proof.
  refine (eq_trans
    (proj1 (reports_share_a_line
              (scan_packages (exporter_of ∅) (unsigned_env "a.rpm") "/r"
                 [key_11112222])
              (scan_packages (exporter_of ∅) (unsigned_env "b.rpm") "/r"
                 [key_11112222]) None _ _)) _).
  - right; left. by_compute.
  - right; left. by_compute.
  - vm_compute. reflexivity.
Defined.
